(** * Host orchestration of the partitioned BFS ([bfs-dpu/host/bfs.c])

    A shallow embedding of the host program and the properties of its
    partitioning, format conversion, memory layout and result aggregation.

    Conventions.
    - A [uint32_t] is a [Z] in [[0, 2^32)]; every arithmetic operation of the
      source that can leave that range is followed by [u32], its wrap-around.
    - A heap array is a [list Z].  Reading or writing outside the allocated
      length is undefined in C; the embedding makes it observable: every
      function that touches an array returns an [option], and [None] stands
      for an out-of-bounds access (or a failed [DPU_ASSERT]).
    - A counted [for] loop is [for_loop]: the body is run for the consecutive
      index values, and the first failing iteration aborts the loop. *)

From Stdlib Require Import Ascii.
From stdpp Require Import base numbers option list strings gmap pretty sorting.

Open Scope Z_scope.

(** ** Machine integers *)

Definition u32_mod : Z := 2 ^ 32.

(** Wrap-around of 32-bit unsigned arithmetic. *)
Definition u32 (x : Z) : Z := x mod u32_mod.

Definition is_u32 (x : Z) : Prop := 0 ≤ x < u32_mod.

(** [ROUND_UP_TO_MULTIPLE(x, y)], on 32-bit operands. *)
Definition ROUND_UP_TO_MULTIPLE (x y : Z) : Z :=
  u32 (u32 (u32 (x - 1) / y + 1) * y).

Definition BLOCK_SIZE : Z := 32.

(** ** Arrays *)

(** [a[i]] as an rvalue. *)
Definition rd (a : list Z) (i : Z) : option Z :=
  if decide (0 ≤ i) then a !! Z.to_nat i else None.

(** [a[i] = v]. *)
Definition wr (a : list Z) (i v : Z) : option (list Z) :=
  if decide (0 ≤ i < Z.of_nat (length a)) then Some (<[Z.to_nat i := v]> a) else None.

(** [calloc(n, sizeof(uint32_t))]. *)
Definition calloc (n : Z) : list Z := replicate (Z.to_nat n) 0.

(** [malloc(n * sizeof(uint32_t))]: the content is unspecified; the embedding
    fixes it to zeros, and no function below reads a cell of a [malloc]ed
    array before writing it. *)
Definition malloc (n : Z) : list Z := replicate (Z.to_nat n) 0.

(** ** Loops *)

(** [for (i = lo; i < lo + k; ++i) body], threading the state [s]. *)
Fixpoint for_loop {St : Type} (k : nat) (i : Z) (body : Z → St → option St) (s : St)
  : option St :=
  match k with
  | O => Some s
  | S k' => match body i s with
            | Some s' => for_loop k' (i + 1) body s'
            | None => None
            end
  end.

(** [for (i = 0; i < n; ++i) body]. *)
Definition for_upto {St : Type} (n : Z) (body : Z → St → option St) (s : St) : option St :=
  for_loop (Z.to_nat n) 0 body s.

(** [for (i = k; i > 0; --i) body], threading the state [s]. *)
Fixpoint for_down {St : Type} (k : nat) (body : Z → St → option St) (s : St) : option St :=
  match k with
  | O => Some s
  | S k' => match body (Z.of_nat k) s with
            | Some s' => for_down k' body s'
            | None => None
            end
  end.

(** ** Data model *)

Inductive Algorithm := TopDown | BottomUp | Edge.

Inductive Partition := Row | Col | _2D.

Record COO := mkCOO {
  coo_num_rows : Z;
  coo_num_cols : Z;
  coo_num_edges : Z;
  coo_row_idxs : list Z;
  coo_col_idxs : list Z;
}.

Record CSR := mkCSR {
  csr_num_rows : Z;
  csr_num_cols : Z;
  csr_num_edges : Z;
  csr_row_ptrs : list Z;
  csr_col_idxs : list Z;
}.

Record CSC := mkCSC {
  csc_num_rows : Z;
  csc_num_cols : Z;
  csc_num_edges : Z;
  csc_col_ptrs : list Z;
  csc_row_idxs : list Z;
}.

(** ** [nearest_factors] *)

(** The loop [while (n % f != 0) f--;].  [n % 0] is undefined: [None].  The
    recursion is on the value of [f] itself. *)
Fixpoint nearest_factors_loop (n : Z) (f : nat) : option Z :=
  match f with
  | O => None
  | S f' => if decide (n mod Z.of_nat f = 0) then Some (Z.of_nat f)
            else nearest_factors_loop n f'
  end.

(** [nearest_factors(n, &first, &second)].  [(uint32_t)sqrt(n)] goes through
    a [double]; a 32-bit [n] converts exactly and the correctly rounded root
    truncates to the integer square root, which is [Z.sqrt]. *)
Definition nearest_factors (n : Z) : option (Z * Z) :=
  match nearest_factors_loop n (Z.to_nat (Z.sqrt n)) with
  | Some f => Some (f, n / f)
  | None => None
  end.

(** ** [load_coo]: padding of the node count *)

(** Lines 315-324 of [load_coo]: [num_nodes] as read from the header, [n] the
    number of units.  [n = 0] divides by zero: [None]. *)
Definition load_coo_pad (num_nodes n : Z) : option Z :=
  if decide (n = 0) then None else
  let num_nodes :=
    if decide (num_nodes mod n ≠ 0)
    then u32 (num_nodes + u32 (n - num_nodes mod n))
    else num_nodes in
  let chunk_size := num_nodes / n in
  if decide (chunk_size mod 32 ≠ 0)
  then let chunk_size := u32 (chunk_size + u32 (32 - chunk_size mod 32)) in
       Some (u32 (chunk_size * n))
  else Some num_nodes.

(** [uint32_t padding = num_nodes - old]. *)
Definition load_coo_padding (old n : Z) : option Z :=
  match load_coo_pad old n with
  | Some num_nodes => Some (u32 (num_nodes - old))
  | None => None
  end.

(** ** Checked division *)

(** [a / b] and [a % b] on unsigned operands; a zero divisor is undefined. *)
Definition udiv (a b : Z) : option Z := if decide (b = 0) then None else Some (a / b).
Definition umod (a b : Z) : option Z := if decide (b = 0) then None else Some (a mod b).

(** ** [partition_coo] *)

Definition set_num_edges (c : COO) (k : Z) : COO :=
  mkCOO (coo_num_rows c) (coo_num_cols c) k (coo_row_idxs c) (coo_col_idxs c).

Definition set_idxs (c : COO) (rows cols : list Z) : COO :=
  mkCOO (coo_num_rows c) (coo_num_cols c) (coo_num_edges c) rows cols.

(** [prts[p]] as an rvalue, and the store [prts[p] = c] to a cell that exists. *)
Definition part_at (prts : list COO) (p : Z) : option COO :=
  if decide (0 ≤ p) then prts !! Z.to_nat p else None.

Definition part_set (prts : list COO) (p : Z) (c : COO) : list COO :=
  <[Z.to_nat p := c]> prts.

(** [prts[p].num_edges++]. *)
Definition incr_num_edges (prts : list COO) (p : Z) : option (list COO) :=
  c ← part_at prts p;
  Some (part_set prts p (set_num_edges c (u32 (coo_num_edges c + 1)))).

(** The index [p] of the partition an edge goes to, as the binning loop
    (lines 432-442) computes it. *)
Definition bin_index (prt : Partition) (num_rows num_cols col_div : Z)
    (row_idx col_idx : Z) : option Z :=
  match prt with
  | Row => udiv row_idx num_rows
  | Col => udiv col_idx num_cols
  | _2D => p_row ← udiv row_idx num_rows;
           p_col ← udiv col_idx num_cols;
           Some (u32 (u32 (p_row * col_div) + p_col))
  end.

(** Lines 380-416: the extent of a partition, the grid column count, which
    axes are rebased, and the edge count of every partition. *)
Definition partition_count (coo : COO) (n : Z) (prt : Partition) (prts : list COO)
  : option (list COO * Z * Z * Z * bool * bool) :=
  match prt with
  | Row =>
      let row_div := n in
      num_rows ← udiv (coo_num_rows coo) row_div;
      prts ← for_upto (coo_num_edges coo) (λ i prts,
                row_idx ← rd (coo_row_idxs coo) i;
                p ← udiv row_idx num_rows;
                incr_num_edges prts p) prts;
      Some (prts, num_rows, coo_num_cols coo, 1, true, false)
  | Col =>
      let col_div := n in
      num_cols ← udiv (coo_num_cols coo) col_div;
      prts ← for_upto (coo_num_edges coo) (λ i prts,
                col_idx ← rd (coo_col_idxs coo) i;
                p ← udiv col_idx num_cols;
                incr_num_edges prts p) prts;
      Some (prts, coo_num_rows coo, num_cols, col_div, false, true)
  | _2D =>
      '(row_div, col_div) ← nearest_factors n;
      num_rows ← udiv (coo_num_rows coo) row_div;
      num_cols ← udiv (coo_num_cols coo) col_div;
      prts ← for_upto (coo_num_edges coo) (λ i prts,
                row_idx ← rd (coo_row_idxs coo) i;
                col_idx ← rd (coo_col_idxs coo) i;
                p_row ← udiv row_idx num_rows;
                p_col ← udiv col_idx num_cols;
                let p := u32 (u32 (p_row * col_div) + p_col) in
                incr_num_edges prts p) prts;
      Some (prts, num_rows, num_cols, col_div, true, true)
  end.

(** Lines 419-425: allocation of the partitions' arrays. *)
Definition partition_init (n num_rows num_cols : Z) (prts : list COO) : option (list COO) :=
  for_upto n (λ i prts,
    c ← part_at prts i;
    Some (part_set prts i
            (mkCOO num_rows num_cols 0 (malloc (coo_num_edges c)) (malloc (coo_num_edges c)))))
    prts.

(** Lines 428-448: every edge is appended to its partition. *)
Definition partition_bin (coo : COO) (prt : Partition) (num_rows num_cols col_div : Z)
    (prts : list COO) : option (list COO) :=
  for_upto (coo_num_edges coo) (λ i prts,
    row_idx ← rd (coo_row_idxs coo) i;
    col_idx ← rd (coo_col_idxs coo) i;
    p ← bin_index prt num_rows num_cols col_div row_idx col_idx;
    c ← part_at prts p;
    let idx := coo_num_edges c in
    rows ← wr (coo_row_idxs c) idx row_idx;
    cols ← wr (coo_col_idxs c) idx col_idx;
    Some (part_set prts p
            (mkCOO (coo_num_rows c) (coo_num_cols c) (u32 (idx + 1)) rows cols)))
    prts.

(** The offsets subtracted from the indices of partition [p] (lines 452-453). *)
Definition part_row_offset (offset_row : bool) (col_div num_rows p : Z) : option Z :=
  if offset_row then q ← udiv p col_div; Some (u32 (q * num_rows)) else Some 0.

Definition part_col_offset (offset_col : bool) (col_div num_cols p : Z) : option Z :=
  if offset_col then q ← umod p col_div; Some (u32 (q * num_cols)) else Some 0.

(** Lines 451-459: the indices of every partition are rebased. *)
Definition partition_offset (n num_rows num_cols col_div : Z) (offset_row offset_col : bool)
    (prts : list COO) : option (list COO) :=
  for_upto n (λ p prts,
    row_offset ← part_row_offset offset_row col_div num_rows p;
    col_offset ← part_col_offset offset_col col_div num_cols p;
    c ← part_at prts p;
    c ← for_upto (coo_num_edges c) (λ i c,
           r ← rd (coo_row_idxs c) i;
           rows ← wr (coo_row_idxs c) i (u32 (r - row_offset));
           k ← rd (coo_col_idxs c) i;
           cols ← wr (coo_col_idxs c) i (u32 (k - col_offset));
           Some (set_idxs c rows cols)) c;
    Some (part_set prts p c))
    prts.

(** [partition_coo(coo, n, prt)].  The cells of the fresh [prts] array are
    unspecified apart from [num_edges], which the first loop clears. *)
Definition partition_coo (coo : COO) (n : Z) (prt : Partition) : option (list COO) :=
  let prts := replicate (Z.to_nat n) (mkCOO 0 0 0 [] []) in
  '(prts, num_rows, num_cols, col_div, offset_row, offset_col) ←
    partition_count coo n prt prts;
  prts ← partition_init n num_rows num_cols prts;
  prts ← partition_bin coo prt num_rows num_cols col_div prts;
  partition_offset n num_rows num_cols col_div offset_row offset_col prts.

(** ** [coo_to_csr] and [coo_to_csc] *)

Definition coo_to_csr (coo : COO) : option CSR :=
  let num_rows := coo_num_rows coo in
  let num_edges := coo_num_edges coo in
  let row_ptrs := calloc (u32 (num_rows + 1)) in
  let col_idxs := malloc num_edges in
  (* Histogram row_idxs. *)
  row_ptrs ← for_upto num_edges (λ i row_ptrs,
     row_idx ← rd (coo_row_idxs coo) i;
     c ← rd row_ptrs row_idx;
     wr row_ptrs row_idx (u32 (c + 1))) row_ptrs;
  (* Prefix sum row_ptrs. *)
  '(row_ptrs, sum_before_next_row) ← for_upto num_rows (λ row_idx '(row_ptrs, sum_before_next_row),
     let sum_before_row := sum_before_next_row in
     c ← rd row_ptrs row_idx;
     row_ptrs ← wr row_ptrs row_idx sum_before_row;
     Some (row_ptrs, u32 (sum_before_next_row + c))) (row_ptrs, 0);
  row_ptrs ← wr row_ptrs num_rows sum_before_next_row;
  (* Bin the nonzeros. *)
  '(row_ptrs, col_idxs) ← for_upto num_edges (λ i '(row_ptrs, col_idxs),
     row_idx ← rd (coo_row_idxs coo) i;
     nnzIdx ← rd row_ptrs row_idx;
     row_ptrs ← wr row_ptrs row_idx (u32 (nnzIdx + 1));
     col_idx ← rd (coo_col_idxs coo) i;
     col_idxs ← wr col_idxs nnzIdx col_idx;
     Some (row_ptrs, col_idxs)) (row_ptrs, col_idxs);
  (* Restore rowPtrs. *)
  row_ptrs ← for_down (Z.to_nat (u32 (num_rows - 1))) (λ row_idx row_ptrs,
     c ← rd row_ptrs (row_idx - 1);
     wr row_ptrs row_idx c) row_ptrs;
  row_ptrs ← wr row_ptrs 0 0;
  Some (mkCSR num_rows (coo_num_cols coo) num_edges row_ptrs col_idxs).

Definition coo_to_csc (coo : COO) : option CSC :=
  let coo_trs := mkCOO (coo_num_cols coo) (coo_num_rows coo) (coo_num_edges coo)
                       (coo_col_idxs coo) (coo_row_idxs coo) in
  csr ← coo_to_csr coo_trs;
  Some (mkCSC (csr_num_cols csr) (csr_num_rows csr) (coo_num_edges coo)
              (csr_row_ptrs csr) (csr_col_idxs csr)).

(** The edges of a matrix, as a list of (row, column) pairs. *)
Definition coo_edges (coo : COO) : list (Z * Z) :=
  zip (take (Z.to_nat (coo_num_edges coo)) (coo_row_idxs coo))
      (take (Z.to_nat (coo_num_edges coo)) (coo_col_idxs coo)).

(** [a[lo .. hi)], defined when the range lies inside the array. *)
Definition slice (a : list Z) (lo hi : Z) : option (list Z) :=
  if decide (0 ≤ lo ≤ hi ∧ hi ≤ Z.of_nat (length a))
  then Some (take (Z.to_nat (hi - lo)) (drop (Z.to_nat lo) a))
  else None.

(** The out-edges of row [r]: [(r, col_idxs[k])] for
    [row_ptrs[r] <= k < row_ptrs[r+1]]. *)
Definition csr_row_edges (csr : CSR) (r : Z) : option (list (Z * Z)) :=
  lo ← rd (csr_row_ptrs csr) r;
  hi ← rd (csr_row_ptrs csr) (r + 1);
  cols ← slice (csr_col_idxs csr) lo hi;
  Some (map (λ c, (r, c)) cols).

(** The edges a row-compressed matrix stands for, row after row. *)
Definition csr_edges (csr : CSR) : option (list (Z * Z)) :=
  rows ← mapM (csr_row_edges csr) (seqZ 0 (csr_num_rows csr));
  Some (concat rows).

(** ** The compute units, as the host sees them *)

(** A unit is observed through its host-visible 32-bit variables, addressed
    by symbol name, and through its MRAM, read and written in 32-bit words at
    byte addresses.  The initial content of both is arbitrary. *)
Record DPU := mkDPU {
  dpu_wram : gmap string Z;
  dpu_mram : Z → Z;
}.

(** [dpu_copy_from(dpu, symbol_name, 0, &dst, 4)]; an unknown symbol fails
    the [DPU_ASSERT]. *)
Definition dpu_copy_from (dpu : DPU) (symbol_name : string) : option Z :=
  dpu_wram dpu !! symbol_name.

(** [dpu_copy_to(dpu, symbol_name, 0, &src, 4)]. *)
Definition dpu_copy_to (dpu : DPU) (symbol_name : string) (src : Z) : option DPU :=
  match dpu_wram dpu !! symbol_name with
  | Some _ => Some (mkDPU (<[symbol_name := src]> (dpu_wram dpu)) (dpu_mram dpu))
  | None => None
  end.

(** The words [ws] stored from byte address [addr] on. *)
Fixpoint mram_store (m : Z → Z) (addr : Z) (ws : list Z) : Z → Z :=
  match ws with
  | [] => m
  | w :: ws' => mram_store (λ a, if decide (a = addr) then w else m a) (addr + 4) ws'
  end.

(** [dpu_copy_to_mram(dpu.dpu, addr, src, 4 * length ws)]. *)
Definition dpu_copy_to_mram (dpu : DPU) (addr : Z) (ws : list Z) : DPU :=
  mkDPU (dpu_wram dpu) (mram_store (dpu_mram dpu) addr ws).

(** [dpu_copy_from_mram(dpu.dpu, dst, addr, 4 * length)]. *)
Definition dpu_copy_from_mram (dpu : DPU) (addr length : Z) : list Z :=
  (λ k, dpu_mram dpu (addr + 4 * k)) <$> seqZ 0 length.

(** [size_t] arithmetic of the 64-bit host. *)
Definition usize (x : Z) : Z := x mod 2 ^ 64.

(** The byte count [size] of [dpu_insert_mram_array_u32] (lines 140-141). *)
Definition insert_size (length : Z) : Z :=
  let size := usize (length * 4) in
  usize (size + size mod 8).

(** The first [k] words of the host memory at [src]: the array, then the one
    word [slack] that follows it, which the copy reaches when [length] is
    odd. *)
Definition host_words (src : list Z) (slack : Z) (k : Z) : option (list Z) :=
  if decide (k ≤ Z.of_nat (length src)) then Some (take (Z.to_nat k) src)
  else if decide (k = Z.of_nat (length src) + 1) then Some (src ++ [slack])
  else None.

Section mram.
(** [mram_addr_t] comes from the SDK headers; its width is a parameter. *)
Variable mram_addr_bits : Z.

Definition mram_addr (x : Z) : Z := x mod 2 ^ mram_addr_bits.

(** [dpu_insert_mram_array_u32(dpu, symbol_name, src, length)]; [src = None]
    is the null pointer. *)
Definition dpu_insert_mram_array_u32 (dpu : DPU) (symbol_name : string)
    (src : option (list Z)) (length : Z) (slack : Z) : option DPU :=
  let src := match src with Some a => a | None => calloc length end in
  p_used_mram_end ← dpu_copy_from dpu "p_used_mram_end";
  dpu ← dpu_copy_to dpu symbol_name p_used_mram_end;
  let size := insert_size length in
  ws ← host_words src slack (size / 4);
  let dpu := dpu_copy_to_mram dpu p_used_mram_end ws in
  let p_used_mram_end := mram_addr (p_used_mram_end + size) in
  dpu_copy_to dpu "p_used_mram_end" p_used_mram_end.

(** A sequence of insertions into one unit, in program order. *)
Fixpoint dpu_insert_all (dpu : DPU) (ops : list (string * option (list Z) * Z * Z))
  : option DPU :=
  match ops with
  | [] => Some dpu
  | (symbol_name, src, length, slack) :: ops' =>
      dpu ← dpu_insert_mram_array_u32 dpu symbol_name src length slack;
      dpu_insert_all dpu ops'
  end.
End mram.

(** [dpu_get_mram_array_u32(dpu, symbol_name, dst, length)]: the new content
    of [dst]. *)
Definition dpu_get_mram_array_u32 (dpu : DPU) (symbol_name : string) (length : Z)
  : option (list Z) :=
  p_array ← dpu_copy_from dpu symbol_name;
  Some (dpu_copy_from_mram dpu p_array length).

(** [DPU_FOREACH(set, dpu, i) body], from the index [i] on. *)
Fixpoint dpu_foreach {St : Type} (set : list DPU) (i : Z) (body : DPU → Z → St → option St)
    (s : St) : option St :=
  match set with
  | [] => Some s
  | dpu :: set' => match body dpu i s with
                   | Some s' => dpu_foreach set' (i + 1) body s'
                   | None => None
                   end
  end.

(** ** [print_node_levels] *)

(** [n + i / div * len_nl % total_nodes] (line 593). *)
Definition nreal_index (total_nodes len_nl div i n : Z) : option Z :=
  q ← udiv i div;
  off ← umod (u32 (q * len_nl)) total_nodes;
  Some (u32 (n + off)).

(** The update of one cell (lines 594-595): the new content of
    [node_levels[nreal]], given its old content [cur] and the report [v]. *)
Definition merge_level (cur v : Z) : Z :=
  if decide (cur = 0 ∨ v < cur) then v else cur.

(** The inner loop (lines 592-596), for the levels [nl_tmp] of unit [i]. *)
Definition merge_unit (total_nodes len_nl div i : Z) (nl_tmp node_levels : list Z)
  : option (list Z) :=
  for_upto len_nl (λ n node_levels,
    nreal ← nreal_index total_nodes len_nl div i n;
    cur ← rd node_levels nreal;
    v ← rd nl_tmp n;
    wr node_levels nreal (merge_level cur v)) node_levels.

(** Lines 586-597: the merged array. *)
Definition merge_node_levels (set : list DPU) (total_nodes len_nl div : Z)
  : option (list Z) :=
  let node_levels := calloc total_nodes in
  dpu_foreach set 0 (λ dpu i node_levels,
    nl_tmp ← dpu_get_mram_array_u32 dpu "node_levels" len_nl;
    merge_unit total_nodes len_nl div i nl_tmp node_levels) node_levels.

Definition TAB : string := String (Ascii.ascii_of_nat 9) "".
Definition NL : string := String (Ascii.ascii_of_nat 10) "".

(** [fprintf(out, "%u\t%u\n", node, level)]. *)
Definition level_line (node level : Z) : string :=
  pretty node +:+ TAB +:+ pretty level +:+ NL.

Definition header_line : string := "node" +:+ TAB +:+ "level" +:+ NL.

(** Lines 604-609, appending to what [out] holds. *)
Definition print_levels (total_nodes : Z) (node_levels : list Z) (out : string)
  : option string :=
  for_upto total_nodes (λ node out,
    level ← rd node_levels node;
    if decide (node ≠ 0 ∧ level = 0) then Some out
    else Some (out +:+ level_line node level)) out.

(** [print_node_levels(total_nodes, len_nl, div)] on the units [set]: the
    text written to [out]. *)
Definition print_node_levels (set : list DPU) (total_nodes len_nl div : Z)
  : option string :=
  let out := header_line in
  node_levels ← merge_node_levels set total_nodes len_nl div;
  print_levels total_nodes node_levels out.

(** ** [start_2d]: the slices sent back to the units *)

(** The word of [frontier] at which the next-frontier slice of unit [i]
    starts: [i * len_nf % len_frontier] (lines 828 and 843). *)
Definition start_2d_nf_offset (len_frontier len_nf i : Z) : option Z :=
  umod (u32 (i * len_nf)) len_frontier.

(** The word of [frontier] at which the current-frontier slice of unit [i]
    starts: [i / col_div * len_cf] (line 847). *)
Definition start_2d_cf_offset (len_cf col_div i : Z) : option Z :=
  q ← udiv i col_div;
  Some (u32 (q * len_cf)).

(** ** The arguments of [print_node_levels] at its call sites *)

(** [total_nodes], [len_nl] and [div] as [bfs_top_down], [bfs_bottom_up] and
    [bfs_edge] compute them from the extent of partition 0. *)
Definition bfs_metadata (alg : Algorithm) (prt : Partition)
    (num_nodes num_neighbors num_dpu : Z) : option (Z * Z * Z) :=
  '(total_nodes, col_div) ←
    match prt with
    | Row => Some (num_neighbors, 1)
    | Col => Some (num_nodes, num_dpu)
    | _2D => '(row_div, col_div) ← nearest_factors num_dpu;
             q ← udiv (u32 (num_nodes * num_dpu)) col_div;
             Some (q, col_div)
    end;
  match alg with
  | TopDown => Some (total_nodes, num_nodes, col_div)
  | BottomUp | Edge => Some (total_nodes, num_neighbors, 1)
  end.

(** ** Command line *)

(** [atoi]: leading white space, an optional sign, then decimal digits up
    to the first other character.  A value outside [int] is undefined in C;
    here the digits are accumulated without bound. *)
Definition isspace (c : ascii) : bool :=
  let k := nat_of_ascii c in
  bool_decide (k = 32 ∨ 9 ≤ k ≤ 13)%nat.

Definition digit_of (c : ascii) : option Z :=
  let k := Z.of_nat (nat_of_ascii c) in
  if decide (48 ≤ k ≤ 57) then Some (k - 48) else None.

Fixpoint atoi_digits (s : string) (acc : Z) : Z :=
  match s with
  | String c s' => match digit_of c with
                   | Some d => atoi_digits s' (10 * acc + d)
                   | None => acc
                   end
  | EmptyString => acc
  end.

Fixpoint atoi (s : string) : Z :=
  match s with
  | String c s' =>
      if isspace c then atoi s'
      else if decide (c = "-"%char) then - atoi_digits s' 0
      else if decide (c = "+"%char) then atoi_digits s' 0
      else atoi_digits s 0
  | EmptyString => 0
  end.

Inductive level := ERROR | WARNING | INFO.

(** What the process does that can be seen from outside. *)
Inductive event :=
  | Log (l : level) (msg : string)
  | ExitProcess (status : Z)
  | OpenOutput (path : string)
  | DpuAlloc (nr_dpus : Z)
  | DpuLoad (bin_path : option string).

(** The variables [parse_args] writes through its pointers; [bin_path] has no
    initial value in [main]. *)
Record Args := mkArgs {
  num_dpu : Z;
  alg : Algorithm;
  prt : Partition;
  bin_path : option string;
  file : option string;
  out_file : option string;
}.

(** One round of the [getopt] loop (lines 217-272): [c] is the value [getopt]
    returned and [optarg] its argument.  The result is what was logged and,
    unless [exit(1)] was called, the new variables and [is_prt_set]. *)
Definition parse_opt (c : ascii) (optarg : string) (a : Args) (is_prt_set : bool)
  : list event * option (Args * bool) :=
  if decide (c = "n"%char) then
    let v := u32 (atoi optarg) in
    let a := mkArgs v (alg a) (prt a) (bin_path a) (file a) (out_file a) in
    (* [num_dpu == 0] compares the pointer, which is the address of the
       global [num_dpu], with null. *)
    let num_dpu_is_null := false in
    if num_dpu_is_null || bool_decide (v mod 8 ≠ 0)
    then ([Log ERROR "Number of DPUs must be a multiple of 8."], None)
    else ([], Some (a, is_prt_set))
  else if decide (c = "a"%char) then
    if decide (optarg = "top") then
      ([Log INFO "Algorithm: Vertex-centric Top-Down BFS."],
       Some (mkArgs (num_dpu a) TopDown (if is_prt_set then prt a else Row)
                    (Some "bin/top-down-dma") (file a) (out_file a), is_prt_set))
    else if decide (optarg = "bot") then
      ([Log INFO "Algorithm: Vertex-centric Bottom-Up BFS."],
       Some (mkArgs (num_dpu a) BottomUp (if is_prt_set then prt a else Col)
                    (Some "bin/bottom-up-dma") (file a) (out_file a), is_prt_set))
    else if decide (optarg = "edge") then
      ([Log INFO "Algorithm: Edge-centric BFS."],
       Some (mkArgs (num_dpu a) Edge (if is_prt_set then prt a else _2D)
                    (Some "bin/edge-dma") (file a) (out_file a), is_prt_set))
    else ([Log ERROR "Incorrect -a argument. Supported algorithms: top | bot | edge"], None)
  else if decide (c = "p"%char) then
    if decide (optarg = "row") then
      ([Log INFO "Partitioning: 1D Row (source-nodes)."],
       Some (mkArgs (num_dpu a) (alg a) Row (bin_path a) (file a) (out_file a), true))
    else if decide (optarg = "col") then
      ([Log INFO "Partitioning: 1D Column (destination-nodes/neighbors)."],
       Some (mkArgs (num_dpu a) (alg a) Col (bin_path a) (file a) (out_file a), true))
    else if decide (optarg = "2d") then
      ([Log INFO "Partitioning: 2D (both source-nodes and destination-nodes)."],
       Some (mkArgs (num_dpu a) (alg a) _2D (bin_path a) (file a) (out_file a), true))
    else ([Log ERROR "Incorrect -p argument. Supported partitioning: row | col | 2d"], None)
  else if decide (c = "o"%char) then
    ([], Some (mkArgs (num_dpu a) (alg a) (prt a) (bin_path a) (file a) (Some optarg),
               is_prt_set))
  else
    ([Log ERROR "Bad args. Usage: -n <num_dpu> -a <top|bot|edge> -p <row|col|2d> -o <output_file>"],
     None).

(** The [getopt] loop over the options [getopt] returns, in order. *)
Fixpoint parse_opts (opts : list (ascii * string)) (a : Args) (is_prt_set : bool)
  : list event * option (Args * bool) :=
  match opts with
  | [] => ([], Some (a, is_prt_set))
  | (c, optarg) :: opts' =>
      match parse_opt c optarg a is_prt_set with
      | (log, Some (a', is_prt_set')) =>
          let '(log', r) := parse_opts opts' a' is_prt_set' in (log ++ log', r)
      | (log, None) => (log, None)
      end
  end.

(** [parse_args]: [opts] are the options as [getopt] delivers them for the
    string ["n:a:p:o:"] (["?"] for an unknown one), [operands] the arguments
    from [argv[optind]] on. *)
Definition parse_args (opts : list (ascii * string)) (operands : list string) (a : Args)
  : list event * option Args :=
  match parse_opts opts a false with
  | (log, None) => (log, None)
  | (log, Some (a, _)) =>
      match operands with
      | [f] =>
          (log, Some (mkArgs (num_dpu a) (alg a) (prt a) (bin_path a) (Some f)
                             (Some (default "/dev/null" (out_file a)))))
      | [] => (log ++ [Log ERROR "Too few arguments! Please provide data file name (Adjacency list)."],
               None)
      | _ => (log ++ [Log ERROR "Too many arguments!"], None)
      end
  end.

Definition NR_TASKLETS : Z := 11.

(** [main], from its first statement to the load of the kernel binary
    (lines 1161-1172); [exit(1)] inside [parse_args] ends the trace. *)
Definition main_startup (opts : list (ascii * string)) (operands : list string)
  : list event :=
  match parse_args opts operands (mkArgs 8 TopDown Row None None None) with
  | (log, None) => log ++ [ExitProcess 1]
  | (log, Some a) =>
      log ++ [OpenOutput (default "" (out_file a));
              Log INFO ("Allocating " +:+ pretty (num_dpu a) +:+ " DPUs, "
                        +:+ pretty NR_TASKLETS +:+ " tasklets each. Using "
                        +:+ pretty BLOCK_SIZE +:+ " bytes blocks for MRAM DMA.");
              DpuAlloc (num_dpu a);
              DpuLoad (bin_path a)]
  end.

(** ** Specification predicates *)

(** [p] is the least count not below [x] that both [N] and 32 divide. *)
Definition least_common_padding (N x p : Z) : Prop :=
  x ≤ p ∧ (N | p) ∧ (32 | p) ∧ ∀ m, x ≤ m → (N | m) → (32 | m) → p ≤ m.

(** [p] is the least count not below [x] that splits into [N] chunks whose
    size 32 divides. *)
Definition least_chunk_padding (N x p : Z) : Prop :=
  x ≤ p ∧ (N | p) ∧ (32 | p / N) ∧ ∀ m, x ≤ m → (N | m) → (32 | m / N) → p ≤ m.

(** [x] moved up to the next multiple of [d], the way both padding steps of
    [load_coo] do it. *)
Definition next_multiple (d x : Z) : Z :=
  if decide (x mod d ≠ 0) then x + (d - x mod d) else x.

(** The least non-zero element of [l], and 0 when there is none. *)
Definition min_nonzero (l : list Z) : Z :=
  foldr (λ v acc, if decide (v = 0) then acc
                  else if decide (acc = 0 ∨ v < acc) then v else acc) 0 l.

(** A unit that holds the level array [levels] under the symbol
    ["node_levels"], placed by the host at the start of its heap. *)
Definition dpu_with_levels (levels : list Z) : option DPU :=
  dpu_insert_mram_array_u32 32
    (mkDPU {[ "p_used_mram_end" := 0; "node_levels" := 0 ]} (λ _, 0))
    "node_levels" (Some levels) (Z.of_nat (length levels)) 0.

(** An insertion [(symbol_name, src, length, slack)] a unit can take: the
    symbol exists, and [src] is null or an array of [length] words. *)
Definition insert_ok (dpu : DPU) (op : string * option (list Z) * Z * Z) : Prop :=
  is_Some (dpu_wram dpu !! op.1.1.1) ∧ is_u32 op.1.2 ∧
  match op.1.1.2 with
  | Some a => Z.of_nat (length a) = op.1.2
  | None => True
  end.

(** The text made of the lines [ls], one after the other. *)
Definition text_of_lines (ls : list string) : string := foldr String.append "" ls.

(** A node has a line in the output: it is node 0, or its level is not 0. *)
Definition emitted (node_levels : list Z) (node : Z) : Prop :=
  node = 0 ∨ node_levels !!! Z.to_nat node ≠ 0.

(** ** Buckets

    Both [partition_coo] and [coo_to_csr] are counting sorts: the elements
    of a list are distributed by an integer key.  For a list [l] and a key
    function [key]: *)
Section buckets.
Context {A : Type} (key : A → Z) (l : list A).

(** the elements with key [r] among the first [k], in order; *)
Definition bucket (r : Z) (k : nat) : list A :=
  filter (λ e, key e = r) (take k l).

(** how many they are; *)
Definition cnt (r : Z) (k : nat) : nat := length (bucket r k).

(** how many elements have a key below [r]; *)
Definition below (r : Z) : nat := length (filter (λ e, key e < r) l).

(** and the place of element [k] once the list is sorted by key, elements
    of equal key staying in order. *)
Definition pos (k : nat) : nat :=
  match l !! k with
  | Some e => (below (key e) + cnt (key e) k)%nat
  | None => k
  end.
End buckets.

(** A list given by its length and its cells. *)
Definition tab {A : Type} (a : list A) (n : nat) (f : nat → A) : Prop :=
  length a = n ∧ ∀ j, (j < n)%nat → a !! j = Some (f j).

(** ** Partitions, as the grid sees them *)

(** The grid (rows, columns) a topology lays the [n] units on. *)
Definition grid (n : Z) (prt : Partition) : option (Z * Z) :=
  match prt with
  | Row => Some (n, 1)
  | Col => Some (1, n)
  | _2D => nearest_factors n
  end.

(** The row-major index of the grid cell of an edge, for cells of [nr] rows
    and [nc] columns on a grid of [C] columns. *)
Definition cell_of (nr nc C : Z) (e : Z * Z) : Z := e.1 / nr * C + e.2 / nc.

(** An edge seen from cell [p] (grid row [p / C], grid column [p mod C]),
    and back. *)
Definition rebase (nr nc C p : Z) (e : Z * Z) : Z * Z :=
  (e.1 - p / C * nr, e.2 - p mod C * nc).

Definition restore (nr nc C p : Z) (e : Z * Z) : Z * Z :=
  (e.1 + p / C * nr, e.2 + p mod C * nc).

(** A well-formed edge list: 32-bit fields, arrays of [num_edges] cells,
    indices below [num_rows] and [num_cols]. *)
Definition coo_wf (coo : COO) : Prop :=
  is_u32 (coo_num_rows coo) ∧ is_u32 (coo_num_cols coo) ∧ is_u32 (coo_num_edges coo) ∧
  Z.of_nat (length (coo_row_idxs coo)) = coo_num_edges coo ∧
  Z.of_nat (length (coo_col_idxs coo)) = coo_num_edges coo ∧
  Forall (λ r, 0 ≤ r < coo_num_rows coo) (coo_row_idxs coo) ∧
  Forall (λ c, 0 ≤ c < coo_num_cols coo) (coo_col_idxs coo).

(** The axes along which a topology rebases ([offset_row], [offset_col]). *)
Definition offset_axes (prt : Partition) : bool * bool :=
  match prt with
  | Row => (true, false)
  | Col => (false, true)
  | _2D => (true, true)
  end.

(** ** The command line, option by option *)

(** The argument of the last option [c] on a command line, if there is
    one. *)
Definition last_opt (c : ascii) (opts : list (ascii * string)) : option string :=
  snd <$> last (filter (λ o, o.1 = c) opts).

(** What the argument of [-a] stands for: the algorithm, the kernel binary
    and the topology taken when no [-p] came before. *)
Definition alg_of_arg (s : string) : option (Algorithm * string * Partition) :=
  if decide (s = "top") then Some (TopDown, "bin/top-down-dma", Row)
  else if decide (s = "bot") then Some (BottomUp, "bin/bottom-up-dma", Col)
  else if decide (s = "edge") then Some (Edge, "bin/edge-dma", _2D)
  else None.

(** What the argument of [-p] stands for. *)
Definition prt_of_arg (s : string) : option Partition :=
  if decide (s = "row") then Some Row
  else if decide (s = "col") then Some Col
  else if decide (s = "2d") then Some _2D
  else None.

(** ** The other accessors of a unit *)

(** [dpu_set_mram_array_u32(dpu, symbol_name, src, length)]: [length] words
    of [src] are copied to the address the symbol holds; reading [src] past
    its end is undefined. *)
Definition dpu_set_mram_array_u32 (dpu : DPU) (symbol_name : string) (src : list Z)
    (length : Z) : option DPU :=
  p_array ← dpu_copy_from dpu symbol_name;
  ws ← (if decide (0 ≤ length ≤ Z.of_nat (List.length src))
        then Some (take (Z.to_nat length) src) else None);
  Some (dpu_copy_to_mram dpu p_array ws).

(** [dpu_set_u32(dpu, symbol_name, src)]. *)
Definition dpu_set_u32 (dpu : DPU) (symbol_name : string) (src : Z) : option DPU :=
  dpu_copy_to dpu symbol_name src.

(** [dpu_get_u32(dpu, symbol_name, &dst)]: the new content of [dst]. *)
Definition dpu_get_u32 (dpu : DPU) (symbol_name : string) : option Z :=
  dpu_copy_from dpu symbol_name.

(** The bytes a sequence of insertions takes from the heap of a unit. *)
Definition mram_bytes (ops : list (string * option (list Z) * Z * Z)) : Z :=
  foldr (λ op acc, insert_size op.1.2 + acc) 0 ops.

(** An insertion [(symbol_name, src, length, slack)] that stays inside its
    source: the symbol exists, and [src] is null or a buffer of at least
    [length] words. *)
Definition insert_fits (dpu : DPU) (op : string * option (list Z) * Z * Z) : Prop :=
  is_Some (dpu_wram dpu !! op.1.1.1) ∧ is_u32 op.1.2 ∧
  match op.1.1.2 with
  | Some a => op.1.2 ≤ Z.of_nat (List.length a)
  | None => True
  end.

(** The array an insertion [(symbol_name, src, length, slack)] stores: the
    first [length] words of [src], or [length] zeros for the null pointer. *)
Definition inserted (op : string * option (list Z) * Z * Z) : list Z :=
  take (Z.to_nat op.1.2) (default (calloc op.1.2) op.1.1.2).

(** ** [bfs_top_down]: the population of the MRAM *)


Section populate.
Variable mram_addr_bits : Z.
(** The host word that follows the buffer inserted under a symbol. *)
Variable slack : string → Z.

(** The body of the [DPU_FOREACH] of [bfs_top_down] (lines 910-935), for
    unit [i] and its matrix [csr_i]: the unit as it is left, and the two
    addresses cached in [nf_addr] and [cf_addr]. *)
Definition bfs_top_down_populate (frontier : list Z) (csr_i : CSR)
    (num_nodes len_nf len_cf len_nl col_div : Z) (dpu : DPU) (i : Z)
  : option (DPU * Z * Z) :=
  dpu ← dpu_set_u32 dpu "level" 0;
  dpu ← dpu_set_u32 dpu "len_nf" len_nf;
  dpu ← dpu_set_u32 dpu "len_cf" len_cf;
  let cf := if decide (i < col_div) then Some frontier else None in
  r ← umod i col_div;
  let nf := if decide (r = 0) then Some frontier else None in
  let lcf := ROUND_UP_TO_MULTIPLE len_cf BLOCK_SIZE in
  let lnf := ROUND_UP_TO_MULTIPLE len_nf BLOCK_SIZE in
  let lnl := ROUND_UP_TO_MULTIPLE len_nl BLOCK_SIZE in
  dpu ← dpu_insert_mram_array_u32 mram_addr_bits dpu "visited" None lnf (slack "visited");
  dpu ← dpu_insert_mram_array_u32 mram_addr_bits dpu "next_frontier" nf lnf
          (slack "next_frontier");
  dpu ← dpu_insert_mram_array_u32 mram_addr_bits dpu "curr_frontier" cf lcf
          (slack "curr_frontier");
  dpu ← dpu_insert_mram_array_u32 mram_addr_bits dpu "node_levels" None lnl
          (slack "node_levels");
  dpu ← dpu_insert_mram_array_u32 mram_addr_bits dpu "node_ptrs"
          (Some (csr_row_ptrs csr_i)) (u32 (num_nodes + 1)) (slack "node_ptrs");
  dpu ← dpu_insert_mram_array_u32 mram_addr_bits dpu "edges"
          (Some (csr_col_idxs csr_i)) (csr_num_edges csr_i) (slack "edges");
  nf_addr ← dpu_copy_from dpu "next_frontier";
  cf_addr ← dpu_copy_from dpu "curr_frontier";
  Some (dpu, nf_addr, cf_addr).

(** The [DPU_FOREACH] of [bfs_top_down] over the units [set]: the units as
    they are left, and the last values of [nf_addr] and [cf_addr]. *)
Definition bfs_top_down_populate_all (frontier : list Z) (csr : list CSR)
    (num_nodes len_nf len_cf len_nl col_div : Z) (set : list DPU) (nf_addr cf_addr : Z)
  : option (list DPU * Z * Z) :=
  dpu_foreach set 0 (λ dpu i '(done, nf_addr, cf_addr),
    csr_i ← (if decide (0 ≤ i) then csr !! Z.to_nat i else None);
    '(dpu, nf_addr, cf_addr) ←
      bfs_top_down_populate frontier csr_i num_nodes len_nf len_cf len_nl col_div dpu i;
    Some (done ++ [dpu], nf_addr, cf_addr)) ([], nf_addr, cf_addr).
End populate.

(** The symbols of the kernel binary the host of [bfs_top_down] writes. *)
Definition top_down_symbols : list string :=
  ["p_used_mram_end"; "level"; "len_nf"; "len_cf"; "visited"; "next_frontier";
   "curr_frontier"; "node_levels"; "node_ptrs"; "edges"].

(** A unit the kernel binary is loaded on, with its heap ending at [p], and
    a matrix that fits behind the four fixed arrays of [bfs_top_down]. *)
Definition populate_ready (bits num_nodes len_nf len_cf len_nl p : Z) (dpu : DPU)
    (csr_i : CSR) : Prop :=
  let lcf := ROUND_UP_TO_MULTIPLE len_cf BLOCK_SIZE in
  let lnf := ROUND_UP_TO_MULTIPLE len_nf BLOCK_SIZE in
  let lnl := ROUND_UP_TO_MULTIPLE len_nl BLOCK_SIZE in
  Forall (λ s, is_Some (dpu_wram dpu !! s)) top_down_symbols ∧
  dpu_copy_from dpu "p_used_mram_end" = Some p ∧
  u32 (num_nodes + 1) ≤ Z.of_nat (length (csr_row_ptrs csr_i)) ∧
  is_u32 (csr_num_edges csr_i) ∧
  csr_num_edges csr_i ≤ Z.of_nat (length (csr_col_idxs csr_i)) ∧
  p + 8 * lnf + 4 * lcf + 4 * lnl + insert_size (u32 (num_nodes + 1))
    + insert_size (csr_num_edges csr_i) < 2 ^ bits.

(** What unit [i] holds after [bfs_top_down] has populated it. *)
Definition populated (frontier : list Z) (num_nodes len_nf len_cf len_nl col_div p : Z)
    (csr_i : CSR) (i : Z) (dpu' : DPU) : Prop :=
  let lcf := ROUND_UP_TO_MULTIPLE len_cf BLOCK_SIZE in
  let lnf := ROUND_UP_TO_MULTIPLE len_nf BLOCK_SIZE in
  let lnl := ROUND_UP_TO_MULTIPLE len_nl BLOCK_SIZE in
  dpu_copy_from dpu' "next_frontier" = Some (p + 4 * lnf) ∧
  dpu_copy_from dpu' "curr_frontier" = Some (p + 8 * lnf) ∧
  dpu_get_u32 dpu' "level" = Some 0 ∧
  dpu_get_u32 dpu' "len_nf" = Some len_nf ∧
  dpu_get_u32 dpu' "len_cf" = Some len_cf ∧
  dpu_get_mram_array_u32 dpu' "visited" lnf = Some (replicate (Z.to_nat lnf) 0) ∧
  dpu_get_mram_array_u32 dpu' "next_frontier" lnf
  = Some (if decide (i mod col_div = 0) then take (Z.to_nat lnf) frontier
          else replicate (Z.to_nat lnf) 0) ∧
  dpu_get_mram_array_u32 dpu' "curr_frontier" lcf
  = Some (if decide (i < col_div) then take (Z.to_nat lcf) frontier
          else replicate (Z.to_nat lcf) 0) ∧
  dpu_get_mram_array_u32 dpu' "node_levels" lnl = Some (replicate (Z.to_nat lnl) 0) ∧
  dpu_get_mram_array_u32 dpu' "node_ptrs" (u32 (num_nodes + 1))
  = Some (take (Z.to_nat (u32 (num_nodes + 1))) (csr_row_ptrs csr_i)) ∧
  dpu_get_mram_array_u32 dpu' "edges" (csr_num_edges csr_i)
  = Some (take (Z.to_nat (csr_num_edges csr_i)) (csr_col_idxs csr_i)).

(** A unit right after the kernel is loaded, as far as the host relies on
    it: the symbols exist; they and the MRAM hold zeros, so the heap of the
    unit starts at address 0. *)
Definition blank_unit (symbols : list string) : DPU :=
  mkDPU (list_to_map ((λ s, (s, 0)) <$> symbols)) (λ _, 0).

(** ** [load_coo] *)

(** How a call ends: it returns, it calls [exit], or it runs into undefined
    behaviour (a division by zero, an access outside an array). *)
Inductive outcome (A : Type) :=
  | Returns (a : A)
  | Exits (status : Z)
  | Undefined.
Arguments Returns {A} a.
Arguments Exits {A} status.
Arguments Undefined {A}.

(** A graph file as the calls of [fscanf] deliver it: the two numbers of the
    header, if the header matches ["%u %u"]; then, call after call, the two
    numbers of a line, if the line matches.  A call past the last line does
    not match. *)
Record graph_file := mkFile {
  gf_header : option (Z * Z);
  gf_lines : list (option (Z * Z));
}.

(** The loop of lines 347-355, from index [i] on, for [k] iterations. *)
Fixpoint load_coo_edges (k : nat) (i : Z) (lines : list (option (Z * Z))) (row_offset : Z)
    (row_idxs col_idxs : list Z) : list event * outcome (list Z * list Z) :=
  match k with
  | O => ([], Returns (row_idxs, col_idxs))
  | S k' =>
      match lines with
      | Some (row_idx, col_idx) :: lines' =>
          match wr row_idxs i (u32 (row_idx - row_offset)) with
          | Some row_idxs =>
              match wr col_idxs i (u32 (col_idx - row_offset)) with
              | Some col_idxs =>
                  load_coo_edges k' (i + 1) lines' row_offset row_idxs col_idxs
              | None => ([], Undefined)
              end
          | None => ([], Undefined)
          end
      | _ =>
          ([Log ERROR ("Could not properly read line " +:+ pretty (u32 (i + 1))
                       +:+ ". Lines must be of the form: ROW_IDX COL_IDX")],
           Exits 1)
      end
  end.

(** [load_coo(file, n)]: [file] is [None] when [access] does not find it;
    [name] is its path. *)
Definition load_coo (file : option graph_file) (name : string) (n : Z)
  : list event * outcome COO :=
  match file with
  | None => ([Log ERROR ("Could not find file " +:+ name +:+ ".")], Exits 1)
  | Some f =>
      let log := [Log INFO ("Loading adjacency list formated graph from " +:+ name +:+ ".")] in
      match gf_header f with
      | None =>
          (log ++ [Log ERROR "Could not properly read Adjacency list file. First line must be of the form: NUM_NODES NUM_EDGES"],
           Exits 1)
      | Some (num_nodes, num_edges) =>
          let row_idxs := malloc num_edges in
          let col_idxs := malloc num_edges in
          let old := num_nodes in
          match load_coo_pad num_nodes n with
          | None => (log, Undefined)
          | Some num_nodes =>
              let padding := u32 (num_nodes - old) in
              let log :=
                log ++ (if decide (padding ≠ 0)
                        then [Log WARNING ("Padding number of nodes with " +:+ pretty padding
                                           +:+ " extra nodes.")]
                        else [])
                    ++ [Log INFO (pretty num_nodes +:+ " nodes, " +:+ pretty num_edges
                                  +:+ " edges.")] in
              match gf_lines f with
              | Some (row_idx, col_idx) :: lines =>
                  let row_offset := row_idx in
                  match wr row_idxs 0 (u32 (row_idx - row_offset)) with
                  | None => (log, Undefined)
                  | Some row_idxs =>
                      match wr col_idxs 0 (u32 (col_idx - row_offset)) with
                      | None => (log, Undefined)
                      | Some col_idxs =>
                          match load_coo_edges (Z.to_nat (num_edges - 1)) 1 lines row_offset
                                  row_idxs col_idxs with
                          | (log', Returns (row_idxs, col_idxs)) =>
                              (log ++ log',
                               Returns (mkCOO num_nodes num_nodes num_edges row_idxs col_idxs))
                          | (log', Exits status) => (log ++ log', Exits status)
                          | (log', Undefined) => (log ++ log', Undefined)
                          end
                      end
                  end
              | _ =>
                  (log ++ [Log ERROR "Could not properly read line 1. Lines must be of the form: ROW_IDX COL_IDX"],
                   Exits 1)
              end
          end
      end
  end.

(** The messages of a load that goes through, for [num_nodes] nodes in the
    header padded to [padded]. *)
Definition load_coo_log (name : string) (num_nodes padded num_edges : Z) : list event :=
  [Log INFO ("Loading adjacency list formated graph from " +:+ name +:+ ".")]
  ++ (if decide (u32 (padded - num_nodes) ≠ 0)
      then [Log WARNING ("Padding number of nodes with " +:+ pretty (u32 (padded - num_nodes))
                         +:+ " extra nodes.")]
      else [])
  ++ [Log INFO (pretty padded +:+ " nodes, " +:+ pretty num_edges +:+ " edges.")].

(** ** Column-compressed matrices, read back *)

(** The in-edges of column [c]: [(row_idxs[k], c)] for
    [col_ptrs[c] <= k < col_ptrs[c+1]]. *)
Definition csc_col_edges (csc : CSC) (c : Z) : option (list (Z * Z)) :=
  lo ← rd (csc_col_ptrs csc) c;
  hi ← rd (csc_col_ptrs csc) (c + 1);
  rows ← slice (csc_row_idxs csc) lo hi;
  Some (map (λ r, (r, c)) rows).

(** The edges a column-compressed matrix stands for, column after column. *)
Definition csc_edges (csc : CSC) : option (list (Z * Z)) :=
  cols ← mapM (csc_col_edges csc) (seqZ 0 (csc_num_cols csc));
  Some (concat cols).

(** ** [bfs_top_down] and [bfs_bottom_up]: the conversion of the partitions *)

(** The conversion of the [uint32_t] unit count of [main] to the [int]
    parameter [num_dpu] of [bfs_top_down], [bfs_bottom_up] and [bfs_edge]
    (lines 1179-1184).  Above [INT_MAX] the result is implementation-defined;
    gcc and clang reduce it modulo 2^32 into the range of [int], which makes
    it negative. *)
Definition int_of_u32 (x : Z) : Z :=
  if decide (x < 2 ^ 31) then x else x - u32_mod.

(** Lines 867-872: [csr[i] = coo_to_csr(coo[i])] for [int i = 0; i < num_dpu],
    where [num_dpu] is the [int] parameter of [bfs_top_down]: a count that is
    not positive gives no iteration and an array without cells.  The cells
    of the fresh [csr] array are unspecified until they are assigned. *)
Definition bfs_top_down_convert (coo : list COO) (num_dpu : Z) : option (list CSR) :=
  for_upto num_dpu (λ i csr,
    c ← part_at coo i;
    r ← coo_to_csr c;
    if decide (0 ≤ i < Z.of_nat (length csr)) then Some (<[Z.to_nat i := r]> csr) else None)
    (replicate (Z.to_nat num_dpu) (mkCSR 0 0 0 [] [])).

(** Lines 965-970: [csc[i] = coo_to_csc(coo[i])] for [int i = 0; i < num_dpu],
    where [num_dpu] is the [int] parameter of [bfs_bottom_up]. *)
Definition bfs_bottom_up_convert (coo : list COO) (num_dpu : Z) : option (list CSC) :=
  for_upto num_dpu (λ i csc,
    c ← part_at coo i;
    r ← coo_to_csc c;
    if decide (0 ≤ i < Z.of_nat (length csc)) then Some (<[Z.to_nat i := r]> csc) else None)
    (replicate (Z.to_nat num_dpu) (mkCSC 0 0 0 [] [])).

(** ** The reports of the units, node by node *)

(** The first node of the block unit [i] reports to, when the product in
    line 593 does not wrap around. *)
Definition block_start (total_nodes len_nl div i : Z) : Z :=
  len_nl * ((i / div) mod (total_nodes / len_nl)).

(** The levels reported for node [c], in the order of the units: unit [i],
    whose array is [levels !! i], reports for the [len_nl] nodes from
    [block_start] on. *)
Definition reports (total_nodes len_nl div : Z) (levels : list (list Z)) (c : Z) : list Z :=
  concat (imap (λ i lv,
                  let off := block_start total_nodes len_nl div (Z.of_nat i) in
                  if decide (off ≤ c < off + len_nl) then [lv !!! Z.to_nat (c - off)] else [])
               levels).

(** ** [print_dpu_cycles] *)

(** Lines 559-564, for the counters [row] of one unit: the running maximum
    [max] is a [uint32_t], compared as a 64-bit value and assigned with a
    truncation. *)
Definition max_tasklet_cycles (row : list Z) : option Z :=
  for_upto NR_TASKLETS (λ t max,
    tasklet_cycles ← rd row t;
    Some (if decide (tasklet_cycles > max) then u32 tasklet_cycles else max)) 0.

(** [print_dpu_cycles(set, dpu)], from line 557 on: [cycles] is the array the
    transfer of line 554 has filled, one row of [NR_TASKLETS] 64-bit counters
    per unit; the result is the line printed. *)
Definition print_dpu_cycles (set : list DPU) (num_dpu : Z) (cycles : list (list Z))
  : option string :=
  max_dpu_cycles ← dpu_foreach set 0 (λ dpu i max_dpu_cycles,
      row ← (if decide (0 ≤ i) then cycles !! Z.to_nat i else None);
      max ← max_tasklet_cycles row;
      wr max_dpu_cycles i max) (malloc num_dpu);
  max_cycles_lvl ← for_upto num_dpu (λ d max_cycles_lvl,
      max_dpu ← rd max_dpu_cycles d;
      Some (if decide (max_dpu > max_cycles_lvl) then max_dpu else max_cycles_lvl)) 0;
  Some (pretty max_cycles_lvl +:+ NL).

(** The largest element of a list of counters, 0 for the empty list. *)
Definition max_cycles (l : list Z) : Z := foldr Z.max 0 l.

(** ** [start_row] and [start_2d]: the union of the next frontiers *)


(** Lines 825-829 of [start_2d]: for every unit [i] that has updated its
    next frontier, [frontier[i * len_nf % len_frontier + c] |=
    nf_tmp[i * len_nf + c]] for every word [c]. *)
Definition start_2d_union (set : list DPU) (len_frontier len_nf : Z)
    (nf_updated nf_tmp frontier : list Z) : option (list Z) :=
  dpu_foreach set 0 (λ dpu i frontier,
    updated ← rd nf_updated i;
    if decide (updated = 1) then
      for_upto len_nf (λ c frontier,
        off ← start_2d_nf_offset len_frontier len_nf i;
        x ← rd nf_tmp (u32 (u32 (i * len_nf) + c));
        y ← rd frontier (u32 (off + c));
        wr frontier (u32 (off + c)) (Z.lor y x)) frontier
    else Some frontier) frontier.

(** The words the units [ds] hold for word [c] of their next frontier. *)
Definition nf_words (len_nf : Z) (nf_tmp : list Z) (ds : list Z) (c : Z) : list Z :=
  (λ d, nf_tmp !!! Z.to_nat (d * len_nf + c)) <$> ds.

(** * Properties *)

(** ** Machine integers and arrays *)

Lemma u32_small x : is_u32 x → u32 x = x.
Proof. unfold is_u32, u32, u32_mod. intros. apply Z.mod_small. lia. Qed.

Lemma wr_Some (a : list Z) i v :
  0 ≤ i < Z.of_nat (length a) → wr a i v = Some (<[Z.to_nat i := v]> a).
Proof. intros. unfold wr. by rewrite decide_True. Qed.

(** ** Loops: invariant rules *)

Lemma for_loop_inv {St : Type} (P : Z → St → Prop) (body : Z → St → option St) k lo s :
  P lo s →
  (∀ i s, lo ≤ i < lo + Z.of_nat k → P i s → ∃ s', body i s = Some s' ∧ P (i + 1) s') →
  ∃ s', for_loop k lo body s = Some s' ∧ P (lo + Z.of_nat k) s'.
Proof.
  revert lo s. induction k as [|k IH]; intros lo s H0 Hstep; simpl.
  - exists s. split; [done|]. by rewrite Z.add_0_r.
  - destruct (Hstep lo s) as (s1 & -> & H1); [lia|done|].
    destruct (IH (lo + 1) s1) as (s2 & Hs2 & H2); [done| |].
    + intros i s' Hi. apply Hstep. lia.
    + exists s2. split; [done|]. by replace (lo + Z.of_nat (S k)) with (lo + 1 + Z.of_nat k) by lia.
Qed.

Lemma for_upto_inv {St : Type} (P : Z → St → Prop) (body : Z → St → option St) n s :
  0 ≤ n → P 0 s →
  (∀ i s, 0 ≤ i < n → P i s → ∃ s', body i s = Some s' ∧ P (i + 1) s') →
  ∃ s', for_upto n body s = Some s' ∧ P n s'.
Proof.
  intros Hn H0 Hstep. unfold for_upto.
  destruct (for_loop_inv P body (Z.to_nat n) 0 s) as (s' & ? & ?); [done| |].
  - intros i s' Hi. apply Hstep. lia.
  - exists s'. split; [done|]. by replace n with (0 + Z.of_nat (Z.to_nat n)) by lia.
Qed.

Lemma for_down_inv {St : Type} (P : Z → St → Prop) (body : Z → St → option St) k s :
  P (Z.of_nat k) s →
  (∀ i s, 0 < i ≤ Z.of_nat k → P i s → ∃ s', body i s = Some s' ∧ P (i - 1) s') →
  ∃ s', for_down k body s = Some s' ∧ P 0 s'.
Proof.
  revert s. induction k as [|k IH]; intros s H0 Hstep; simpl.
  - by exists s.
  - destruct (Hstep (Z.of_nat (S k)) s) as (s1 & -> & H1); [lia|done|].
    apply IH.
    + by replace (Z.of_nat k) with (Z.of_nat (S k) - 1) by lia.
    + intros i s' Hi. apply Hstep. lia.
Qed.

(** ** [nearest_factors] *)

Lemma nearest_factors_loop_spec n (f : nat) :
  0 < n → (1 ≤ f)%nat →
  ∃ r, nearest_factors_loop n f = Some r ∧ 1 ≤ r ≤ Z.of_nat f ∧ n mod r = 0 ∧
       ∀ g, r < g ≤ Z.of_nat f → n mod g ≠ 0.
Proof.
  intros Hn. induction f as [|f IH]; [lia|]. intros _.
  cbn [nearest_factors_loop]. case_decide as Hd.
  - exists (Z.of_nat (S f)). split; [done|]. split; [lia|]. split; [done|]. lia.
  - destruct f as [|f].
    + exfalso. apply Hd. apply Z.mod_1_r.
    + destruct IH as (r & Hr & Hle & Hdiv & Hmax); [lia|].
      exists r. repeat split; try done; try lia.
      intros g Hg. destruct (decide (g = Z.of_nat (S (S f)))) as [->|]; [done|].
      apply Hmax. lia.
Qed.

(** The general contract: the first factor is the largest divisor of [n] not
    above its square root, the second one is its cofactor. *)
Lemma nearest_factors_spec n :
  0 < n →
  ∃ R C, nearest_factors n = Some (R, C) ∧ R * C = n ∧ 1 ≤ R ≤ C ∧
         R ≤ Z.sqrt n ∧ (∀ g, R < g ≤ Z.sqrt n → n mod g ≠ 0) ∧
         ∀ a b, 0 < a ≤ b → a * b = n → a ≤ R ∧ C ≤ b.
Proof.
  intros Hn.
  assert (1 ≤ Z.sqrt n) as Hs.
  { destruct (Z.sqrt_spec n) as [? ?]; [lia|]. nia. }
  destruct (nearest_factors_loop_spec n (Z.to_nat (Z.sqrt n))) as (r & Hr & Hle & Hdiv & Hmax);
    [done|lia|].
  rewrite Z2Nat.id in Hle, Hmax by lia.
  destruct (Z.sqrt_spec n) as [Hlo Hhi]; [lia|].
  assert (r * (n / r) = n) as Hmul.
  { pose proof (Z.div_mod n r). lia. }
  exists r, (n / r). unfold nearest_factors. rewrite Hr.
  assert (r ≤ n / r) as Hrc.
  { apply Z.div_le_lower_bound; nia. }
  split; [done|]. split; [done|]. split; [lia|]. split; [lia|]. split; [done|].
  intros a b [Ha Hab] Hn'.
  assert (a ≤ r) as Har.
  { destruct (decide (a ≤ r)) as [|Hgt]; [done|]. exfalso.
    assert (a ≤ Z.sqrt n) by nia.
    apply (Hmax a); [lia|]. subst n. rewrite Z.mul_comm. apply Z.mod_mul. lia. }
  split; [done|]. apply Z.div_le_upper_bound; [lia|]. nia.
Qed.

(** C7.  For N in {8, 16, 32}, [nearest_factors] returns a factor pair
    (R, C) of N with R <= C that is the closest to the square root of N: no
    other factor pair (a, b) with a <= b has a larger a or a smaller b, and R
    is the first divisor met by the trial division that goes down from
    floor(sqrt N).  N = 8 gives (2, 4) and N = 16 gives (4, 4). *)
Theorem nearest_factors_closest_pair (N : Z) :
  N = 8 ∨ N = 16 ∨ N = 32 →
  ∃ R C, nearest_factors N = Some (R, C) ∧
         R * C = N ∧ 1 ≤ R ≤ C ∧
         (∀ a b, 0 < a ≤ b → a * b = N → a ≤ R ∧ C ≤ b) ∧
         R ≤ Z.sqrt N ∧ (∀ g, R < g ≤ Z.sqrt N → N mod g ≠ 0) ∧
         (N = 8 → (R, C) = (2, 4)) ∧ (N = 16 → (R, C) = (4, 4)) ∧
         (N = 32 → (R, C) = (4, 8)).
Proof.
  intros HN.
  destruct (nearest_factors_spec N) as (R & C & Hnf & Hmul & Hle & Hsq & Hmax & Hclose); [lia|].
  exists R, C. split; [done|]. split; [done|]. split; [done|]. split; [done|].
  split; [done|]. split; [done|].
  repeat split; intros ->; vm_compute in Hnf; congruence.
Qed.

Lemma nearest_factors_closest_pair_witness :
  ∃ R C, nearest_factors 8 = Some (R, C) ∧
         R * C = 8 ∧ 1 ≤ R ≤ C ∧
         (∀ a b, 0 < a ≤ b → a * b = 8 → a ≤ R ∧ C ≤ b) ∧
         R ≤ Z.sqrt 8 ∧ (∀ g, R < g ≤ Z.sqrt 8 → 8 mod g ≠ 0) ∧
         (8 = 8 → (R, C) = (2, 4)) ∧ (8 = 16 → (R, C) = (4, 4)) ∧
         (8 = 32 → (R, C) = (4, 8)).
Proof. apply (nearest_factors_closest_pair 8). left. reflexivity. Defined.

(** ** [load_coo]: padding *)

Lemma next_multiple_least (d x m : Z) :
  0 < d → 0 ≤ x → x ≤ m → (d | m) →
  x ≤ next_multiple d x ≤ m ∧ (d | next_multiple d x).
Proof.
  intros Hd Hx Hm [k ->]. unfold next_multiple.
  pose proof (Z.mod_pos_bound x d Hd) as Hb.
  pose proof (Z.div_mod x d ltac:(lia)) as Hdm.
  case_decide as Hr.
  - split.
    + split; [lia|]. assert (x / d < k) by nia. nia.
    + exists (x / d + 1). lia.
  - split; [lia|]. exists (x / d). lia.
Qed.

Lemma load_coo_pad_next_multiple (N x : Z) :
  0 < N → 0 ≤ x →
  next_multiple 32 (next_multiple N x / N) * N < u32_mod →
  load_coo_pad x N = Some (next_multiple 32 (next_multiple N x / N) * N).
Proof.
  intros HN Hx Hlt. unfold load_coo_pad. rewrite decide_False by lia.
  pose proof (Z.mod_pos_bound x N HN) as Hb.
  assert (x ≤ next_multiple N x) as Hx1.
  { unfold next_multiple. case_decide; lia. }
  assert (∃ c, next_multiple N x = c * N) as [c Hc].
  { unfold next_multiple.
    pose proof (Z.div_mod x N ltac:(lia)).
    case_decide; [exists (x / N + 1)|exists (x / N)]; lia. }
  assert (0 ≤ c) by nia.
  rewrite Hc, Z.div_mul in Hlt by lia.
  pose proof (Z.mod_pos_bound c 32 ltac:(lia)) as Hb'.
  assert (c ≤ next_multiple 32 c) as Hcc.
  { unfold next_multiple. case_decide; lia. }
  assert (is_u32 (next_multiple N x)) as Hu.
  { rewrite Hc. unfold is_u32. nia. }
  set (x1 := if decide (x mod N ≠ 0) then _ else x).
  assert (x1 = next_multiple N x) as ->.
  { unfold x1, next_multiple. case_decide; [|done].
    rewrite (u32_small (N - _)).
    - apply u32_small. unfold next_multiple in Hu. by rewrite decide_True in Hu.
    - unfold is_u32 in *. unfold next_multiple in Hu. rewrite decide_True in Hu by done. lia. }
  rewrite Hc, Z.div_mul by lia.
  unfold next_multiple. case_decide as Hr.
  - f_equal. unfold next_multiple in Hlt, Hcc. rewrite decide_True in Hlt, Hcc by done.
    assert (is_u32 (c + (32 - c mod 32))) by (unfold is_u32; nia).
    rewrite (u32_small (32 - _)) by (unfold is_u32 in *; lia).
    rewrite (u32_small (c + _)) by done.
    apply u32_small. unfold is_u32. nia.
  - done.
Qed.

(** C3, the part that holds.  When some multiple of 32 * N not below the
    node count fits in 32 bits, [load_coo] pads the node count to the least
    count that is a multiple of N whose per-unit chunk is a multiple of 32
    (the least multiple of 32 * N); that count is divisible by N and by 32,
    and the padding is the difference. *)
Theorem load_coo_pad_least_chunk_padding (N x m0 : Z) :
  0 < N → 0 ≤ x ≤ m0 → m0 < u32_mod → (32 * N | m0) →
  ∃ p, load_coo_pad x N = Some p ∧ p ≤ m0 ∧
       (N | p) ∧ (32 | p) ∧ least_chunk_padding N x p ∧
       load_coo_padding x N = Some (p - x).
Proof.
  intros HN Hx Hm0 Hdiv.
  set (c := next_multiple N x / N).
  set (p := next_multiple 32 c * N).
  assert (∀ m, x ≤ m → (32 * N | m) → x ≤ p ≤ m ∧ (32 | next_multiple 32 c) ∧
            next_multiple N x = c * N ∧ 0 ≤ c) as Hleast.
  { intros m Hm [k ->].
    destruct (next_multiple_least N x (k * (32 * N))) as ([Hx1 Hx1m] & [c' Hc]);
      [lia..|by exists (k * 32); lia|].
    assert (c = c') as <-. { unfold c. rewrite Hc. apply Z.div_mul. lia. }
    assert (0 ≤ c) by nia.
    destruct (next_multiple_least 32 c (32 * k)) as ([Hc1 Hc1m] & Hd);
      [lia| lia | nia | by exists k; lia |].
    unfold p. split; [nia|done]. }
  destruct (Hleast m0) as ([Hxp Hpm] & [d Hd] & Hc & Hc0); [lia|done|].
  assert (load_coo_pad x N = Some p) as Hpad.
  { apply load_coo_pad_next_multiple; [lia..|]. fold c p. lia. }
  exists p. split; [done|]. split; [done|].
  assert (N | p) as HNp by (by exists (next_multiple 32 c)).
  assert (32 | p) as H32p by (exists (d * N); unfold p; rewrite Hd; lia).
  split; [done|]. split; [done|]. split.
  - split; [done|]. split; [done|]. split.
    + unfold p. rewrite Z.div_mul by lia. by exists d.
    + intros m Hm [a ->] [b Hb]. rewrite Z.div_mul in Hb by lia. subst a.
      apply (Hleast (b * 32 * N)); [done|]. exists b. lia.
  - unfold load_coo_padding. rewrite Hpad. f_equal. apply u32_small.
    unfold is_u32. lia.
Qed.

Lemma load_coo_pad_least_chunk_padding_witness :
  ∃ p, load_coo_pad 300 8 = Some p ∧ p ≤ 512 ∧
       (8 | p) ∧ (32 | p) ∧ least_chunk_padding 8 300 p ∧
       load_coo_padding 300 8 = Some (p - 300).
Proof.
  apply (load_coo_pad_least_chunk_padding 8 300 512).
  - lia.
  - lia.
  - reflexivity.
  - exists 2. reflexivity.
Defined.

(** C3 as stated fails: 32 nodes on 8 units are padded to 256, although 32
    is already divisible by 8 and by 32. *)
Lemma load_coo_pad_not_least_common_padding :
  load_coo_pad 32 8 = Some 256 ∧ ¬ least_common_padding 8 32 256.
Proof.
  split; [reflexivity|].
  intros (_ & _ & _ & Hmin).
  specialize (Hmin 32). 
  assert (256 ≤ 32); [|lia].
  apply Hmin; [lia|by exists 4|by exists 1].
Qed.

(** ** [dpu_insert_mram_array_u32]: the bump pointer *)

Lemma insert_size_u32 L : is_u32 L → insert_size L = 4 * L + (4 * L) mod 8.
Proof.
  unfold insert_size, usize, is_u32, u32_mod. intros HL.
  replace (L * 4) with (4 * L) by lia.
  pose proof (Z.mod_pos_bound (4 * L) 8 ltac:(lia)).
  rewrite (Z.mod_small (4 * L)) by lia. apply Z.mod_small. lia.
Qed.

Lemma mod8_of_mod_pow2 (x k : Z) : 3 ≤ k → (x mod 2 ^ k) mod 8 = x mod 8.
Proof.
  intros Hk. apply Z.mod_mod_divide.
  exists (2 ^ (k - 3)). replace 8 with (2 ^ 3) by reflexivity.
  rewrite <- Z.pow_add_r by lia. f_equal. lia.
Qed.

Lemma insert_size_aligned L : insert_size L mod 8 = 0.
Proof.
  unfold insert_size, usize.
  rewrite mod8_of_mod_pow2 by lia.
  set (s := (L * 4) mod 2 ^ 64).
  assert (s mod 8 = 4 * (L mod 2)) as Hs.
  { unfold s. rewrite mod8_of_mod_pow2 by lia.
    replace (L * 4) with (4 * L) by lia. apply (Z.mul_mod_distr_l L 2 4); lia. }
  rewrite Zplus_mod, Zmod_mod, Hs.
  pose proof (Z.mod_pos_bound L 2 ltac:(lia)).
  assert (L mod 2 = 0 ∨ L mod 2 = 1) as [-> | ->] by lia; reflexivity.
Qed.

Lemma mram_addr_aligned bits p size :
  3 ≤ bits → (8 | p) → size mod 8 = 0 → (8 | mram_addr bits (p + size)).
Proof.
  intros Hb [k ->] Hs. apply Z.mod_divide; [lia|].
  unfold mram_addr. rewrite mod8_of_mod_pow2 by done.
  rewrite Zplus_mod, Z.mod_mul, Hs by lia. reflexivity.
Qed.

Lemma dpu_copy_to_Some dpu name v :
  is_Some (dpu_wram dpu !! name) →
  dpu_copy_to dpu name v = Some (mkDPU (<[name := v]> (dpu_wram dpu)) (dpu_mram dpu)).
Proof. intros [w Hw]. unfold dpu_copy_to. by rewrite Hw. Qed.

Lemma host_words_Some (src : list Z) slack L :
  is_u32 L → Z.of_nat (length src) = L →
  is_Some (host_words src slack (insert_size L / 4)).
Proof.
  intros HL Hlen. rewrite insert_size_u32 by done.
  assert ((4 * L) mod 8 = 4 * (L mod 2)) as -> by (apply (Z.mul_mod_distr_l L 2 4); lia).
  replace (4 * L + 4 * (L mod 2)) with ((L + L mod 2) * 4) by lia.
  rewrite Z.div_mul by lia.
  pose proof (Z.mod_pos_bound L 2 ltac:(lia)).
  unfold host_words. repeat case_decide; eauto. lia.
Qed.

(** One insertion: it succeeds, moves the pointer by [insert_size], and
    leaves the set of symbols as it was. *)
Lemma dpu_insert_mram_array_u32_spec bits dpu name src L slack p :
  dpu_copy_from dpu "p_used_mram_end" = Some p →
  insert_ok dpu (name, src, L, slack) →
  ∃ dpu', dpu_insert_mram_array_u32 bits dpu name src L slack = Some dpu' ∧
          dpu_copy_from dpu' "p_used_mram_end" = Some (mram_addr bits (p + insert_size L)) ∧
          ∀ s, is_Some (dpu_wram dpu' !! s) ↔ is_Some (dpu_wram dpu !! s).
Proof.
  intros Hp (Hname & HL & Hsrc). simpl in *.
  unfold dpu_insert_mram_array_u32. rewrite Hp. simpl.
  rewrite dpu_copy_to_Some by done. simpl.
  destruct (host_words_Some (match src with Some a => a | None => calloc L end) slack L)
    as [ws ->]; [done| |].
  { destruct src; [done|]. unfold calloc. rewrite length_replicate. unfold is_u32 in HL. lia. }
  simpl. unfold dpu_copy_from in Hp.
  rewrite dpu_copy_to_Some.
  - eexists. split; [done|]. split.
    + unfold dpu_copy_from. simpl. apply lookup_insert_eq.
    + intros s. simpl. rewrite !lookup_insert_is_Some'.
      split; [|tauto]. intros [<-|[<-|?]]; eauto.
  - simpl. rewrite lookup_insert_is_Some'. right. eauto.
Qed.

Lemma dpu_insert_all_aligned bits dpu ops p :
  3 ≤ bits →
  dpu_copy_from dpu "p_used_mram_end" = Some p → (8 | p) →
  Forall (insert_ok dpu) ops →
  ∃ dpu' p', dpu_insert_all bits dpu ops = Some dpu' ∧
             dpu_copy_from dpu' "p_used_mram_end" = Some p' ∧ (8 | p').
Proof.
  intros Hb. revert dpu p. induction ops as [|[[[name src] L] slack] ops IH];
    intros dpu p Hp Hal Hok.
  - exists dpu, p. done.
  - apply Forall_cons in Hok as [Hop Hok].
    destruct (dpu_insert_mram_array_u32_spec bits dpu name src L slack p Hp Hop)
      as (dpu1 & Hins & Hp1 & Hdom).
    cbn [dpu_insert_all]. rewrite Hins. simpl.
    apply (IH dpu1 _ Hp1).
    + apply mram_addr_aligned; [done..|apply insert_size_aligned].
    + eapply Forall_impl; [exact Hok|].
      intros op (? & ? & ?). split; [|done]. by apply Hdom.
Qed.

(** C10.  The byte size by which [dpu_insert_mram_array_u32] advances the
    pointer, 4*L + ((4*L) mod 8), is a multiple of 8 for every array length
    L; hence one insertion takes an 8-byte aligned [p_used_mram_end] to an
    8-byte aligned one, and so does every sequence of insertions. *)
Theorem dpu_insert_keeps_mram_end_aligned (bits : Z) :
  3 ≤ bits →
  (∀ L, is_u32 L → insert_size L = 4 * L + (4 * L) mod 8 ∧ (8 | insert_size L)) ∧
  (∀ dpu name src L slack p,
     dpu_copy_from dpu "p_used_mram_end" = Some p → (8 | p) →
     insert_ok dpu (name, src, L, slack) →
     ∃ dpu' p', dpu_insert_mram_array_u32 bits dpu name src L slack = Some dpu' ∧
                dpu_copy_from dpu' "p_used_mram_end" = Some p' ∧
                p' = mram_addr bits (p + insert_size L) ∧ (8 | p')) ∧
  (∀ dpu ops p,
     dpu_copy_from dpu "p_used_mram_end" = Some p → (8 | p) →
     Forall (insert_ok dpu) ops →
     ∃ dpu' p', dpu_insert_all bits dpu ops = Some dpu' ∧
                dpu_copy_from dpu' "p_used_mram_end" = Some p' ∧ (8 | p')).
Proof.
  intros Hb. split; [|split].
  - intros L HL. split; [by apply insert_size_u32|].
    apply Z.mod_divide; [lia|apply insert_size_aligned].
  - intros dpu name src L slack p Hp Hal Hok.
    destruct (dpu_insert_mram_array_u32_spec bits dpu name src L slack p Hp Hok)
      as (dpu' & Hins & Hp' & _).
    exists dpu', (mram_addr bits (p + insert_size L)).
    split; [done|]. split; [done|]. split; [done|].
    apply mram_addr_aligned; [done..|apply insert_size_aligned].
  - intros dpu ops p. by apply dpu_insert_all_aligned.
Qed.

Lemma dpu_insert_keeps_mram_end_aligned_witness :
  (∀ L, is_u32 L → insert_size L = 4 * L + (4 * L) mod 8 ∧ (8 | insert_size L)) ∧
  (∀ dpu name src L slack p,
     dpu_copy_from dpu "p_used_mram_end" = Some p → (8 | p) →
     insert_ok dpu (name, src, L, slack) →
     ∃ dpu' p', dpu_insert_mram_array_u32 32 dpu name src L slack = Some dpu' ∧
                dpu_copy_from dpu' "p_used_mram_end" = Some p' ∧
                p' = mram_addr 32 (p + insert_size L) ∧ (8 | p')) ∧
  (∀ dpu ops p,
     dpu_copy_from dpu "p_used_mram_end" = Some p → (8 | p) →
     Forall (insert_ok dpu) ops →
     ∃ dpu' p', dpu_insert_all 32 dpu ops = Some dpu' ∧
                dpu_copy_from dpu' "p_used_mram_end" = Some p' ∧ (8 | p')).
Proof. apply (dpu_insert_keeps_mram_end_aligned 32). lia. Defined.

(** ** [print_node_levels]: the destination index *)

Lemma nreal_index_spec total_nodes len_nl div i n :
  0 < len_nl → (len_nl | total_nodes) → 0 < total_nodes < u32_mod →
  0 < div → 0 ≤ i → 0 ≤ n < len_nl → i / div * len_nl < u32_mod →
  ∃ t, total_nodes = len_nl * t ∧
       nreal_index total_nodes len_nl div i n = Some (n + len_nl * ((i / div) mod t)) ∧
       0 ≤ n + len_nl * ((i / div) mod t) < total_nodes.
Proof.
  intros Hlen [t Ht] Htot Hdiv Hi Hn Hov.
  assert (0 < t) by nia.
  assert (0 ≤ i / div) by (apply Z.div_pos; lia).
  pose proof (Z.mod_pos_bound (i / div) t ltac:(lia)) as Hb.
  exists t. split; [lia|].
  unfold nreal_index, udiv, umod. rewrite decide_False by lia. simpl.
  rewrite decide_False by lia. simpl.
  rewrite (u32_small (_ * _)) by (unfold is_u32; nia).
  assert ((i / div * len_nl) mod total_nodes = len_nl * ((i / div) mod t)) as ->.
  { rewrite Ht, (Z.mul_comm t), (Z.mul_comm _ len_nl).
    apply Z.mul_mod_distr_l; lia. }
  split; [|nia].
  f_equal. apply u32_small. unfold is_u32. nia.
Qed.

Lemma merge_unit_in_bounds total_nodes len_nl div i (nl_tmp node_levels : list Z) :
  0 < len_nl → (len_nl | total_nodes) → 0 < total_nodes < u32_mod →
  0 < div → 0 ≤ i → i / div * len_nl < u32_mod →
  Z.of_nat (length nl_tmp) = len_nl → Z.of_nat (length node_levels) = total_nodes →
  ∃ node_levels', merge_unit total_nodes len_nl div i nl_tmp node_levels = Some node_levels' ∧
                  Z.of_nat (length node_levels') = total_nodes.
Proof.
  intros Hlen Hd Htot Hdiv Hi Hov Hnl Hlv. unfold merge_unit.
  apply (for_upto_inv (λ _ a, Z.of_nat (length a) = total_nodes)); [lia|done|].
  intros n a Hn Ha.
  destruct (nreal_index_spec total_nodes len_nl div i n) as (t & _ & -> & Hr); [done..|].
  simpl. set (r := n + _) in *.
  destruct (lookup_lt_is_Some_2 a (Z.to_nat r)) as [cur Hcur]; [lia|].
  destruct (lookup_lt_is_Some_2 nl_tmp (Z.to_nat n)) as [v Hv]; [lia|].
  unfold rd. rewrite !decide_True by lia. rewrite Hcur, Hv. simpl.
  rewrite wr_Some by lia. eexists. split; [done|]. by rewrite length_insert.
Qed.

Lemma length_dpu_copy_from_mram dpu addr len :
  length (dpu_copy_from_mram dpu addr len) = Z.to_nat len.
Proof. unfold dpu_copy_from_mram. by rewrite length_fmap, length_seqZ. Qed.

Lemma dpu_foreach_inv {St : Type} (P : Z → St → Prop) (body : DPU → Z → St → option St)
    (set : list DPU) lo s :
  P lo s →
  (∀ (k : nat) dpu s, set !! k = Some dpu → P (lo + Z.of_nat k) s →
     ∃ s', body dpu (lo + Z.of_nat k) s = Some s' ∧ P (lo + Z.of_nat k + 1) s') →
  ∃ s', dpu_foreach set lo body s = Some s' ∧ P (lo + Z.of_nat (length set)) s'.
Proof.
  revert lo s. induction set as [|dpu set IH]; intros lo s H0 Hstep; simpl.
  - exists s. by rewrite Z.add_0_r.
  - destruct (Hstep 0%nat dpu s) as (s1 & Hs1 & H1); [done|by rewrite Z.add_0_r|].
    rewrite Z.add_0_r in Hs1, H1. rewrite Hs1.
    destruct (IH (lo + 1) s1) as (s2 & Hs2 & H2); [done| |].
    + intros k d s' Hk HP.
      replace (lo + 1 + Z.of_nat k) with (lo + Z.of_nat (S k)) in * by lia.
      by apply Hstep.
    + exists s2. split; [done|].
      by replace (lo + Z.of_nat (S (length set))) with (lo + 1 + Z.of_nat (length set)) by lia.
Qed.

(** C9 fails in the code: the index of line 593 leaves the array.  With 2560
    units, a graph padded to 2457600 nodes and the bottom-up kernel on row
    partitions, [print_node_levels] is called with total_nodes = len_nl =
    2457600 and div = 1, so len_nl divides total_nodes and both are
    positive.  For unit 1748 the 32-bit product 1748 * 2457600 wraps around
    before [% total_nodes] is taken, and entry 1540096 is sent to index
    2457600, which is not below total_nodes: the access [node_levels[nreal]]
    of line 594 is one past the end of the array of total_nodes cells. *)
Lemma nreal_index_wraps_out_of_bounds :
  load_coo_pad 2457600 2560 = Some 2457600 ∧
  bfs_metadata BottomUp Row (2457600 / 2560) 2457600 2560 = Some (2457600, 2457600, 1) ∧
  0 < 2457600 ∧ (2457600 | 2457600) ∧ 0 ≤ 1748 < 2560 ∧ 0 ≤ 1540096 < 2457600 ∧
  nreal_index 2457600 2457600 1 1748 1540096 = Some 2457600 ∧
  ¬ (2457600 < 2457600) ∧
  ∀ node_levels : list Z,
    Z.of_nat (length node_levels) = 2457600 → rd node_levels 2457600 = None.
Proof.
  split; [reflexivity|]. split; [reflexivity|]. split; [lia|].
  split; [by exists 1|]. split; [lia|]. split; [lia|]. split; [reflexivity|].
  split; [lia|].
  intros node_levels Hlen. unfold rd. rewrite decide_True by lia.
  apply lookup_ge_None_2. lia.
Qed.

(** ** [parse_args]: the unit count *)

Lemma parse_opt_n_not_multiple optarg a is_prt_set :
  u32 (atoi optarg) mod 8 ≠ 0 →
  parse_opt "n" optarg a is_prt_set
  = ([Log ERROR "Number of DPUs must be a multiple of 8."], None).
Proof.
  intros H. unfold parse_opt. rewrite decide_True by done.
  rewrite bool_decide_eq_true_2 by done. reflexivity.
Qed.

Lemma parse_opt_n_multiple optarg a is_prt_set :
  u32 (atoi optarg) mod 8 = 0 →
  parse_opt "n" optarg a is_prt_set
  = ([], Some (mkArgs (u32 (atoi optarg)) (alg a) (prt a) (bin_path a) (file a) (out_file a),
               is_prt_set)).
Proof.
  intros H. unfold parse_opt. rewrite decide_True by done.
  rewrite bool_decide_eq_false_2 by (intros ?; done). reflexivity.
Qed.

(** C2, at the failing input.  [-n 0], and [-n] with a text [atoi] reads as
    0, pass the check of [parse_args]: no error is logged, the process does
    not exit, and [main] goes on to allocate 0 units. *)
Theorem main_startup_allocates_zero_units :
  atoi "0" = 0 ∧ atoi "eight" = 0 ∧
  main_startup [("n"%char, "0")] ["graph.txt"]
  = [OpenOutput "/dev/null";
     Log INFO "Allocating 0 DPUs, 11 tasklets each. Using 32 bytes blocks for MRAM DMA.";
     DpuAlloc 0; DpuLoad None] ∧
  main_startup [("n"%char, "eight")] ["graph.txt"]
  = main_startup [("n"%char, "0")] ["graph.txt"] ∧
  main_startup [("n"%char, "12")] ["graph.txt"]
  = [Log ERROR "Number of DPUs must be a multiple of 8."; ExitProcess 1].
Proof. repeat split; reflexivity. Qed.

(** ** [print_node_levels]: the merge of overlapping reports *)

(** A report of 0 replaces whatever level the cell holds. *)
Lemma merge_level_zero cur : 0 ≤ cur → merge_level cur 0 = 0.
Proof. intros H. unfold merge_level. case_decide; lia. Qed.

(** C1, at the failing input.  Two units report {3, 0} and {0, 2} for the same
    two nodes: the merge yields {0, 2}, and {3, 0} when the units are visited
    in the other order, where the least non-zero reports are 3 and 2.  The
    same happens on a 2 x 4 grid of 8 units (256 nodes, 128 per grid row):
    unit 0 reports level 1 for node 1, the other units of its grid row report
    0, and the merged level of node 1 is 0. *)
Theorem merge_node_levels_zero_report_wins :
  (a ← dpu_with_levels [3; 0]; b ← dpu_with_levels [0; 2];
   merge_node_levels [a; b] 2 2 1) = Some [0; 2] ∧
  (a ← dpu_with_levels [3; 0]; b ← dpu_with_levels [0; 2];
   merge_node_levels [b; a] 2 2 1) = Some [3; 0] ∧
  (a ← dpu_with_levels [3; 0]; b ← dpu_with_levels [0; 2];
   print_node_levels [a; b] 2 2 1)
  = Some ("node" +:+ TAB +:+ "level" +:+ NL +:+ "0" +:+ TAB +:+ "0" +:+ NL
          +:+ "1" +:+ TAB +:+ "2" +:+ NL) ∧
  min_nonzero [3; 0] = 3 ∧ min_nonzero [0; 2] = 2 ∧
  bfs_metadata TopDown _2D 128 64 8 = Some (256, 128, 4) ∧
  (a ← dpu_with_levels (<[1%nat := 1]> (replicate 128 0));
   z ← dpu_with_levels (replicate 128 0);
   m ← merge_node_levels [a; z; z; z; z; z; z; z] 256 128 4;
   m !! 1%nat) = Some 0 ∧
  min_nonzero [1; 0; 0; 0] = 1.
Proof. repeat split; vm_compute; reflexivity. Qed.

(** ** [print_node_levels]: the output *)

Lemma string_app_cons a s t : String a s +:+ t = String a (s +:+ t).
Proof. reflexivity. Qed.

Lemma string_app_assoc (s t u : string) : (s +:+ t) +:+ u = s +:+ (t +:+ u).
Proof.
  induction s as [|a s IH]; [reflexivity|].
  by rewrite !string_app_cons, IH.
Qed.

Lemma string_app_nil_r (s : string) : s +:+ "" = s.
Proof. induction s as [|a s IH]; [reflexivity|]. by rewrite string_app_cons, IH. Qed.

Lemma text_of_lines_app l1 l2 :
  text_of_lines (l1 ++ l2) = text_of_lines l1 +:+ text_of_lines l2.
Proof.
  induction l1 as [|s l1 IH]; [reflexivity|].
  simpl. by rewrite IH, string_app_assoc.
Qed.

Lemma for_loop_preserves {St : Type} (P : St → Prop) (body : Z → St → option St) k lo s s' :
  (∀ i s s', body i s = Some s' → P s → P s') →
  P s → for_loop k lo body s = Some s' → P s'.
Proof.
  intros Hstep. revert lo s. induction k as [|k IH]; intros lo s Hs; simpl.
  - by intros [= <-].
  - destruct (body lo s) as [s1|] eqn:Hb; [|done]. eauto.
Qed.

Lemma dpu_foreach_preserves {St : Type} (P : St → Prop) (body : DPU → Z → St → option St)
    set lo s s' :
  (∀ dpu i s s', body dpu i s = Some s' → P s → P s') →
  P s → dpu_foreach set lo body s = Some s' → P s'.
Proof.
  intros Hstep. revert lo s. induction set as [|dpu set IH]; intros lo s Hs; simpl.
  - by intros [= <-].
  - destruct (body dpu lo s) as [s1|] eqn:Hb; [|done]. eauto.
Qed.

Lemma wr_length (a a' : list Z) i v : wr a i v = Some a' → length a' = length a.
Proof. unfold wr. case_decide; [|done]. intros [= <-]. apply length_insert. Qed.

Lemma merge_node_levels_length set total_nodes len_nl div node_levels :
  merge_node_levels set total_nodes len_nl div = Some node_levels →
  length node_levels = Z.to_nat total_nodes.
Proof.
  unfold merge_node_levels. intros Hm.
  eapply (dpu_foreach_preserves (λ a : list Z, length a = Z.to_nat total_nodes));
    [| |exact Hm].
  - intros dpu i a a' Hbody Ha.
    cbv beta in Hbody.
    destruct (dpu_get_mram_array_u32 dpu "node_levels" len_nl) as [nl_tmp|];
      simpl in Hbody; [|done]. unfold merge_unit, for_upto in Hbody.
    eapply (for_loop_preserves (λ b : list Z, length b = Z.to_nat total_nodes));
      [|exact Ha|exact Hbody].
    intros n b b' Hb Hlen.
    cbv beta in Hb.
    destruct (nreal_index total_nodes len_nl div i n) as [r|]; simpl in Hb; [|done].
    destruct (rd b r) as [cur|]; simpl in Hb; [|done].
    destruct (rd nl_tmp n) as [v|]; simpl in Hb; [|done].
    apply wr_length in Hb. congruence.
  - unfold calloc. apply length_replicate.
Qed.

Lemma print_levels_spec total_nodes (node_levels : list Z) out :
  length node_levels = Z.to_nat total_nodes →
  print_levels total_nodes node_levels out
  = Some (out +:+ text_of_lines
            ((λ node, level_line node (node_levels !!! Z.to_nat node))
               <$> filter (emitted node_levels) (seqZ 0 total_nodes))).
Proof.
  intros Hlen. destruct (decide (0 ≤ total_nodes)) as [Hn|Hn].
  - unfold print_levels.
    destruct (for_upto_inv
      (λ i o, o = out +:+ text_of_lines
                 ((λ node, level_line node (node_levels !!! Z.to_nat node))
                    <$> filter (emitted node_levels) (seqZ 0 i)))
      (λ node out,
         level ← rd node_levels node;
         if decide (node ≠ 0 ∧ level = 0) then Some out
         else Some (out +:+ level_line node level))
      total_nodes out Hn) as (o & -> & ->); [| |done].
    + simpl. by rewrite string_app_nil_r.
    + intros i o Hi ->.
      destruct (lookup_lt_is_Some_2 node_levels (Z.to_nat i)) as [v Hv]; [lia|].
      unfold rd. rewrite decide_True by lia. rewrite Hv. simpl.
      rewrite (seqZ_app 0 i 1), filter_app, fmap_app, text_of_lines_app by lia.
      change (seqZ (0 + i) 1) with [0 + i]. rewrite Z.add_0_l.
      assert (emitted node_levels i ↔ ¬ (i ≠ 0 ∧ v = 0)) as Hem.
      { unfold emitted. rewrite (list_lookup_total_correct _ _ _ Hv). 
        destruct (decide (i = 0)), (decide (v = 0)); tauto. }
      case_decide as Hd.
      * rewrite filter_cons_False by tauto. eexists. split; [done|].
        simpl. by rewrite string_app_nil_r.
      * rewrite filter_cons_True by tauto. eexists. split; [done|].
        simpl. rewrite string_app_nil_r, string_app_assoc.
        by rewrite (list_lookup_total_correct _ _ _ Hv).
  - unfold print_levels, for_upto.
    rewrite seqZ_nil by lia. replace (Z.to_nat total_nodes) with 0%nat by lia.
    simpl. by rewrite string_app_nil_r.
Qed.

Lemma seqZ_sorted m n : StronglySorted Z.lt (seqZ m n).
Proof.
  destruct (decide (0 ≤ n)) as [Hn|Hn]; [|rewrite seqZ_nil by lia; constructor].
  rewrite <- (Z2Nat.id n Hn). generalize (Z.to_nat n). clear. intros k.
  induction k as [|k IH]; [constructor|].
  rewrite seqZ_S. apply StronglySorted_app_2; [|done|repeat constructor].
  intros x y Hx Hy. apply elem_of_seqZ in Hx. apply list_elem_of_singleton in Hy. lia.
Qed.

Lemma filter_sorted (P : Z → Prop) `{!∀ x, Decision (P x)} (l : list Z) :
  StronglySorted Z.lt l → StronglySorted Z.lt (filter P l).
Proof.
  induction 1 as [|x l Hl IH Hx]; [constructor|].
  rewrite filter_cons. case_decide; [|done].
  constructor; [done|]. apply Forall_forall. intros y Hy.
  apply list_elem_of_filter in Hy as [_ Hy]. rewrite Forall_forall in Hx. auto.
Qed.

(** C8.  The text [print_node_levels] writes is the header line
    node<TAB>level followed by one line <node_id><TAB><level> for each
    emitted node, in ascending order of node id; the emitted nodes are
    exactly the nodes below total_nodes that are node 0 or have a merged
    level other than 0. *)
Theorem print_node_levels_output (set : list DPU) (total_nodes len_nl div : Z)
    (node_levels : list Z) :
  merge_node_levels set total_nodes len_nl div = Some node_levels →
  ∃ nodes,
    print_node_levels set total_nodes len_nl div
    = Some (("node" +:+ TAB +:+ "level" +:+ NL)
            +:+ text_of_lines
                  ((λ node, pretty node +:+ TAB
                            +:+ pretty (node_levels !!! Z.to_nat node) +:+ NL)
                     <$> nodes)) ∧
    StronglySorted Z.lt nodes ∧
    (∀ node, node ∈ nodes ↔
             0 ≤ node < total_nodes ∧ (node = 0 ∨ node_levels !!! Z.to_nat node ≠ 0)) ∧
    (0 < total_nodes → ∃ rest, nodes = 0 :: rest).
Proof.
  intros Hm. pose proof (merge_node_levels_length _ _ _ _ _ Hm) as Hlen.
  exists (filter (emitted node_levels) (seqZ 0 total_nodes)).
  split; [|split; [|split]].
  - unfold print_node_levels. rewrite Hm. simpl.
    by rewrite print_levels_spec.
  - apply filter_sorted, seqZ_sorted.
  - intros node. rewrite list_elem_of_filter, elem_of_seqZ. unfold emitted. lia.
  - intros Htot. rewrite seqZ_cons by done. rewrite filter_cons_True by (by left). eauto.
Qed.

Lemma print_node_levels_output_witness :
  ∃ nodes,
    print_node_levels [mkDPU {[ "node_levels" := 0 ]} (λ a, a)] 3 3 1
    = Some (("node" +:+ TAB +:+ "level" +:+ NL)
            +:+ text_of_lines
                  ((λ node, pretty node +:+ TAB
                            +:+ pretty ([0; 4; 8] !!! Z.to_nat node) +:+ NL)
                     <$> nodes)) ∧
    StronglySorted Z.lt nodes ∧
    (∀ node, node ∈ nodes ↔
             0 ≤ node < 3 ∧ (node = 0 ∨ [0; 4; 8] !!! Z.to_nat node ≠ 0)) ∧
    (0 < 3 → ∃ rest, nodes = 0 :: rest).
Proof.
  apply (print_node_levels_output [mkDPU {[ "node_levels" := 0 ]} (λ a, a)] 3 3 1 [0; 4; 8]).
  reflexivity.
Defined.

(** ** Tables *)

Section tab.
Context {A : Type}.
Implicit Types (a : list A) (f g : nat → A).

Lemma tab_lookup a n f j : tab a n f → (j < n)%nat → a !! j = Some (f j).
Proof. intros [_ H]. apply H. Qed.

Lemma tab_length a n f : tab a n f → length a = n.
Proof. by intros [H _]. Qed.

Lemma tab_ext a n f g : tab a n f → (∀ j, (j < n)%nat → f j = g j) → tab a n g.
Proof. intros [Hl H] Hfg. split; [done|]. intros j Hj. rewrite <- Hfg by done. auto. Qed.

Lemma tab_insert a n f j v :
  tab a n f → (j < n)%nat → tab (<[j := v]> a) n (λ x, if decide (x = j) then v else f x).
Proof.
  intros [Hl H] Hj. split; [by rewrite length_insert|]. intros x Hx.
  case_decide as Hd.
  - subst x. apply list_lookup_insert_eq. lia.
  - rewrite list_lookup_insert_ne by done. auto.
Qed.

Lemma tab_replicate n (x : A) : tab (replicate n x) n (λ _, x).
Proof. split; [apply length_replicate|]. intros j Hj. by apply lookup_replicate_2. Qed.

End tab.

(** ** Buckets *)

Section buckets.
Context {A : Type} (key : A → Z) (l : list A).
Implicit Types (r : Z) (k : nat).

Lemma bucket_S r k e :
  l !! k = Some e →
  bucket key l r (S k) = bucket key l r k ++ (if decide (key e = r) then [e] else []).
Proof.
  intros He. unfold bucket. rewrite (take_S_r _ _ _ He), filter_app.
  f_equal.
Qed.

Lemma cnt_S r k e :
  l !! k = Some e →
  cnt key l r (S k) = (cnt key l r k + (if decide (key e = r) then 1 else 0))%nat.
Proof.
  intros He. unfold cnt. rewrite (bucket_S _ _ _ He), length_app.
  by case_decide.
Qed.

Lemma cnt_mono r k k' : (k ≤ k')%nat → (cnt key l r k ≤ cnt key l r k')%nat.
Proof.
  intros Hk. unfold cnt, bucket.
  replace k' with (k + (k' - k))%nat by lia.
  rewrite <- take_take_drop, filter_app, length_app. lia.
Qed.

Lemma bucket_all r k : (length l ≤ k)%nat → bucket key l r k = filter (λ e, key e = r) l.
Proof. intros Hk. unfold bucket. by rewrite take_ge. Qed.

Lemma cnt_lt_total r k e :
  l !! k = Some e → key e = r → (cnt key l r k < cnt key l r (length l))%nat.
Proof.
  intros He Hr. pose proof (lookup_lt_Some _ _ _ He).
  pose proof (cnt_mono r (S k) (length l) ltac:(lia)) as Hm.
  rewrite (cnt_S _ _ _ He), decide_True in Hm by done. lia.
Qed.

Lemma cnt_le_length r k : (cnt key l r k ≤ length l)%nat.
Proof.
  unfold cnt, bucket. etrans; [apply length_filter|].
  rewrite length_take. lia.
Qed.

Lemma below_S r : below key l (r + 1) = (below key l r + cnt key l r (length l))%nat.
Proof.
  unfold below, cnt. rewrite bucket_all by done.
  induction l as [|e l' IH]; [done|].
  rewrite !filter_cons. repeat case_decide; simpl; lia.
Qed.

Lemma below_mono r r' : r ≤ r' → (below key l r ≤ below key l r')%nat.
Proof.
  intros Hr. unfold below. induction l as [|e l' IH]; [done|].
  rewrite !filter_cons. repeat case_decide; simpl; lia.
Qed.

Lemma below_le_length r : (below key l r ≤ length l)%nat.
Proof. apply length_filter. Qed.

Lemma below_none r : Forall (λ e, r ≤ key e) l → below key l r = 0%nat.
Proof.
  unfold below. induction 1 as [|e l' He _ IH]; [done|].
  rewrite filter_cons, decide_False by lia. done.
Qed.

Lemma below_all r : Forall (λ e, key e < r) l → below key l r = length l.
Proof.
  unfold below. induction 1 as [|e l' He _ IH]; [done|].
  rewrite filter_cons, decide_True by lia. simpl. by rewrite IH.
Qed.

Lemma pos_lt k e :
  l !! k = Some e →
  (below key l (key e) ≤ pos key l k < below key l (key e + 1))%nat.
Proof.
  intros He. unfold pos. rewrite He, below_S.
  pose proof (cnt_lt_total (key e) k e He eq_refl). lia.
Qed.

Lemma pos_lt_length k : (k < length l)%nat → (pos key l k < length l)%nat.
Proof.
  intros Hk. destruct (lookup_lt_is_Some_2 l k Hk) as [e He].
  pose proof (pos_lt k e He). pose proof (below_le_length (key e + 1)). lia.
Qed.

Lemma pos_ne k k' e e' :
  l !! k = Some e → l !! k' = Some e' → (k < k')%nat → pos key l k ≠ pos key l k'.
Proof.
  intros He He' Hk.
  pose proof (pos_lt k e He) as H1. pose proof (pos_lt k' e' He') as H2.
  destruct (Z.lt_trichotomy (key e) (key e')) as [Hlt|[Heq|Hgt]].
  - pose proof (below_mono (key e + 1) (key e') ltac:(lia)). lia.
  - unfold pos. rewrite He, He', Heq.
    pose proof (cnt_mono (key e') (S k) k' ltac:(lia)) as Hm.
    rewrite (cnt_S _ _ _ He), decide_True in Hm by done. lia.
  - pose proof (below_mono (key e' + 1) (key e) ltac:(lia)). lia.
Qed.

Lemma pos_inj : Inj (=) (=) (pos key l).
Proof.
  assert (∀ k k', (k < k')%nat → pos key l k ≠ pos key l k') as Hlt.
  { intros k k' Hk.
    destruct (l !! k') as [e'|] eqn:He'.
    - destruct (lookup_lt_is_Some_2 l k) as [e He];
        [apply lookup_lt_Some in He'; lia|].
      by eapply pos_ne.
    - apply lookup_ge_None in He'.
      destruct (decide (k < length l)%nat) as [Hk'|Hk'].
      + pose proof (pos_lt_length k Hk'). unfold pos at 2.
        rewrite lookup_ge_None_2 by done. lia.
      + unfold pos. rewrite !lookup_ge_None_2 by lia. lia. }
  intros k k' Heq.
  destruct (Nat.lt_trichotomy k k') as [H|[H|H]]; [|done|].
  - by apply Hlt in H.
  - apply Hlt in H. congruence.
Qed.
End buckets.

(** The buckets of the keys [0 .. n), one after the other, hold the elements
    of the list. *)
Lemma concat_buckets {A : Type} (key : A → Z) (l : list A) (n : nat) :
  Forall (λ e, 0 ≤ key e < Z.of_nat n) l →
  concat ((λ p, filter (λ e, key e = p) l) <$> seqZ 0 (Z.of_nat n)) ≡ₚ l.
Proof.
  intros Hl.
  assert (∀ k : nat, concat ((λ p, filter (λ e, key e = p) l) <$> seqZ 0 (Z.of_nat k))
                     ≡ₚ filter (λ e, key e < Z.of_nat k) l) as Hk.
  { intros k. induction k as [|k IH].
    - simpl. clear -Hl. induction Hl as [|e l He _ IH]; [done|].
      rewrite filter_cons, decide_False by lia. done.
    - rewrite seqZ_S, fmap_app, concat_app, IH. simpl. rewrite app_nil_r, Z.add_0_l.
      clear. induction l as [|e l IH]; [done|].
      rewrite !filter_cons. repeat case_decide; try lia; simpl.
      + by rewrite IH.
      + rewrite <- IH. by rewrite Permutation_middle.
      + done. }
  rewrite Hk. clear Hk. induction Hl as [|e l He _ IH]; [done|].
  rewrite filter_cons, decide_True by lia. by rewrite IH.
Qed.

Lemma concat_lookup {A : Type} (ls : list (list A)) (p : nat) (l : list A) (j : nat) :
  ls !! p = Some l → (j < length l)%nat →
  concat ls !! (length (concat (take p ls)) + j)%nat = l !! j.
Proof.
  revert p. induction ls as [|l0 ls IH]; intros p Hp Hj; [done|].
  destruct p as [|p]; simpl in *.
  - injection Hp as ->. by rewrite lookup_app_l.
  - rewrite length_app, <- Nat.add_assoc, lookup_app_r by lia.
    replace (length l0 + (length (concat (take p ls)) + j) - length l0)%nat
      with (length (concat (take p ls)) + j)%nat by lia.
    by apply IH.
Qed.

(** ** [partition_coo] *)

Lemma insert_app_replicate {A : Type} (l : list A) (d : nat) (x v : A) :
  (0 < d)%nat →
  <[length l := v]> (l ++ replicate d x) = (l ++ [v]) ++ replicate (d - 1) x.
Proof.
  intros Hd. destruct d as [|d]; [lia|].
  rewrite insert_app_r_alt, Nat.sub_diag by lia. simpl.
  by rewrite Nat.sub_0_r, <- app_assoc.
Qed.

Lemma insert_take_drop {A B : Type} (f g : A → B) (b : list A) (i : nat) (e : A) :
  b !! i = Some e →
  <[i := f e]> ((f <$> take i b) ++ (g <$> drop i b))
  = (f <$> take (S i) b) ++ (g <$> drop (S i) b).
Proof.
  intros He. pose proof (lookup_lt_Some _ _ _ He) as Hi.
  rewrite insert_app_r_alt; rewrite length_fmap, length_take; [|lia].
  replace (i - i `min` length b)%nat with 0%nat by lia.
  rewrite (drop_S _ _ _ He), (take_S_r _ _ _ He), fmap_app. simpl.
  by rewrite <- app_assoc.
Qed.

Lemma lookup_take_drop {A B : Type} (f g : A → B) (b : list A) (i : nat) (e : A) :
  b !! i = Some e →
  ((f <$> take i b) ++ (g <$> drop i b)) !! i = Some (g e).
Proof.
  intros He. pose proof (lookup_lt_Some _ _ _ He) as Hi.
  rewrite lookup_app_r; rewrite length_fmap, length_take; [|lia].
  replace (i - i `min` length b)%nat with 0%nat by lia.
  by rewrite (drop_S _ _ _ He).
Qed.

Lemma udiv_Some a b : b ≠ 0 → udiv a b = Some (a / b).
Proof. intros. unfold udiv. by rewrite decide_False. Qed.

Section partition.
(** The edge list, the unit count and the grid. *)
Variables (rows cols : list Z) (NR NC m n R C : Z).
Hypothesis Hwf : coo_wf (mkCOO NR NC m rows cols).
Hypothesis Hn : n < u32_mod.
Hypothesis HR : 0 < R.
Hypothesis HC : 0 < C.
Hypothesis HRC : R * C = n.
Hypothesis HNR : (R | NR).
Hypothesis HNC : (C | NC).

Let nr := NR / R.
Let nc := NC / C.
Let es := zip rows cols.
Let cell := cell_of nr nc C.
Let c0 := mkCOO 0 0 0 [] [].
Let N := Z.to_nat n.
Let M := Z.to_nat m.

Lemma NR_eq : NR = R * nr.
Proof using All. destruct HNR as [k ->]. unfold nr. rewrite Z.div_mul by lia. lia. Qed.

Lemma NC_eq : NC = C * nc.
Proof using All. destruct HNC as [k ->]. unfold nc. rewrite Z.div_mul by lia. lia. Qed.

Lemma m_range : 0 ≤ m < u32_mod.
Proof using All. destruct Hwf as (_ & _ & H & _). exact H. Qed.

Lemma length_es : length es = M.
Proof using All.
  destruct Hwf as (_ & _ & _ & Hr & Hc & _). simpl in *.
  unfold es, M. rewrite length_zip. lia.
Qed.

Lemma es_lookup (i : nat) :
  (i < M)%nat →
  ∃ r c, rows !! i = Some r ∧ cols !! i = Some c ∧ es !! i = Some (r, c) ∧
         0 ≤ r < NR ∧ 0 ≤ c < NC.
Proof using All.
  intros Hi. destruct Hwf as (_ & _ & _ & Hr & Hc & Hrows & Hcols). simpl in *.
  destruct (lookup_lt_is_Some_2 rows i) as [r Hri]; [lia|].
  destruct (lookup_lt_is_Some_2 cols i) as [c Hci]; [unfold M in Hi; lia|].
  exists r, c. split; [done|]. split; [done|]. split.
  - unfold es. apply lookup_zip_with_Some. eauto.
  - split; [exact (Forall_lookup_1 _ _ _ _ Hrows Hri)|
            exact (Forall_lookup_1 _ _ _ _ Hcols Hci)].
Qed.

Lemma es_elem e : e ∈ es → 0 ≤ e.1 < NR ∧ 0 ≤ e.2 < NC.
Proof using All.
  intros [i Hi]%list_elem_of_lookup_1.
  destruct (es_lookup i) as (r & c & _ & _ & He & Hb);
    [rewrite <- length_es; by eapply lookup_lt_Some|].
  rewrite Hi in He. by injection He as ->.
Qed.

(** The geometry of one edge. *)
Lemma edge_geometry r c :
  0 ≤ r < NR → 0 ≤ c < NC →
  0 < nr ∧ 0 < nc ∧ 0 ≤ r / nr < R ∧ 0 ≤ c / nc < C ∧
  0 ≤ cell (r, c) < n ∧ cell (r, c) / C = r / nr ∧ cell (r, c) mod C = c / nc.
Proof using All.
  intros Hr Hc. pose proof NR_eq. pose proof NC_eq.
  assert (0 < nr) by nia. assert (0 < nc) by nia.
  assert (0 ≤ r / nr < R).
  { split; [apply Z.div_pos; lia|]. apply Z.div_lt_upper_bound; lia. }
  assert (0 ≤ c / nc < C).
  { split; [apply Z.div_pos; lia|]. apply Z.div_lt_upper_bound; lia. }
  unfold cell, cell_of. simpl.
  split; [done|]. split; [done|]. split; [done|]. split; [done|].
  split; [nia|]. split.
  - rewrite Z.div_add_l by lia. rewrite (Z.div_small (c / nc)) by lia. lia.
  - rewrite Z.add_comm, Z.mod_add by lia. apply Z.mod_small. lia.
Qed.

Lemma cnt_range p k : Z.of_nat (cnt cell es p k) ≤ m.
Proof using All.
  pose proof (cnt_le_length cell es p k) as H. pose proof m_range.
  rewrite length_es in H. unfold M in H. lia.
Qed.

(** First pass: the edge counts. *)
Lemma count_phase (body : Z → list COO → option (list COO)) :
  (∀ i e prts, 0 ≤ i → es !! Z.to_nat i = Some e →
     body i prts = incr_num_edges prts (cell e)) →
  ∃ prts, for_upto m body (replicate N c0) = Some prts ∧
          tab prts N (λ p, mkCOO 0 0 (Z.of_nat (cnt cell es (Z.of_nat p) M)) [] []).
Proof using All.
  intros Hbody. pose proof m_range as Hm.
  apply (for_upto_inv
    (λ i prts, tab prts N
       (λ p, mkCOO 0 0 (Z.of_nat (cnt cell es (Z.of_nat p) (Z.to_nat i))) [] []))).
  - lia.
  - apply tab_replicate.
  - intros i prts Hi Hinv.
    destruct (es_lookup (Z.to_nat i)) as (r & c & _ & _ & He & Hr & Hc); [unfold M; lia|].
    rewrite (Hbody _ _ _ (proj1 Hi) He).
    destruct (edge_geometry r c Hr Hc) as (_ & _ & _ & _ & Hp & _).
    unfold incr_num_edges, part_at. rewrite decide_True by lia.
    rewrite (tab_lookup _ _ _ _ Hinv) by (unfold N; lia). simpl.
    eexists. split; [done|].
    unfold part_set. eapply tab_ext; [apply tab_insert; [exact Hinv|unfold N; lia]|].
    intros j Hj. simpl. replace (Z.to_nat (i + 1)) with (S (Z.to_nat i)) by lia.
    rewrite (cnt_S _ _ _ _ _ He). rewrite Z2Nat.id by lia.
    unfold set_num_edges. simpl.
    pose proof (cnt_lt_total cell es (cell (r, c)) _ _ He eq_refl) as Hlt.
    pose proof (cnt_range (cell (r, c)) (length es)).
    case_decide as Hj'.
    + subst j. rewrite Z2Nat.id, decide_True by lia. f_equal.
      rewrite u32_small by (unfold is_u32; lia). lia.
    + rewrite decide_False by lia. f_equal. lia.
Qed.

(** Allocation. *)
Lemma init_phase prts :
  tab prts N (λ p, mkCOO 0 0 (Z.of_nat (cnt cell es (Z.of_nat p) M)) [] []) →
  ∃ prts', partition_init n nr nc prts = Some prts' ∧
           tab prts' N (λ p, mkCOO nr nc 0
                               (replicate (cnt cell es (Z.of_nat p) M) 0)
                               (replicate (cnt cell es (Z.of_nat p) M) 0)).
Proof using All.
  intros Hprts. unfold partition_init.
  destruct (for_upto_inv
    (λ i prts', tab prts' N
       (λ p, if decide (Z.of_nat p < i)
             then mkCOO nr nc 0 (replicate (cnt cell es (Z.of_nat p) M) 0)
                                (replicate (cnt cell es (Z.of_nat p) M) 0)
             else mkCOO 0 0 (Z.of_nat (cnt cell es (Z.of_nat p) M)) [] []))
    (λ i prts,
       c ← part_at prts i;
       Some (part_set prts i
               (mkCOO nr nc 0 (malloc (coo_num_edges c)) (malloc (coo_num_edges c)))))
    n prts) as (prts' & Hrun & Hinv).
  - lia.
  - eapply tab_ext; [exact Hprts|]. intros j Hj. simpl. by rewrite decide_False by lia.
  - intros i q Hi Hinv. unfold part_at. rewrite decide_True by lia.
    rewrite (tab_lookup _ _ _ _ Hinv) by (unfold N; lia).
    rewrite decide_False by lia. simpl.
    eexists. split; [done|].
    unfold part_set. eapply tab_ext; [apply tab_insert; [exact Hinv|unfold N; lia]|].
    intros j Hj. simpl. unfold malloc. rewrite Nat2Z.id.
    case_decide as Hj'.
    + subst j. rewrite Z2Nat.id, decide_True by lia. done.
    + destruct (decide (Z.of_nat j < i)).
      * by rewrite decide_True by lia.
      * by rewrite decide_False by lia.
  - exists prts'. split; [done|]. eapply tab_ext; [exact Hinv|].
    intros j Hj. simpl. rewrite decide_True; [done|unfold N in Hj; lia].
Qed.

(** Second pass: every edge is appended to the partition of its cell. *)
Lemma bin_phase prt' prts :
  (∀ r c, 0 ≤ r < NR → 0 ≤ c < NC → bin_index prt' nr nc C r c = Some (cell (r, c))) →
  tab prts N (λ p, mkCOO nr nc 0 (replicate (cnt cell es (Z.of_nat p) M) 0)
                                 (replicate (cnt cell es (Z.of_nat p) M) 0)) →
  ∃ prts', partition_bin (mkCOO NR NC m rows cols) prt' nr nc C prts = Some prts' ∧
           tab prts' N (λ p, let b := filter (λ e, cell e = Z.of_nat p) es in
                             mkCOO nr nc (Z.of_nat (length b)) (fst <$> b) (snd <$> b)).
Proof using All.
  intros Hbin Hprts. pose proof m_range as Hm. unfold partition_bin. simpl.
  destruct (for_upto_inv
    (λ i prts', tab prts' N
       (λ p, let b := bucket cell es (Z.of_nat p) (Z.to_nat i) in
             let d := (cnt cell es (Z.of_nat p) M - length b)%nat in
             mkCOO nr nc (Z.of_nat (length b))
                   ((fst <$> b) ++ replicate d 0) ((snd <$> b) ++ replicate d 0)))
    (λ i prts,
       row_idx ← rd rows i;
       col_idx ← rd cols i;
       p ← bin_index prt' nr nc C row_idx col_idx;
       c ← part_at prts p;
       let idx := coo_num_edges c in
       rows ← wr (coo_row_idxs c) idx row_idx;
       cols ← wr (coo_col_idxs c) idx col_idx;
       Some (part_set prts p
               (mkCOO (coo_num_rows c) (coo_num_cols c) (u32 (idx + 1)) rows cols)))
    m prts) as (prts' & Hrun & Hinv).
  - lia.
  - eapply tab_ext; [exact Hprts|]. intros j Hj. simpl. by rewrite Nat.sub_0_r.
  - intros i q Hi Hinv.
    destruct (es_lookup (Z.to_nat i)) as (r & c & Hri & Hci & He & Hr & Hc);
      [unfold M; lia|].
    destruct (edge_geometry r c Hr Hc) as (_ & _ & _ & _ & Hp & _).
    unfold rd. rewrite !decide_True by lia. rewrite Hri, Hci. simpl.
    rewrite (Hbin r c Hr Hc). simpl.
    unfold part_at. rewrite decide_True by lia.
    rewrite (tab_lookup _ _ _ _ Hinv) by (unfold N; lia). simpl.
    rewrite Z2Nat.id by lia.
    set (b := bucket cell es (cell (r, c)) (Z.to_nat i)).
    pose proof (cnt_lt_total cell es (cell (r, c)) _ _ He eq_refl) as Hlt.
    rewrite length_es in Hlt. fold M in Hlt. change (cnt cell es _ (Z.to_nat i)) with (length b) in Hlt.
    pose proof (cnt_range (cell (r, c)) M).
    rewrite !wr_Some by (rewrite length_app, length_fmap, length_replicate; lia).
    simpl. eexists. split; [done|].
    unfold part_set. eapply tab_ext; [apply tab_insert; [exact Hinv|unfold N; lia]|].
    intros j Hj. simpl. replace (Z.to_nat (i + 1)) with (S (Z.to_nat i)) by lia.
    rewrite (bucket_S _ _ _ _ _ He).
    case_decide as Hj'.
    + subst j. rewrite Z2Nat.id, decide_True by lia. fold b.
      rewrite Nat2Z.id, length_app, !fmap_app. simpl.
      rewrite u32_small by (unfold is_u32; lia).
      f_equal; [lia| |].
      * rewrite <- (length_fmap fst b) at 1. rewrite insert_app_replicate by lia.
        do 2 f_equal. lia.
      * rewrite <- (length_fmap snd b) at 1. rewrite insert_app_replicate by lia.
        do 2 f_equal. lia.
    + rewrite decide_False by lia. by rewrite app_nil_r.
  - exists prts'. split; [done|]. eapply tab_ext; [exact Hinv|].
    intros j Hj. simpl. fold M. unfold cnt.
    rewrite Nat.sub_diag. simpl. rewrite !app_nil_r.
    by rewrite bucket_all by (rewrite length_es; lia).
Qed.

Lemma offsets_val (orow ocol : bool) p :
  (orow = true ∨ R = 1) → (ocol = true ∨ C = 1) → 0 ≤ p < n →
  part_row_offset orow C nr p = Some (p / C * nr) ∧
  part_col_offset ocol C nc p = Some (p mod C * nc).
Proof using All.
  intros Hor Hoc Hp. pose proof NR_eq. pose proof NC_eq.
  destruct Hwf as (HuR & HuC & _). unfold is_u32 in *. simpl in *.
  assert (0 ≤ nr) by nia. assert (0 ≤ nc) by nia.
  assert (0 ≤ p / C < R).
  { split; [apply Z.div_pos; lia|]. apply Z.div_lt_upper_bound; lia. }
  pose proof (Z.mod_pos_bound p C HC).
  unfold part_row_offset, part_col_offset, udiv, umod.
  rewrite !decide_False by lia. simpl. split.
  - destruct orow.
    + f_equal. apply u32_small. unfold is_u32. nia.
    + destruct Hor as [Ht | ->]; [done|]. f_equal. lia.
  - destruct ocol.
    + f_equal. apply u32_small. unfold is_u32. nia.
    + destruct Hoc as [Ht | ->]; [done|]. rewrite Z.mod_1_r. done.
Qed.

(** The rebasing of one partition. *)
Lemma rebase_phase p (b : list (Z * Z)) :
  0 ≤ p < n → Forall (λ e, e ∈ es ∧ cell e = p) b → Z.of_nat (length b) ≤ m →
  ∃ c, for_upto (Z.of_nat (length b)) (λ i c,
         r ← rd (coo_row_idxs c) i;
         rows ← wr (coo_row_idxs c) i (u32 (r - p / C * nr));
         k ← rd (coo_col_idxs c) i;
         cols ← wr (coo_col_idxs c) i (u32 (k - p mod C * nc));
         Some (set_idxs c rows cols))
         (mkCOO nr nc (Z.of_nat (length b)) (fst <$> b) (snd <$> b)) = Some c ∧
       c = mkCOO nr nc (Z.of_nat (length b))
                 ((λ e, (rebase nr nc C p e).1) <$> b)
                 ((λ e, (rebase nr nc C p e).2) <$> b).
Proof using All.
  intros Hp Hb Hlen. pose proof m_range as Hm.
  destruct (for_upto_inv
    (λ i c, c = mkCOO nr nc (Z.of_nat (length b))
                  (((λ e, (rebase nr nc C p e).1) <$> take (Z.to_nat i) b)
                     ++ (fst <$> drop (Z.to_nat i) b))
                  (((λ e, (rebase nr nc C p e).2) <$> take (Z.to_nat i) b)
                     ++ (snd <$> drop (Z.to_nat i) b)))
    (λ i c,
       r ← rd (coo_row_idxs c) i;
       rows ← wr (coo_row_idxs c) i (u32 (r - p / C * nr));
       k ← rd (coo_col_idxs c) i;
       cols ← wr (coo_col_idxs c) i (u32 (k - p mod C * nc));
       Some (set_idxs c rows cols))
    (Z.of_nat (length b))
    (mkCOO nr nc (Z.of_nat (length b)) (fst <$> b) (snd <$> b))) as (c & Hrun & Hinv).
  - lia.
  - done.
  - intros i c Hi ->. simpl.
    destruct (lookup_lt_is_Some_2 b (Z.to_nat i)) as [[r k] He]; [lia|].
    destruct (Forall_lookup_1 _ _ _ _ Hb He) as [Hin Hcell].
    apply es_elem in Hin as [Hr Hk]. simpl in Hr, Hk.
    destruct (edge_geometry r k Hr Hk) as (Hnr & Hnc & Hrr & Hkk & _ & Hdiv & Hmod).
    rewrite Hcell in Hdiv, Hmod.
    pose proof (Z.mod_pos_bound r nr Hnr). pose proof (Z.div_mod r nr ltac:(lia)).
    pose proof (Z.mod_pos_bound k nc Hnc). pose proof (Z.div_mod k nc ltac:(lia)).
    destruct Hwf as (HuR & HuC & _). unfold is_u32 in HuR, HuC. simpl in HuR, HuC.
    unfold rd. rewrite !decide_True by lia.
    rewrite (lookup_take_drop _ fst b _ _ He). simpl.
    rewrite wr_Some
      by (rewrite length_app, !length_fmap, length_take, length_drop; lia).
    simpl. rewrite (lookup_take_drop _ snd b _ _ He). simpl.
    rewrite wr_Some
      by (rewrite length_app, !length_fmap, length_take, length_drop; lia).
    simpl. eexists. split; [done|].
    unfold set_idxs. simpl.
    replace (Z.to_nat (i + 1)) with (S (Z.to_nat i)) by lia.
    rewrite <- !(insert_take_drop _ _ b _ _ He). simpl.
    rewrite !u32_small by (unfold is_u32; nia). done.
  - exists c. split; [done|]. rewrite Hinv, Nat2Z.id, take_ge, drop_ge by lia.
    simpl. by rewrite !app_nil_r.
Qed.

(** Third pass: every partition is rebased. *)
Lemma offset_phase (orow ocol : bool) prts :
  (orow = true ∨ R = 1) → (ocol = true ∨ C = 1) →
  tab prts N (λ p, let b := filter (λ e, cell e = Z.of_nat p) es in
                   mkCOO nr nc (Z.of_nat (length b)) (fst <$> b) (snd <$> b)) →
  ∃ prts', partition_offset n nr nc C orow ocol prts = Some prts' ∧
           tab prts' N (λ p, let b := filter (λ e, cell e = Z.of_nat p) es in
                             mkCOO nr nc (Z.of_nat (length b))
                                   ((λ e, (rebase nr nc C (Z.of_nat p) e).1) <$> b)
                                   ((λ e, (rebase nr nc C (Z.of_nat p) e).2) <$> b)).
Proof using All.
  intros Hor Hoc Hprts. pose proof m_range as Hm. unfold partition_offset.
  destruct (for_upto_inv
    (λ i prts', tab prts' N
       (λ p, let b := filter (λ e, cell e = Z.of_nat p) es in
             if decide (Z.of_nat p < i)
             then mkCOO nr nc (Z.of_nat (length b))
                        ((λ e, (rebase nr nc C (Z.of_nat p) e).1) <$> b)
                        ((λ e, (rebase nr nc C (Z.of_nat p) e).2) <$> b)
             else mkCOO nr nc (Z.of_nat (length b)) (fst <$> b) (snd <$> b)))
    (λ p prts,
       row_offset ← part_row_offset orow C nr p;
       col_offset ← part_col_offset ocol C nc p;
       c ← part_at prts p;
       c ← for_upto (coo_num_edges c) (λ i c,
              r ← rd (coo_row_idxs c) i;
              rows ← wr (coo_row_idxs c) i (u32 (r - row_offset));
              k ← rd (coo_col_idxs c) i;
              cols ← wr (coo_col_idxs c) i (u32 (k - col_offset));
              Some (set_idxs c rows cols)) c;
       Some (part_set prts p c))
    n prts) as (prts' & Hrun & Hinv).
  - lia.
  - eapply tab_ext; [exact Hprts|]. intros j Hj. simpl. by rewrite decide_False by lia.
  - intros p q Hp Hinv.
    destruct (offsets_val orow ocol p Hor Hoc Hp) as [-> ->]. simpl.
    unfold part_at. rewrite decide_True by lia.
    rewrite (tab_lookup _ _ _ _ Hinv) by (unfold N; lia).
    simpl. rewrite decide_False, Z2Nat.id by lia. simpl.
    set (b := filter (λ e, cell e = p) es).
    destruct (rebase_phase p b Hp) as (c & -> & ->).
    { apply Forall_forall. intros e He. by apply list_elem_of_filter in He as [? ?]. }
    { pose proof (length_filter (λ e, cell e = p) es) as Hle.
      rewrite length_es in Hle. unfold M in Hle. fold b in Hle. lia. }
    simpl. eexists. split; [done|].
    unfold part_set. eapply tab_ext; [apply tab_insert; [exact Hinv|unfold N; lia]|].
    intros j Hj. simpl.
    case_decide as Hj'.
    + subst j. rewrite Z2Nat.id, decide_True by lia. done.
    + destruct (decide (Z.of_nat j < p)).
      * by rewrite decide_True by lia.
      * by rewrite decide_False by lia.
  - exists prts'. split; [done|]. eapply tab_ext; [exact Hinv|].
    intros j Hj. simpl. rewrite decide_True; [done|unfold N in Hj; lia].
Qed.

Variable prt : Partition.
Hypothesis Hgrid : grid n prt = Some (R, C).

Lemma bin_index_val r c :
  0 ≤ r < NR → 0 ≤ c < NC → bin_index prt nr nc C r c = Some (cell (r, c)).
Proof using All.
  intros Hr Hc.
  destruct (edge_geometry r c Hr Hc) as (Hnr & Hnc & Hrr & Hcc & Hp & _).
  unfold cell, cell_of in *. simpl in *.
  destruct prt; simpl in Hgrid; unfold bin_index, udiv.
  - injection Hgrid as HRn HC1. rewrite decide_False by lia. f_equal.
    assert (c / nc = 0) by lia. lia.
  - injection Hgrid as HR1 HCn. rewrite decide_False by lia. f_equal.
    assert (r / nr = 0) by lia. lia.
  - rewrite !decide_False by lia. simpl. f_equal.
    rewrite (u32_small (_ * _)) by (unfold is_u32; nia).
    apply u32_small. unfold is_u32. lia.
Qed.

Lemma count_run :
  ∃ prts,
    partition_count (mkCOO NR NC m rows cols) n prt (replicate N c0)
    = Some (prts, nr, nc, C, (offset_axes prt).1, (offset_axes prt).2) ∧
    ((offset_axes prt).1 = true ∨ R = 1) ∧ ((offset_axes prt).2 = true ∨ C = 1) ∧
    tab prts N (λ p, mkCOO 0 0 (Z.of_nat (cnt cell es (Z.of_nat p) M)) [] []).
Proof using All.
  assert (∀ i e, 0 ≤ i → es !! Z.to_nat i = Some e →
            0 ≤ e.1 < NR ∧ 0 ≤ e.2 < NC ∧
            rd rows i = Some e.1 ∧ rd cols i = Some e.2) as Hrd.
  { intros i e Hi He.
    destruct (es_lookup (Z.to_nat i)) as (r & c & Hri & Hci & He' & Hr & Hc).
    { rewrite <- length_es. by eapply lookup_lt_Some. }
    rewrite He in He'. injection He' as ->. simpl.
    unfold rd. rewrite !decide_True by lia. done. }
  unfold partition_count.
  destruct prt; simpl in Hgrid.
  - injection Hgrid as HRn HC1. simpl.
    rewrite (udiv_Some NR n) by lia. simpl.
    edestruct (count_phase) as (prts & -> & Htab); cycle 1.
    { simpl. exists prts.
      split; [|by eauto].
      unfold nr, nc. rewrite <- HRn, <- HC1. by rewrite Z.div_1_r. }
    intros i [r c] q Hi He. destruct (Hrd i _ Hi He) as (Hr & Hc & -> & _).
    simpl in *.
    destruct (edge_geometry r c Hr Hc) as (Hnr & Hnc & Hrr & Hcc & Hp & _).
    rewrite HRn. fold nr. rewrite udiv_Some by lia.
    simpl. f_equal. unfold cell, cell_of. simpl.
    assert (c / nc = 0) by lia. lia.
  - injection Hgrid as HR1 HCn. simpl.
    rewrite (udiv_Some NC n) by lia. simpl.
    edestruct (count_phase) as (prts & -> & Htab); cycle 1.
    { simpl. exists prts.
      split; [|by eauto].
      unfold nr, nc. rewrite <- HR1, <- HCn. by rewrite Z.div_1_r. }
    intros i [r c] q Hi He. destruct (Hrd i _ Hi He) as (Hr & Hc & _ & ->).
    simpl in *.
    destruct (edge_geometry r c Hr Hc) as (Hnr & Hnc & Hrr & Hcc & Hp & _).
    rewrite HCn. fold nc. rewrite udiv_Some by lia.
    simpl. f_equal. unfold cell, cell_of. simpl.
    assert (r / nr = 0) by lia. lia.
  - rewrite Hgrid. simpl.
    rewrite (udiv_Some NR R), (udiv_Some NC C) by lia. simpl.
    edestruct (count_phase) as (prts & -> & Htab); cycle 1.
    { simpl. exists prts. split; [done|by eauto]. }
    intros i [r c] q Hi He. destruct (Hrd i _ Hi He) as (Hr & Hc & -> & ->).
    simpl in *.
    destruct (edge_geometry r c Hr Hc) as (Hnr & Hnc & Hrr & Hcc & Hp & _).
    fold nr nc. rewrite (udiv_Some r) by lia. simpl.
    rewrite (udiv_Some c) by lia. simpl. f_equal. unfold cell, cell_of in *. simpl in *.
    rewrite (u32_small (_ * _)) by (unfold is_u32; nia).
    apply u32_small. unfold is_u32. lia.
Qed.

(** What [partition_coo] returns: partition [p] holds, rebased and in
    their order, the edges of grid cell [p]. *)
Lemma partition_coo_run :
  ∃ prts, partition_coo (mkCOO NR NC m rows cols) n prt = Some prts ∧
          tab prts N (λ p, let b := filter (λ e, cell e = Z.of_nat p) es in
                           mkCOO nr nc (Z.of_nat (length b))
                                 ((λ e, (rebase nr nc C (Z.of_nat p) e).1) <$> b)
                                 ((λ e, (rebase nr nc C (Z.of_nat p) e).2) <$> b)).
Proof using All.
  destruct count_run as (prts1 & Hcount & Hor & Hoc & Htab1).
  destruct (init_phase prts1 Htab1) as (prts2 & Hinit & Htab2).
  destruct (bin_phase prt prts2 bin_index_val Htab2) as (prts3 & Hbin & Htab3).
  destruct (offset_phase _ _ prts3 Hor Hoc Htab3) as (prts4 & Hoff & Htab4).
  exists prts4. split; [|done].
  unfold partition_coo. fold N c0. rewrite Hcount. simpl.
  rewrite Hinit. simpl. rewrite Hbin. simpl. done.
Qed.
End partition.

Lemma grid_spec n prt :
  0 < n → ∃ R C, grid n prt = Some (R, C) ∧ R * C = n ∧ 0 < R ∧ 0 < C.
Proof.
  intros Hn. destruct prt; simpl.
  - exists n, 1. split; [done|lia].
  - exists 1, n. split; [done|lia].
  - destruct (nearest_factors_spec n Hn) as (R & C & -> & Hmul & Hle & _).
    exists R, C. split; [done|lia].
Qed.

Lemma zip_fmap {A B C : Type} (f : A → B) (g : A → C) (l : list A) :
  zip (f <$> l) (g <$> l) = (λ e, (f e, g e)) <$> l.
Proof. induction l as [|e l IH]; [done|]. simpl. f_equal. exact IH. Qed.

Lemma coo_edges_full nr nc k (rows cols : list Z) :
  Z.of_nat (length rows) = k → Z.of_nat (length cols) = k →
  coo_edges (mkCOO nr nc k rows cols) = zip rows cols.
Proof.
  intros Hr Hc. unfold coo_edges. simpl. by rewrite !take_ge by lia.
Qed.

Lemma restore_rebase nr nc C p e : restore nr nc C p (rebase nr nc C p e) = e.
Proof. destruct e as [r c]. unfold restore, rebase. simpl. f_equal; lia. Qed.

(** The exact result of [partition_coo]: on a grid of R x C cells of nr x nc
    nodes, partition [p] is the list of the edges of cell [p], in their input
    order, seen from the cell. *)
Lemma partition_coo_spec (coo : COO) (n : Z) (prt : Partition) :
  coo_wf coo → 0 < n < u32_mod →
  (n | coo_num_rows coo) → (n | coo_num_cols coo) →
  ∃ R C prts,
    grid n prt = Some (R, C) ∧ R * C = n ∧ 0 < R ∧ 0 < C ∧
    (R | coo_num_rows coo) ∧ (C | coo_num_cols coo) ∧
    partition_coo coo n prt = Some prts ∧
    tab prts (Z.to_nat n)
      (λ p, let nr := coo_num_rows coo / R in
            let nc := coo_num_cols coo / C in
            let b := filter (λ e, cell_of nr nc C e = Z.of_nat p) (coo_edges coo) in
            mkCOO nr nc (Z.of_nat (length b))
                  ((λ e, (rebase nr nc C (Z.of_nat p) e).1) <$> b)
                  ((λ e, (rebase nr nc C (Z.of_nat p) e).2) <$> b)).
Proof.
  intros Hwf Hn HNR HNC. destruct coo as [NR NC m rows cols]. simpl in *.
  destruct (grid_spec n prt) as (R & C & Hgrid & HRC & HR & HC); [lia|].
  assert (R | NR) as HRNR.
  { destruct HNR as [k ->]. exists (k * C). lia. }
  assert (C | NC) as HCNC.
  { destruct HNC as [k ->]. exists (k * R). lia. }
  destruct (partition_coo_run rows cols NR NC m n R C Hwf (proj2 Hn) HR HC HRC HRNR HCNC
              prt Hgrid) as (prts & Hrun & Htab).
  exists R, C, prts. repeat (split; [done|]).
  rewrite coo_edges_full; [done|apply Hwf..].
Qed.

(** C4.  For every topology and every well-formed edge list whose node
    counts are multiples of the unit count, [partition_coo] returns one
    partition per unit; every partition is a well-formed, 0-indexed edge
    list of the extent of a grid cell; an edge stored in partition p, with
    the offsets of p added back, lies in cell p and in no other; and the
    partitions' edges with their offsets added back are, as a multiset, the
    edges of the input. *)
Theorem partition_coo_complete (coo : COO) (n : Z) (prt : Partition) :
  coo_wf coo → 0 < n < u32_mod →
  (n | coo_num_rows coo) → (n | coo_num_cols coo) →
  ∃ R C prts,
    grid n prt = Some (R, C) ∧ R * C = n ∧
    partition_coo coo n prt = Some prts ∧ Z.of_nat (length prts) = n ∧
    let nr := coo_num_rows coo / R in
    let nc := coo_num_cols coo / C in
    (∀ (p : nat) c, prts !! p = Some c →
       coo_wf c ∧ coo_num_rows c = nr ∧ coo_num_cols c = nc ∧
       Forall (λ e, cell_of nr nc C (restore nr nc C (Z.of_nat p) e) = Z.of_nat p)
              (coo_edges c)) ∧
    concat (imap (λ p c, restore nr nc C (Z.of_nat p) <$> coo_edges c) prts)
      ≡ₚ coo_edges coo.
Proof.
  intros Hwf Hn HNR HNC.
  destruct (partition_coo_spec coo n prt Hwf Hn HNR HNC)
    as (R & C & prts & Hgrid & HRC & HR & HC & HRNR & HCNC & Hrun & Htab).
  exists R, C, prts. split; [done|]. split; [done|]. split; [done|].
  split; [rewrite (tab_length _ _ _ Htab); lia|].
  intros nr nc.
  set (es := coo_edges coo).
  assert (Forall (λ e, 0 ≤ e.1 < coo_num_rows coo ∧ 0 ≤ e.2 < coo_num_cols coo) es) as Hes.
  { destruct Hwf as (_ & _ & _ & Hlr & Hlc & Hrows & Hcols).
    unfold es. destruct coo as [NR NC m rows cols]. simpl in *.
    rewrite coo_edges_full by done.
    apply Forall_forall. intros [r c] [i Hi]%list_elem_of_lookup_1.
    apply lookup_zip_with_Some in Hi as (r' & c' & [= <- <-] & Hr & Hc).
    split; [exact (Forall_lookup_1 _ _ _ _ Hrows Hr)|exact (Forall_lookup_1 _ _ _ _ Hcols Hc)]. }
  assert (coo_num_rows coo = R * nr) as HNReq.
  { destruct HRNR as [k Hk]. unfold nr. rewrite Hk, Z.div_mul by lia. lia. }
  assert (coo_num_cols coo = C * nc) as HNCeq.
  { destruct HCNC as [k Hk]. unfold nc. rewrite Hk, Z.div_mul by lia. lia. }
  assert (∀ e, e ∈ es →
            0 < nr ∧ 0 < nc ∧ 0 ≤ e.1 / nr < R ∧ 0 ≤ e.2 / nc < C ∧
            0 ≤ cell_of nr nc C e < n ∧
            cell_of nr nc C e / C = e.1 / nr ∧ cell_of nr nc C e mod C = e.2 / nc) as Hgeo.
  { intros [r c] He. rewrite Forall_forall in Hes. destruct (Hes _ He) as [Hr Hc].
    simpl in *.
    assert (0 < nr) by nia. assert (0 < nc) by nia.
    assert (0 ≤ r / nr < R).
    { split; [apply Z.div_pos; lia|]. apply Z.div_lt_upper_bound; lia. }
    assert (0 ≤ c / nc < C).
    { split; [apply Z.div_pos; lia|]. apply Z.div_lt_upper_bound; lia. }
    unfold cell_of. simpl.
    split; [done|]. split; [done|]. split; [done|]. split; [done|].
    split; [nia|]. split.
    - rewrite Z.div_add_l by lia. rewrite (Z.div_small (c / nc)) by lia. lia.
    - rewrite Z.add_comm, Z.mod_add by lia. apply Z.mod_small. lia. }
  assert (∀ (p : nat) c, prts !! p = Some c →
            let b := filter (λ e, cell_of nr nc C e = Z.of_nat p) es in
            c = mkCOO nr nc (Z.of_nat (length b))
                      ((λ e, (rebase nr nc C (Z.of_nat p) e).1) <$> b)
                      ((λ e, (rebase nr nc C (Z.of_nat p) e).2) <$> b) ∧
            coo_edges c = rebase nr nc C (Z.of_nat p) <$> b) as Hpart.
  { intros p c Hp b.
    pose proof (lookup_lt_Some _ _ _ Hp) as Hlt. rewrite (tab_length _ _ _ Htab) in Hlt.
    rewrite (tab_lookup _ _ _ _ Htab Hlt) in Hp. injection Hp as <-.
    split; [done|]. fold nr nc es b.
    rewrite coo_edges_full by (by rewrite length_fmap).
    rewrite zip_fmap. apply list_fmap_ext. by intros _ [r k] _. }
  split.
  - intros p c Hp. destruct (Hpart p c Hp) as [-> Hedges]. rewrite Hedges.
    set (b := filter (λ e, cell_of nr nc C e = Z.of_nat p) es) in *.
    assert (Z.of_nat (length b) ≤ coo_num_edges coo) as Hlen.
    { pose proof (length_filter (λ e, cell_of nr nc C e = Z.of_nat p) es) as Hle.
      fold b in Hle. destruct Hwf as (_ & _ & _ & Hlr & Hlc & _).
      unfold es, coo_edges in Hle. rewrite length_zip, !length_take in Hle. lia. }
    assert (∀ e, e ∈ b → 0 ≤ (rebase nr nc C (Z.of_nat p) e).1 < nr ∧
                         0 ≤ (rebase nr nc C (Z.of_nat p) e).2 < nc) as Hreb.
    { intros [r k] [Hcell He]%list_elem_of_filter.
      destruct (Hgeo _ He) as (Hnr & Hnc & _ & _ & _ & Hdiv & Hmod).
      rewrite Hcell in Hdiv, Hmod. unfold rebase. simpl in *. rewrite Hdiv, Hmod.
      pose proof (Z.mod_pos_bound r nr Hnr). pose proof (Z.div_mod r nr ltac:(lia)).
      pose proof (Z.mod_pos_bound k nc Hnc). pose proof (Z.div_mod k nc ltac:(lia)).
      lia. }
    destruct Hwf as (HuR & HuC & Hum & _). unfold is_u32 in *.
    assert (0 ≤ nr ≤ coo_num_rows coo) by nia.
    assert (0 ≤ nc ≤ coo_num_cols coo) by nia.
    split; [|split; [done|split; [done|]]].
    + unfold coo_wf, is_u32. simpl. rewrite !length_fmap.
      split; [lia|]. split; [lia|]. split; [lia|]. split; [done|]. split; [done|].
      split; apply Forall_fmap, Forall_forall; intros e He; by apply Hreb.
    + apply Forall_fmap, Forall_forall. intros e He. simpl.
      rewrite restore_rebase. by apply list_elem_of_filter in He as [? _].
  - assert (imap (λ p c, restore nr nc C (Z.of_nat p) <$> coo_edges c) prts
            = (λ p, filter (λ e, cell_of nr nc C e = p) es)
                <$> seqZ 0 (Z.of_nat (Z.to_nat n))) as ->.
    { apply list_eq. intros p.
      rewrite list_lookup_imap, list_lookup_fmap.
      destruct (prts !! p) as [c|] eqn:Hp; simpl.
      - destruct (Hpart p c Hp) as [_ ->].
        pose proof (lookup_lt_Some _ _ _ Hp) as Hlt. rewrite (tab_length _ _ _ Htab) in Hlt.
        rewrite lookup_seqZ_lt by lia. simpl. f_equal.
        rewrite <- list_fmap_compose, Z.add_0_l.
        rewrite <- (list_fmap_id (filter _ es)) at 2.
        apply list_fmap_ext. intros _ e _. simpl. apply restore_rebase.
      - apply lookup_ge_None in Hp. rewrite (tab_length _ _ _ Htab) in Hp.
        by rewrite lookup_seqZ_ge by lia. }
    apply concat_buckets.
    apply Forall_forall. intros e He. destruct (Hgeo e He) as (_ & _ & _ & _ & ? & _). lia.
Qed.

Lemma partition_coo_complete_witness :
  ∃ R C prts,
    grid 8 _2D = Some (R, C) ∧ R * C = 8 ∧
    partition_coo (mkCOO 8 8 5 [0; 0; 1; 2; 3] [1; 2; 3; 3; 4]) 8 _2D = Some prts ∧
    Z.of_nat (length prts) = 8 ∧
    let nr := 8 / R in
    let nc := 8 / C in
    (∀ (p : nat) c, prts !! p = Some c →
       coo_wf c ∧ coo_num_rows c = nr ∧ coo_num_cols c = nc ∧
       Forall (λ e, cell_of nr nc C (restore nr nc C (Z.of_nat p) e) = Z.of_nat p)
              (coo_edges c)) ∧
    concat (imap (λ p c, restore nr nc C (Z.of_nat p) <$> coo_edges c) prts)
      ≡ₚ coo_edges (mkCOO 8 8 5 [0; 0; 1; 2; 3] [1; 2; 3; 3; 4]).
Proof.
  apply (partition_coo_complete (mkCOO 8 8 5 [0; 0; 1; 2; 3] [1; 2; 3; 3; 4]) 8 _2D).
  - unfold coo_wf, is_u32, u32_mod. simpl.
    repeat split; try lia; repeat constructor; lia.
  - split; [lia|reflexivity].
  - exists 1. reflexivity.
  - exists 1. reflexivity.
Defined.

(** C5.  On the grid topology, with (R, C) the factors [nearest_factors]
    returns, [partition_coo] puts every edge (r, c) into the partition of
    linear index p_row * C + p_col, where p_row and p_col are the grid row
    and column of the edge; unit i is at grid row i / C and grid column
    i mod C in the same sense: the offsets [partition_coo] subtracts from
    the indices of partition i are those of grid row i / C and grid column
    i mod C, and the current-frontier slice [start_2d] sends to unit i is the
    one of grid row i / C. *)
Theorem grid_addressing_row_major (coo : COO) (n : Z) :
  coo_wf coo → 0 < n < u32_mod →
  (n | coo_num_rows coo) → (n | coo_num_cols coo) →
  ∃ R C prts prts1,
    nearest_factors n = Some (R, C) ∧ R * C = n ∧
    partition_coo coo n _2D = Some prts ∧
    let nr := coo_num_rows coo / R in
    let nc := coo_num_cols coo / C in
    let len_cf := nr / 32 in
    partition_count coo n _2D (replicate (Z.to_nat n) (mkCOO 0 0 0 [] []))
    = Some (prts1, nr, nc, C, true, true) ∧
    (∀ r c, (r, c) ∈ coo_edges coo →
       let p_row := r / nr in
       let p_col := c / nc in
       let p := p_row * C + p_col in
       0 ≤ p_row < R ∧ 0 ≤ p_col < C ∧
       bin_index _2D nr nc C r c = Some p ∧
       p / C = p_row ∧ p mod C = p_col ∧
       ∃ part, prts !! Z.to_nat p = Some part ∧
               (r - p_row * nr, c - p_col * nc) ∈ coo_edges part) ∧
    (∀ i, 0 ≤ i < n →
       part_row_offset true C nr i = Some (i / C * nr) ∧
       part_col_offset true C nc i = Some (i mod C * nc) ∧
       start_2d_cf_offset len_cf C i = Some (i / C * len_cf)).
Proof.
  intros Hwf Hn HNR HNC.
  destruct (partition_coo_spec coo n _2D Hwf Hn HNR HNC)
    as (R & C & prts & Hgrid & HRC & HR & HC & HRNR & HCNC & Hrun & Htab).
  destruct coo as [NR NC m rows cols]. simpl in *.
  pose proof (proj2 Hn) as Hn'.
  destruct (count_run rows cols NR NC m n R C Hwf Hn' HR HC HRC HRNR HCNC _2D Hgrid)
    as (prts1 & Hcount & _).
  exists R, C, prts, prts1. split; [done|]. split; [done|]. split; [done|].
  set (nr := NR / R). set (nc := NC / C). set (len_cf := nr / 32).
  split; [exact Hcount|].
  rewrite coo_edges_full in * by apply Hwf.
  split.
  - intros r c He.
    set (p_row := r / nr). set (p_col := c / nc). set (p := p_row * C + p_col).
    destruct (es_elem rows cols NR NC m n R C Hwf Hn' HR HC HRC HRNR HCNC _ He) as [Hr Hc].
    simpl in Hr, Hc.
    destruct (edge_geometry rows cols NR NC m n R C Hwf Hn' HR HC HRC HRNR HCNC r c Hr Hc)
      as (Hnr & Hnc & Hrr & Hcc & Hp & Hdiv & Hmod).
    fold nr nc in Hnr, Hnc, Hrr, Hcc, Hp, Hdiv, Hmod.
    unfold cell_of in Hp, Hdiv, Hmod. simpl in Hp, Hdiv, Hmod. fold p_row p_col p in Hp, Hdiv, Hmod.
    split; [done|]. split; [done|].
    split; [exact (bin_index_val rows cols NR NC m n R C Hwf Hn' HR HC HRC HRNR HCNC
                     _2D Hgrid r c Hr Hc)|].
    split; [done|]. split; [done|].
    eexists. split; [apply (tab_lookup _ _ _ _ Htab); lia|].
    rewrite coo_edges_full by (by rewrite length_fmap).
    rewrite zip_fmap. apply list_elem_of_fmap. exists (r, c). split.
    + unfold rebase. simpl. rewrite Z2Nat.id by lia. fold nr nc. by rewrite Hdiv, Hmod.
    + apply list_elem_of_filter. split; [|done].
      rewrite Z2Nat.id by lia. done.
  - intros i Hi.
    destruct (offsets_val rows cols NR NC m n R C Hwf Hn' HR HC HRC HRNR HCNC true true i)
      as [Hro Hco]; [by left|by left|lia|].
    split; [exact Hro|]. split; [exact Hco|].
    unfold start_2d_cf_offset. rewrite udiv_Some by lia. simpl. f_equal.
    apply u32_small. unfold is_u32.
    destruct Hwf as (HuR & _). unfold is_u32 in HuR. simpl in HuR.
    assert (NR = R * nr) as HNReq.
    { destruct HRNR as [k ->]. unfold nr. rewrite Z.div_mul by lia. lia. }
    assert (0 ≤ nr) by nia.
    assert (0 ≤ len_cf ≤ nr).
    { unfold len_cf. split; [apply Z.div_pos; lia|]. apply Z.div_le_upper_bound; lia. }
    assert (0 ≤ i / C < R).
    { split; [apply Z.div_pos; lia|]. apply Z.div_lt_upper_bound; lia. }
    nia.
Qed.

Lemma grid_addressing_row_major_witness :
  ∃ R C prts prts1,
    nearest_factors 8 = Some (R, C) ∧ R * C = 8 ∧
    partition_coo (mkCOO 8 8 5 [0; 0; 1; 2; 3] [1; 2; 3; 3; 4]) 8 _2D = Some prts ∧
    let nr := 8 / R in
    let nc := 8 / C in
    let len_cf := nr / 32 in
    partition_count (mkCOO 8 8 5 [0; 0; 1; 2; 3] [1; 2; 3; 3; 4]) 8 _2D
      (replicate (Z.to_nat 8) (mkCOO 0 0 0 [] []))
    = Some (prts1, nr, nc, C, true, true) ∧
    (∀ r c, (r, c) ∈ coo_edges (mkCOO 8 8 5 [0; 0; 1; 2; 3] [1; 2; 3; 3; 4]) →
       let p_row := r / nr in
       let p_col := c / nc in
       let p := p_row * C + p_col in
       0 ≤ p_row < R ∧ 0 ≤ p_col < C ∧
       bin_index _2D nr nc C r c = Some p ∧
       p / C = p_row ∧ p mod C = p_col ∧
       ∃ part, prts !! Z.to_nat p = Some part ∧
               (r - p_row * nr, c - p_col * nc) ∈ coo_edges part) ∧
    (∀ i, 0 ≤ i < 8 →
       part_row_offset true C nr i = Some (i / C * nr) ∧
       part_col_offset true C nc i = Some (i mod C * nc) ∧
       start_2d_cf_offset len_cf C i = Some (i / C * len_cf)).
Proof.
  apply (grid_addressing_row_major (mkCOO 8 8 5 [0; 0; 1; 2; 3] [1; 2; 3; 3; 4]) 8).
  - unfold coo_wf, is_u32, u32_mod. simpl.
    repeat split; try lia; repeat constructor; lia.
  - split; [lia|reflexivity].
  - exists 1. reflexivity.
  - exists 1. reflexivity.
Defined.

(** ** [coo_to_csr] *)

(** One step of a computation in the option monad whose first action has
    returned. *)
Ltac bind_step :=
  lazymatch goal with
  | |- mbind ?f (Some ?x) = ?r => change (f x = r); cbv beta iota
  end.

Section csr.
Variables (rows cols : list Z) (NR NC m : Z).
Hypothesis HR : 0 < NR.
Hypothesis HR1 : NR + 1 < u32_mod.
Hypothesis Hm : is_u32 m.
Hypothesis Hrows_len : Z.of_nat (length rows) = m.
Hypothesis Hcols_len : Z.of_nat (length cols) = m.
Hypothesis Hrows : Forall (λ r, 0 ≤ r < NR) rows.

Let es := zip rows cols.
Let M := Z.to_nat m.
Let Rn := Z.to_nat NR.
(** [B r]: the edges of the rows before [r]; [K r k]: the edges of row [r]
    among the first [k]. *)
Let B (r : nat) : Z := Z.of_nat (below fst es (Z.of_nat r)).
Let K (r k : nat) : Z := Z.of_nat (cnt fst es (Z.of_nat r) k).

Lemma csr_length_es : length es = M.
Proof using All. unfold es, M. rewrite length_zip. lia. Qed.

Lemma csr_es_lookup (i : nat) :
  (i < M)%nat →
  ∃ r c, rows !! i = Some r ∧ cols !! i = Some c ∧ es !! i = Some (r, c) ∧ 0 ≤ r < NR.
Proof using All.
  intros Hi.
  destruct (lookup_lt_is_Some_2 rows i) as [r Hri]; [unfold M in Hi; lia|].
  destruct (lookup_lt_is_Some_2 cols i) as [c Hci]; [unfold M in Hi; lia|].
  exists r, c. split; [done|]. split; [done|]. split.
  - unfold es. apply lookup_zip_with_Some. eauto.
  - exact (Forall_lookup_1 _ _ _ _ Hrows Hri).
Qed.

Lemma csr_keys_range : Forall (λ e : Z * Z, 0 ≤ e.1 < NR) es.
Proof using All.
  apply Forall_forall. intros [r c] [i Hi]%list_elem_of_lookup_1.
  destruct (csr_es_lookup i) as (r' & c' & _ & _ & He & Hb);
    [rewrite <- csr_length_es; by eapply lookup_lt_Some|].
  rewrite Hi in He. by injection He as -> ->.
Qed.

Lemma K_0 r : K r 0 = 0.
Proof using All. reflexivity. Qed.

Lemma K_S (j i : nat) r c :
  es !! i = Some (r, c) → 0 ≤ r →
  K j (S i) = K j i + (if decide (j = Z.to_nat r) then 1 else 0).
Proof using All.
  intros He Hr. unfold K. rewrite (cnt_S _ _ _ _ _ He). simpl.
  destruct (decide (j = Z.to_nat r)) as [->|Hne].
  - rewrite decide_True by lia. lia.
  - rewrite decide_False by lia. lia.
Qed.

Lemma K_le r k : 0 ≤ K r k ≤ m.
Proof using All.
  unfold K. pose proof (cnt_le_length fst es (Z.of_nat r) k) as H.
  rewrite csr_length_es in H. unfold M, is_u32 in *. lia.
Qed.

Lemma K_lt (i : nat) r c :
  es !! i = Some (r, c) → 0 ≤ r → K (Z.to_nat r) i < K (Z.to_nat r) M.
Proof using All.
  intros He Hr. unfold K. rewrite Z2Nat.id by done.
  pose proof (cnt_lt_total fst es r i _ He eq_refl) as H.
  rewrite csr_length_es in H. lia.
Qed.

Lemma B_S r : B (S r) = B r + K r M.
Proof using All.
  unfold B, K. replace (Z.of_nat (S r)) with (Z.of_nat r + 1) by lia.
  rewrite below_S, csr_length_es. lia.
Qed.

Lemma B_0 : B 0 = 0.
Proof using All.
  unfold B. rewrite below_none; [done|].
  eapply Forall_impl; [apply csr_keys_range|]. simpl. lia.
Qed.

Lemma B_top : B Rn = m.
Proof using All.
  unfold B. rewrite below_all, csr_length_es.
  - unfold M, is_u32 in *. lia.
  - eapply Forall_impl; [apply csr_keys_range|]. simpl. unfold Rn. lia.
Qed.

Lemma B_le r : 0 ≤ B r ≤ m.
Proof using All.
  unfold B. pose proof (below_le_length fst es (Z.of_nat r)) as H.
  rewrite csr_length_es in H. unfold M, is_u32 in *. lia.
Qed.

Lemma pos_val (i : nat) r c :
  es !! i = Some (r, c) → 0 ≤ r →
  Z.of_nat (pos fst es i) = B (Z.to_nat r) + K (Z.to_nat r) i.
Proof using All.
  intros He Hr. unfold pos, B, K. rewrite He. simpl. rewrite Z2Nat.id by done. lia.
Qed.

(** Histogram. *)
Lemma histogram_phase :
  ∃ rp, for_upto m (λ i row_ptrs,
          row_idx ← rd rows i;
          c ← rd row_ptrs row_idx;
          wr row_ptrs row_idx (u32 (c + 1))) (calloc (u32 (NR + 1))) = Some rp ∧
        tab rp (S Rn) (λ r, if decide (r < Rn)%nat then K r M else 0).
Proof using All.
  unfold is_u32 in Hm.
  apply (for_upto_inv
    (λ i rp, tab rp (S Rn) (λ r, if decide (r < Rn)%nat then K r (Z.to_nat i) else 0))).
  - lia.
  - rewrite u32_small by (unfold is_u32; lia). unfold calloc.
    replace (Z.to_nat (NR + 1)) with (S Rn) by (unfold Rn; lia).
    eapply tab_ext; [apply tab_replicate|]. intros j Hj. simpl. by case_decide.
  - intros i rp Hi Hinv.
    destruct (csr_es_lookup (Z.to_nat i)) as (r & c & Hri & _ & He & Hr); [unfold M; lia|].
    unfold rd. rewrite !decide_True by lia. rewrite Hri. simpl.
    rewrite (tab_lookup _ _ _ _ Hinv) by (unfold Rn; lia).
    rewrite decide_True by (unfold Rn; lia). simpl.
    rewrite wr_Some by (rewrite (tab_length _ _ _ Hinv); unfold Rn; lia).
    eexists. split; [done|].
    eapply tab_ext; [apply tab_insert; [exact Hinv|unfold Rn; lia]|].
    intros j Hj. simpl. replace (Z.to_nat (i + 1)) with (S (Z.to_nat i)) by lia.
    rewrite (K_S j _ _ _ He) by lia.
    pose proof (K_lt _ _ _ He ltac:(lia)). pose proof (K_le (Z.to_nat r) M).
    pose proof (K_le (Z.to_nat r) (Z.to_nat i)).
    case_decide as Hj'.
    + subst j. rewrite !decide_True by (unfold Rn; lia).
      apply u32_small. unfold is_u32. lia.
    + repeat case_decide; lia.
Qed.

(** Prefix sum, and the last cell. *)
Lemma prefix_phase rp :
  tab rp (S Rn) (λ r, if decide (r < Rn)%nat then K r M else 0) →
  ∃ rp', for_upto NR (λ row_idx '(row_ptrs, sum_before_next_row),
           c ← rd row_ptrs row_idx;
           row_ptrs ← wr row_ptrs row_idx sum_before_next_row;
           Some (row_ptrs, u32 (sum_before_next_row + c))) (rp, 0) = Some (rp', m) ∧
         wr rp' NR m = Some (<[Rn := m]> rp') ∧
         tab (<[Rn := m]> rp') (S Rn) B.
Proof using All.
  intros Hrp. unfold is_u32 in Hm.
  destruct (for_upto_inv
    (λ i s, s.2 = B (Z.to_nat i) ∧
            tab s.1 (S Rn) (λ r, if decide (Z.of_nat r < i) then B r
                                 else if decide (r < Rn)%nat then K r M else 0))
    (λ row_idx '(row_ptrs, sum_before_next_row),
       c ← rd row_ptrs row_idx;
       row_ptrs ← wr row_ptrs row_idx sum_before_next_row;
       Some (row_ptrs, u32 (sum_before_next_row + c)))
    NR (rp, 0)) as ([rp1 s1] & Hrun & Hs & Hinv).
  - lia.
  - split; [symmetry; exact B_0|]. cbn [fst snd].
    eapply tab_ext; [exact Hrp|]. intros j Hj. cbv beta.
    by rewrite (decide_False (P := Z.of_nat j < 0)) by lia.
  - intros i [q s] Hi [Hs Hinv]. simpl in *. subst s.
    unfold rd. rewrite decide_True by lia.
    rewrite (tab_lookup _ _ _ _ Hinv) by (unfold Rn; lia).
    rewrite decide_False, decide_True by (unfold Rn; lia). simpl.
    rewrite wr_Some by (rewrite (tab_length _ _ _ Hinv); unfold Rn; lia). simpl.
    eexists. split; [done|]. simpl.
    replace (Z.to_nat (i + 1)) with (S (Z.to_nat i)) by lia.
    pose proof (B_le (S (Z.to_nat i))) as Hb. rewrite B_S in Hb |- *.
    split; [apply u32_small; unfold is_u32; lia|].
    eapply tab_ext; [apply tab_insert; [exact Hinv|unfold Rn; lia]|].
    intros j Hj. simpl.
    case_decide as Hj'.
    + subst j. by rewrite decide_True by lia.
    + destruct (decide (Z.of_nat j < i)).
      * by rewrite (decide_True (P := Z.of_nat j < i + 1)) by lia.
      * by rewrite (decide_False (P := Z.of_nat j < i + 1)) by lia.
  - cbn [fst snd] in *. fold Rn in Hs. rewrite B_top in Hs. subst s1.
    exists rp1. split; [exact Hrun|]. split.
    + by rewrite wr_Some by (rewrite (tab_length _ _ _ Hinv); unfold Rn; lia).
    + eapply tab_ext; [apply tab_insert; [exact Hinv|unfold Rn; lia]|].
      intros j Hj. cbv beta.
      case_decide as Hj'.
      * subst j. symmetry. apply B_top.
      * rewrite decide_True; [done|unfold Rn in *; lia].
Qed.

(** Binning: edge [k] lands at [pos k]. *)
Lemma binning_phase rp :
  tab rp (S Rn) B →
  ∃ rp' ci,
    for_upto m (λ i '(row_ptrs, col_idxs),
      row_idx ← rd rows i;
      nnzIdx ← rd row_ptrs row_idx;
      row_ptrs ← wr row_ptrs row_idx (u32 (nnzIdx + 1));
      col_idx ← rd cols i;
      col_idxs ← wr col_idxs nnzIdx col_idx;
      Some (row_ptrs, col_idxs)) (rp, malloc m) = Some (rp', ci) ∧
    tab rp' (S Rn) (λ r, if decide (r < Rn)%nat then B (S r) else m) ∧
    length ci = M ∧
    ∀ k, (k < M)%nat → ci !! pos fst es k = snd <$> es !! k.
Proof using All.
  intros Hrp. unfold is_u32 in Hm.
  destruct (for_upto_inv
    (λ i s, tab s.1 (S Rn) (λ r, if decide (r < Rn)%nat then B r + K r (Z.to_nat i) else m) ∧
            length s.2 = M ∧
            ∀ k, (k < Z.to_nat i)%nat → s.2 !! pos fst es k = snd <$> es !! k)
    (λ i '(row_ptrs, col_idxs),
       row_idx ← rd rows i;
       nnzIdx ← rd row_ptrs row_idx;
       row_ptrs ← wr row_ptrs row_idx (u32 (nnzIdx + 1));
       col_idx ← rd cols i;
       col_idxs ← wr col_idxs nnzIdx col_idx;
       Some (row_ptrs, col_idxs))
    m (rp, malloc m)) as ([rp1 ci] & Hrun & Hinv & Hlen & Hci).
  - lia.
  - cbn [fst snd]. split; [|split].
    + eapply tab_ext; [exact Hrp|]. intros j Hj. cbv beta.
      change (Z.to_nat 0) with 0%nat. rewrite K_0.
      case_decide; [lia|]. replace j with Rn by lia. apply B_top.
    + unfold malloc. apply length_replicate.
    + intros k Hk. change (Z.to_nat 0) with 0%nat in Hk. lia.
  - intros i [q ci] Hi (Hinv & Hlen & Hci). cbn [fst snd] in *.
    destruct (csr_es_lookup (Z.to_nat i)) as (r & c & Hri & Hcol & He & Hr); [unfold M; lia|].
    pose proof (pos_val _ _ _ He ltac:(lia)) as Hpos.
    pose proof (pos_lt_length fst es (Z.to_nat i)) as Hposlt.
    rewrite csr_length_es in Hposlt. specialize (Hposlt ltac:(unfold M; lia)).
    pose proof (K_lt _ _ _ He ltac:(lia)) as HKlt.
    pose proof (B_le (S (Z.to_nat r))) as HBle. rewrite B_S in HBle.
    pose proof (B_le (Z.to_nat r)). pose proof (K_le (Z.to_nat r) (Z.to_nat i)).
    unfold rd. rewrite !decide_True by lia. rewrite Hri. cbn [mbind option_bind].
    rewrite decide_True by lia.
    rewrite (tab_lookup _ _ _ _ Hinv) by (unfold Rn; lia).
    rewrite decide_True by (unfold Rn; lia). cbn [mbind option_bind].
    rewrite wr_Some by (rewrite (tab_length _ _ _ Hinv); unfold Rn; lia).
    cbn [mbind option_bind]. rewrite Hcol. cbn [mbind option_bind].
    rewrite wr_Some by (unfold M in *; lia). cbn [mbind option_bind].
    eexists. split; [done|]. cbn [fst snd].
    replace (Z.to_nat (i + 1)) with (S (Z.to_nat i)) by lia.
    rewrite <- Hpos, Nat2Z.id.
    split; [|split].
    + eapply tab_ext; [apply tab_insert; [exact Hinv|unfold Rn; lia]|].
      intros j Hj. cbv beta. rewrite (K_S j _ _ _ He) by lia.
      case_decide as Hj'.
      * subst j. rewrite decide_True by (unfold Rn; lia).
        rewrite Hpos. rewrite u32_small by (unfold is_u32; lia). lia.
      * case_decide; lia.
    + by rewrite length_insert.
    + intros k Hk. destruct (decide (k = Z.to_nat i)) as [->|Hne].
      * rewrite list_lookup_insert_eq by lia. by rewrite He.
      * rewrite list_lookup_insert_ne; [apply Hci; lia|].
        intros Heq. by apply (pos_inj fst es) in Heq.
  - exists rp1, ci. split; [exact Hrun|]. cbn [fst snd] in *.
    split; [|split; [done|]].
    + eapply tab_ext; [exact Hinv|]. intros j Hj. cbv beta.
      fold M. case_decide; [|done]. by rewrite B_S.
    + intros k Hk. apply Hci. by fold M.
Qed.

(** Restoring the row pointers. *)
Lemma restore_phase rp :
  tab rp (S Rn) (λ r, if decide (r < Rn)%nat then B (S r) else m) →
  ∃ rp', for_down (Z.to_nat (u32 (NR - 1))) (λ row_idx row_ptrs,
           c ← rd row_ptrs (row_idx - 1);
           wr row_ptrs row_idx c) rp = Some rp' ∧
         wr rp' 0 0 = Some (<[0%nat := 0]> rp') ∧
         tab (<[0%nat := 0]> rp') (S Rn) B.
Proof using All.
  intros Hrp. unfold is_u32 in Hm.
  rewrite u32_small by (unfold is_u32; lia).
  destruct (for_down_inv
    (λ j rp', tab rp' (S Rn) (λ r, if decide (Z.of_nat r ≤ j) then B (S r) else B r))
    (λ row_idx row_ptrs, c ← rd row_ptrs (row_idx - 1); wr row_ptrs row_idx c)
    (Z.to_nat (NR - 1)) rp) as (rp1 & Hrun & Hinv).
  - eapply tab_ext; [exact Hrp|]. intros j Hj. cbv beta.
    destruct (decide (j < Rn)%nat).
    + by rewrite decide_True by (unfold Rn in *; lia).
    + rewrite decide_False by (unfold Rn in *; lia).
      replace j with Rn by lia. symmetry. apply B_top.
  - intros j q Hj Hinv. unfold rd. rewrite decide_True by lia.
    rewrite (tab_lookup _ _ _ _ Hinv) by (unfold Rn; lia).
    rewrite decide_True by lia. cbn [mbind option_bind].
    rewrite wr_Some by (rewrite (tab_length _ _ _ Hinv); unfold Rn; lia).
    eexists. split; [done|].
    eapply tab_ext; [apply tab_insert; [exact Hinv|unfold Rn; lia]|].
    intros x Hx. cbv beta.
    case_decide as Hx'.
    + subst x. rewrite decide_False by lia. f_equal. lia.
    + destruct (decide (Z.of_nat x ≤ j)).
      * by rewrite decide_True by lia.
      * by rewrite decide_False by lia.
  - exists rp1. split; [exact Hrun|]. split.
    + by rewrite wr_Some by (rewrite (tab_length _ _ _ Hinv); unfold Rn; lia).
    + eapply tab_ext; [apply tab_insert; [exact Hinv|unfold Rn; lia]|].
      intros x Hx. cbv beta.
      case_decide as Hx'.
      * subst x. symmetry. apply B_0.
      * by rewrite decide_False by lia.
Qed.

(** What [coo_to_csr] returns. *)
Lemma coo_to_csr_run :
  ∃ rp ci,
    coo_to_csr (mkCOO NR NC m rows cols) = Some (mkCSR NR NC m rp ci) ∧
    tab rp (S Rn) B ∧ length ci = M ∧
    ∀ k, (k < M)%nat → ci !! pos fst es k = snd <$> es !! k.
Proof using All.
  destruct histogram_phase as (rp1 & Hrun1 & Htab1).
  destruct (prefix_phase rp1 Htab1) as (rp2 & Hrun2 & Hwr2 & Htab2).
  destruct (binning_phase _ Htab2) as (rp3 & ci & Hrun3 & Htab3 & Hlen & Hci).
  destruct (restore_phase rp3 Htab3) as (rp4 & Hrun4 & Hwr4 & Htab4).
  exists (<[0%nat := 0]> rp4), ci. split; [|done].
  unfold coo_to_csr. cbn [coo_num_rows coo_num_cols coo_num_edges coo_row_idxs coo_col_idxs].
  rewrite Hrun1. bind_step.
  rewrite Hrun2. bind_step.
  rewrite Hwr2. bind_step.
  rewrite Hrun3. bind_step.
  rewrite Hrun4. bind_step.
  rewrite Hwr4. done.
Qed.

(** The out-edges [csr_row_edges] reads for row [r]. *)
Let row_list (ci : list Z) (r : nat) : list (Z * Z) :=
  (λ c, (Z.of_nat r, c))
    <$> take (cnt fst es (Z.of_nat r) M) (drop (below fst es (Z.of_nat r)) ci).

Lemma below_cnt_le (r : nat) :
  (below fst es (Z.of_nat r) + cnt fst es (Z.of_nat r) M ≤ M)%nat.
Proof using All.
  pose proof (B_S r) as H. pose proof (B_le (S r)) as H'.
  unfold B, K, is_u32, M in *. lia.
Qed.

Lemma length_row_list ci r :
  length ci = M → length (row_list ci r) = cnt fst es (Z.of_nat r) M.
Proof using All.
  intros Hci. unfold row_list. rewrite length_fmap, length_take, length_drop, Hci.
  pose proof (below_cnt_le r). lia.
Qed.

Lemma csr_row_edges_val rp ci (r : nat) :
  tab rp (S Rn) B → length ci = M → (r < Rn)%nat →
  csr_row_edges (mkCSR NR NC m rp ci) (Z.of_nat r) = Some (row_list ci r).
Proof using All.
  intros Hrp Hci Hr. unfold csr_row_edges, rd.
  cbn [csr_row_ptrs csr_col_idxs].
  rewrite !decide_True by lia. rewrite Nat2Z.id.
  replace (Z.to_nat (Z.of_nat r + 1)) with (S r) by lia.
  rewrite !(tab_lookup _ _ _ _ Hrp) by lia. do 2 bind_step.
  pose proof (below_cnt_le r) as Hle. pose proof (B_S r) as HS.
  unfold slice. rewrite decide_True.
  - bind_step. unfold row_list. do 3 f_equal.
    + rewrite HS. unfold K. lia.
    + unfold B. by rewrite Nat2Z.id.
  - rewrite HS, Hci. unfold B, K. lia.
Qed.

Lemma csr_rows_val rp ci :
  tab rp (S Rn) B → length ci = M →
  mapM (csr_row_edges (mkCSR NR NC m rp ci)) (seqZ 0 NR)
  = Some (row_list ci <$> seq 0 Rn).
Proof using All.
  intros Hrp Hci. apply mapM_Some_2.
  unfold seqZ. fold Rn. apply Forall2_fmap_l, Forall2_fmap_r, Forall_Forall2_diag.
  apply Forall_forall. intros r Hr%elem_of_seq.
  unfold compose. rewrite Z.add_0_r. apply csr_row_edges_val; [done..|lia].
Qed.

Lemma length_concat_rows ci (p : nat) :
  length ci = M → (p ≤ Rn)%nat →
  length (concat (take p (row_list ci <$> seq 0 Rn))) = below fst es (Z.of_nat p).
Proof using All.
  intros Hci. induction p as [|p IH]; intros Hp.
  - simpl. pose proof B_0 as H. unfold B in H. simpl in H. lia.
  - rewrite (take_S_r _ _ (row_list ci p)).
    + rewrite concat_app, length_app, IH by lia. simpl.
      rewrite app_nil_r, length_row_list by done.
      pose proof (B_S p) as H. unfold B, K in H. lia.
    + rewrite list_lookup_fmap, lookup_seq_lt by lia. done.
Qed.

Lemma csr_edges_perm rp ci :
  tab rp (S Rn) B → length ci = M →
  (∀ k, (k < M)%nat → ci !! pos fst es k = snd <$> es !! k) →
  ∃ es', csr_edges (mkCSR NR NC m rp ci) = Some es' ∧ es' ≡ₚ es.
Proof using All.
  intros Hrp Hci Hpos.
  exists (concat (row_list ci <$> seq 0 Rn)). split.
  - unfold csr_edges. simpl. by rewrite csr_rows_val.
  - symmetry. apply Permutation_inj.
    assert (length (concat (row_list ci <$> seq 0 Rn)) = M) as Hlen.
    { rewrite <- (take_ge (row_list ci <$> seq 0 Rn) Rn)
        by (rewrite length_fmap, length_seq; lia).
      rewrite length_concat_rows by done.
      pose proof B_top as H. unfold B, M, is_u32 in *. lia. }
    split; [by rewrite csr_length_es, Hlen|].
    exists (pos fst es). split; [apply pos_inj|].
    intros i. destruct (decide (i < M)%nat) as [Hi|Hi].
    + destruct (csr_es_lookup i Hi) as (r & c & _ & _ & He & Hr).
      rewrite He. specialize (Hpos i Hi). rewrite He in Hpos. simpl in Hpos.
      pose proof (cnt_lt_total fst es r i _ He eq_refl) as Hlt.
      rewrite csr_length_es in Hlt.
      assert (pos fst es i
              = (length (concat (take (Z.to_nat r) (row_list ci <$> seq 0 Rn)))
                 + cnt fst es r i)%nat) as Hpi.
      { rewrite length_concat_rows by (done || unfold Rn; lia).
        unfold pos. rewrite He. simpl. by rewrite Z2Nat.id by lia. }
      rewrite Hpi, (concat_lookup _ _ (row_list ci (Z.to_nat r))).
      * unfold row_list. rewrite list_lookup_fmap, Z2Nat.id by lia.
        rewrite lookup_take_lt, lookup_drop by done.
        unfold pos in Hpos. rewrite He in Hpos. simpl in Hpos. by rewrite Hpos.
      * rewrite list_lookup_fmap, lookup_seq_lt by (unfold Rn; lia). done.
      * rewrite length_row_list, Z2Nat.id by (done || lia). done.
    + assert (es !! i = None) as Hnone
        by (apply lookup_ge_None_2; rewrite csr_length_es; lia).
      unfold pos. rewrite Hnone.
      symmetry. apply lookup_ge_None_2. lia.
Qed.
End csr.

(** X17.  The round trip, for a matrix with at least one row and a row count
    that leaves room for the extra cell of [row_ptrs]: [coo_to_csr] returns a
    row-compressed matrix whose row pointers start at 0, end at the edge
    count and do not decrease, and whose edges are, as a multiset, the edges
    of the input. *)
Lemma coo_to_csr_round_trip (coo : COO) :
  0 < coo_num_rows coo → coo_num_rows coo + 1 < u32_mod →
  is_u32 (coo_num_edges coo) →
  Z.of_nat (length (coo_row_idxs coo)) = coo_num_edges coo →
  Z.of_nat (length (coo_col_idxs coo)) = coo_num_edges coo →
  Forall (λ r, 0 ≤ r < coo_num_rows coo) (coo_row_idxs coo) →
  ∃ csr es',
    coo_to_csr coo = Some csr ∧
    csr_num_rows csr = coo_num_rows coo ∧ csr_num_cols csr = coo_num_cols coo ∧
    csr_num_edges csr = coo_num_edges coo ∧
    Z.of_nat (length (csr_row_ptrs csr)) = coo_num_rows coo + 1 ∧
    Z.of_nat (length (csr_col_idxs csr)) = coo_num_edges coo ∧
    rd (csr_row_ptrs csr) 0 = Some 0 ∧
    rd (csr_row_ptrs csr) (coo_num_rows coo) = Some (coo_num_edges coo) ∧
    (∀ r lo hi, 0 ≤ r < coo_num_rows coo →
       rd (csr_row_ptrs csr) r = Some lo → rd (csr_row_ptrs csr) (r + 1) = Some hi →
       lo ≤ hi) ∧
    csr_edges csr = Some es' ∧ es' ≡ₚ coo_edges coo.
Proof.
  destruct coo as [NR NC m rows cols]. simpl.
  intros HR HR1 Hm Hrl Hcl Hrows.
  destruct (coo_to_csr_run rows cols NR NC m HR HR1 Hm Hrl Hcl Hrows)
    as (rp & ci & Hrun & Hrp & Hci & Hpos).
  destruct (csr_edges_perm rows cols NR NC m HR HR1 Hm Hrl Hcl Hrows rp ci Hrp Hci Hpos)
    as (es' & Hes' & Hperm).
  exists (mkCSR NR NC m rp ci), es'. simpl.
  split; [done|]. split; [done|]. split; [done|]. split; [done|].
  split; [rewrite (tab_length _ _ _ Hrp); lia|].
  unfold is_u32 in Hm.
  split; [lia|].
  split.
  { unfold rd. rewrite decide_True by lia.
    rewrite (tab_lookup _ _ _ _ Hrp) by lia. f_equal.
    apply (B_0 rows cols NR NC m HR HR1 Hm Hrl Hcl Hrows). }
  split.
  { unfold rd. rewrite decide_True by lia.
    rewrite (tab_lookup _ _ _ _ Hrp) by lia. f_equal.
    apply (B_top rows cols NR NC m HR HR1 Hm Hrl Hcl Hrows). }
  split.
  { intros r lo hi Hr. unfold rd. rewrite !decide_True by lia.
    rewrite !(tab_lookup _ _ _ _ Hrp) by lia. intros [= <-] [= <-].
    pose proof (below_mono fst (zip rows cols) (Z.of_nat (Z.to_nat r))
                  (Z.of_nat (Z.to_nat (r + 1))) ltac:(lia)). lia. }
  split; [done|].
  by rewrite coo_edges_full.
Qed.

Example coo_to_csr_round_trip_example :
  ∃ csr es',
    coo_to_csr (mkCOO 4 4 5 [3; 0; 2; 0; 3] [1; 2; 3; 3; 0]) = Some csr ∧
    csr_row_ptrs csr = [0; 2; 2; 3; 5] ∧ csr_col_idxs csr = [2; 3; 3; 1; 0] ∧
    csr_edges csr = Some es' ∧
    es' = [(0, 2); (0, 3); (2, 3); (3, 1); (3, 0)].
Proof. eexists _, _. repeat split. Qed.

Lemma rd_out_of_bounds (a : list Z) i : Z.of_nat (length a) ≤ i → rd a i = None.
Proof.
  intros Hi. unfold rd. case_decide; [|done]. apply lookup_ge_None_2. lia.
Qed.

(** The restoring loop of [coo_to_csr], started above the end of the array,
    fails at its first read. *)
Lemma restore_loop_out_of_bounds (k : nat) (row_ptrs : list Z) :
  (length row_ptrs < k)%nat →
  for_down k (λ row_idx row_ptrs, c ← rd row_ptrs (row_idx - 1); wr row_ptrs row_idx c)
           row_ptrs = None.
Proof.
  intros Hk. destruct k as [|k]; [lia|]. cbn [for_down].
  rewrite rd_out_of_bounds by lia. reflexivity.
Qed.

Lemma no_rows_loop_start : (length [0] < Z.to_nat (u32 (0 - 1)))%nat.
Proof.
  apply Nat2Z.inj_lt. rewrite Z2Nat.id by (by vm_compute). by vm_compute.
Qed.

Lemma coo_to_csr_no_rows num_cols : coo_to_csr (mkCOO 0 num_cols 0 [] []) = None.
Proof.
  unfold coo_to_csr. cbn [coo_num_rows coo_num_cols coo_num_edges coo_row_idxs coo_col_idxs].
  pose proof no_rows_loop_start as Hk.
  generalize dependent (Z.to_nat (u32 (0 - 1))). intros k Hk.
  change (u32 (0 + 1)) with 1. change (calloc 1) with [0]. change (malloc 0) with (@nil Z).
  unfold for_upto. change (Z.to_nat 0) with 0%nat. cbn [for_loop].
  do 2 bind_step. change (wr [0] 0 0) with (Some [0]). do 2 bind_step.
  by rewrite restore_loop_out_of_bounds.
Qed.

(** C6, at the failing input.  For the empty matrix with no rows (an edge
    list whose row indices are vacuously below [num_rows]) the loop that
    restores the row pointers starts at [num_rows - 1], which wraps around
    to 4294967295, and its first iteration reads [row_ptrs[4294967294]] in an
    array of one cell: [coo_to_csr] does not return the empty matrix. *)
Theorem coo_to_csr_no_rows_out_of_bounds :
  coo_edges (mkCOO 0 0 0 [] []) = [] ∧
  Forall (λ r, 0 ≤ r < coo_num_rows (mkCOO 0 0 0 [] [])) (coo_row_idxs (mkCOO 0 0 0 [] [])) ∧
  u32 (coo_num_rows (mkCOO 0 0 0 [] []) - 1) = 4294967295 ∧
  calloc (u32 (coo_num_rows (mkCOO 0 0 0 [] []) + 1)) = [0] ∧
  rd [0] (4294967295 - 1) = None ∧
  coo_to_csr (mkCOO 0 0 0 [] []) = None.
Proof.
  split; [reflexivity|]. split; [constructor|]. split; [reflexivity|].
  split; [reflexivity|]. split.
  - apply rd_out_of_bounds. by vm_compute.
  - apply coo_to_csr_no_rows.
Qed.

(** ** [print_node_levels]: memory safety *)

Lemma merge_node_levels_in_bounds (set : list DPU) (total_nodes len_nl div : Z) :
  0 < len_nl → (len_nl | total_nodes) → 0 < total_nodes < u32_mod → 0 < div →
  (Z.of_nat (length set) - 1) / div * len_nl < u32_mod →
  Forall (λ dpu, is_Some (dpu_wram dpu !! "node_levels")) set →
  ∃ node_levels, merge_node_levels set total_nodes len_nl div = Some node_levels ∧
                 Z.of_nat (length node_levels) = total_nodes.
Proof.
  intros Hlen Hd Htot Hdiv Hov Hsym.
  assert (∀ i, 0 ≤ i < Z.of_nat (length set) → i / div * len_nl < u32_mod) as Hov'.
  { intros i Hi. eapply Z.le_lt_trans; [|exact Hov].
    apply Z.mul_le_mono_nonneg_r; [lia|]. apply Z.div_le_mono; lia. }
  unfold merge_node_levels.
  destruct (dpu_foreach_inv (λ _ a, Z.of_nat (length a) = total_nodes)
              (λ dpu i node_levels,
                 nl_tmp ← dpu_get_mram_array_u32 dpu "node_levels" len_nl;
                 merge_unit total_nodes len_nl div i nl_tmp node_levels)
              set 0 (calloc total_nodes)) as (a & Ha & Hlen'); [| |by eauto].
  - unfold calloc. rewrite length_replicate. lia.
  - intros k dpu a Hk Ha. rewrite !Z.add_0_l.
    destruct (Forall_lookup_1 _ _ _ _ Hsym Hk) as [p Hp].
    unfold dpu_get_mram_array_u32, dpu_copy_from. rewrite Hp. simpl.
    apply lookup_lt_Some in Hk.
    apply merge_unit_in_bounds; try done; try lia.
    + apply Hov'. lia.
    + rewrite length_dpu_copy_from_mram. lia.
Qed.

(** The arguments [bfs_top_down], [bfs_bottom_up] and [bfs_edge] pass to
    [print_node_levels], for [n] units and a graph of [T] nodes after
    padding, when [T * n] fits in 32 bits: [total_nodes] is [T], and [len_nl]
    is a positive divisor of it. *)
Lemma bfs_metadata_call_sites (alg : Algorithm) (prt : Partition) (n T : Z) :
  0 < n → 0 < T → (n | T) → T * n < u32_mod →
  ∃ R C len_nl div,
    grid n prt = Some (R, C) ∧
    bfs_metadata alg prt (T / R) (T / C) n = Some (T, len_nl, div) ∧
    0 < len_nl ∧ (len_nl | T) ∧ 0 < div ∧ (n - 1) / div * len_nl < u32_mod.
Proof.
  intros Hn HT [t Ht] Hov.
  destruct (grid_spec n prt Hn) as (R & C & Hgrid & HRC & HR & HC).
  assert (0 < t) by nia.
  assert (T / R = C * t) as HTR.
  { rewrite Ht, <- HRC. replace (t * (R * C)) with (C * t * R) by lia.
    apply Z.div_mul. lia. }
  assert (T / C = R * t) as HTC.
  { rewrite Ht, <- HRC. replace (t * (R * C)) with (R * t * C) by lia.
    apply Z.div_mul. lia. }
  assert (T = R * (C * t)) as HT1 by lia.
  assert (T = C * (R * t)) as HT2 by lia.
  exists R, C,
    (match alg with TopDown => T / R | _ => T / C end),
    (match alg with TopDown => C | _ => 1 end).
  split; [done|].
  assert (∀ d len, 0 < d → 0 < len ≤ T → (n - 1) / d * len < u32_mod) as Hbound.
  { intros d len Hd Hl.
    assert (0 ≤ (n - 1) / d ≤ n - 1).
    { split; [apply Z.div_pos; lia|]. apply Z.div_le_upper_bound; nia. }
    nia. }
  assert ((match prt with
           | Row => Some (T / C, 1)
           | Col => Some (T / R, n)
           | _2D => '(row_div, col_div) ← nearest_factors n;
                    q ← udiv (u32 (T / R * n)) col_div;
                    Some (q, col_div)
           end) = Some (T, C)) as Hsite.
  { destruct prt; simpl in Hgrid.
    - injection Hgrid as <- <-. by rewrite Z.div_1_r.
    - injection Hgrid as <- <-. by rewrite Z.div_1_r.
    - rewrite Hgrid. simpl. rewrite udiv_Some by lia. simpl. do 2 f_equal.
      rewrite u32_small by (unfold is_u32; nia).
      rewrite HTR. replace (C * t * n) with (T * C) by nia.
      apply Z.div_mul. lia. }
  unfold bfs_metadata. rewrite Hsite. simpl.
  destruct alg; (split; [done|]).
  - rewrite HTR. split; [nia|]. split; [by exists R; lia|]. split; [done|].
    apply Hbound; nia.
  - rewrite HTC. split; [nia|]. split; [by exists C; lia|]. split; [lia|].
    apply Hbound; nia.
  - rewrite HTC. split; [nia|]. split; [by exists C; lia|]. split; [lia|].
    apply Hbound; nia.
Qed.

(** Where the product does not wrap around, the index stays inside the
    array.  When len_nl > 0 divides total_nodes > 0, div is positive and the
    product (i / div) * len_nl stays inside 32 bits for the units of the
    set, the index nreal is below total_nodes for every unit i and entry
    n < len_nl, and the whole merge runs without leaving the [node_levels]
    array.  These conditions hold at every call site, for every algorithm
    and topology, when the padded node count T times the unit count fits in
    32 bits. *)
Theorem nreal_index_in_bounds (set : list DPU) (total_nodes len_nl div : Z) :
  0 < len_nl → (len_nl | total_nodes) → 0 < total_nodes < u32_mod → 0 < div →
  (Z.of_nat (length set) - 1) / div * len_nl < u32_mod →
  Forall (λ dpu, is_Some (dpu_wram dpu !! "node_levels")) set →
  (∀ i n, 0 ≤ i < Z.of_nat (length set) → 0 ≤ n < len_nl →
     ∃ nreal, nreal_index total_nodes len_nl div i n = Some nreal ∧
              0 ≤ nreal < total_nodes) ∧
  (∃ node_levels, merge_node_levels set total_nodes len_nl div = Some node_levels ∧
                  Z.of_nat (length node_levels) = total_nodes) ∧
  (∀ alg prt T, 0 < T → (Z.of_nat (length set) | T) →
     T * Z.of_nat (length set) < u32_mod →
     ∃ R C len_nl' div',
       grid (Z.of_nat (length set)) prt = Some (R, C) ∧
       bfs_metadata alg prt (T / R) (T / C) (Z.of_nat (length set))
       = Some (T, len_nl', div') ∧
       0 < len_nl' ∧ (len_nl' | T) ∧ 0 < div' ∧
       (Z.of_nat (length set) - 1) / div' * len_nl' < u32_mod).
Proof.
  intros Hlen Hd Htot Hdiv Hov Hsym.
  split; [|split].
  - intros i n Hi Hn.
    destruct (nreal_index_spec total_nodes len_nl div i n) as (t & _ & Hr & Hb);
      [done..|lia|done| |by eauto].
    eapply Z.le_lt_trans; [|exact Hov].
    apply Z.mul_le_mono_nonneg_r; [lia|]. apply Z.div_le_mono; lia.
  - by apply merge_node_levels_in_bounds.
  - intros alg prt T HT HnT HovT.
    apply bfs_metadata_call_sites; try done.
    destruct set; [|simpl; lia].
    destruct HnT as [k Hk]. simpl in Hk. lia.
Qed.

Lemma nreal_index_in_bounds_witness :
  (∀ i n, 0 ≤ i < Z.of_nat 2 → 0 ≤ n < 2 →
     ∃ nreal, nreal_index 4 2 1 i n = Some nreal ∧ 0 ≤ nreal < 4) ∧
  (∃ node_levels,
     merge_node_levels
       [mkDPU {[ "node_levels" := 0 ]} (λ _, 1); mkDPU {[ "node_levels" := 8 ]} (λ _, 2)]
       4 2 1 = Some node_levels ∧
     Z.of_nat (length node_levels) = 4) ∧
  (∀ alg prt T, 0 < T → (Z.of_nat 2 | T) → T * Z.of_nat 2 < u32_mod →
     ∃ R C len_nl' div',
       grid (Z.of_nat 2) prt = Some (R, C) ∧
       bfs_metadata alg prt (T / R) (T / C) (Z.of_nat 2) = Some (T, len_nl', div') ∧
       0 < len_nl' ∧ (len_nl' | T) ∧ 0 < div' ∧
       (Z.of_nat 2 - 1) / div' * len_nl' < u32_mod).
Proof.
  apply (nreal_index_in_bounds
           [mkDPU {[ "node_levels" := 0 ]} (λ _, 1); mkDPU {[ "node_levels" := 8 ]} (λ _, 2)]
           4 2 1).
  - lia.
  - exists 2. reflexivity.
  - split; [lia|reflexivity].
  - lia.
  - reflexivity.
  - repeat constructor; eexists; reflexivity.
Defined.

(** ** [ROUND_UP_TO_MULTIPLE] *)

Lemma u32_mod_pos : 0 < u32_mod.
Proof. reflexivity. Qed.

(** The macro, on operands where the rounded value fits. *)
Lemma ROUND_UP_TO_MULTIPLE_spec (x y m : Z) :
  0 < y → (x = 0 → (y | u32_mod)) → 0 ≤ x ≤ m → m < u32_mod → (y | m) →
  x ≤ ROUND_UP_TO_MULTIPLE x y ≤ m ∧ (y | ROUND_UP_TO_MULTIPLE x y).
Proof.
  intros Hy H0 Hx Hm [j ->]. unfold ROUND_UP_TO_MULTIPLE.
  destruct (decide (x = 0)) as [->|Hne].
  - destruct (H0 eq_refl) as [k Hk].
    assert (0 < k) by (pose proof u32_mod_pos; nia).
    assert (u32 (0 - 1) = k * y - 1) as ->.
    { unfold u32. rewrite Hk. symmetry. apply Z.mod_unique with (-1); [left|]; lia. }
    assert ((k * y - 1) / y = k - 1) as ->.
    { symmetry. apply Z.div_unique with (y - 1); lia. }
    replace (k - 1 + 1) with k by lia.
    assert (u32 (u32 k * y) = 0) as ->.
    { unfold u32. rewrite Z.mul_mod_idemp_l by (pose proof u32_mod_pos; lia).
      rewrite <- Hk. apply Z.mod_same. pose proof u32_mod_pos. lia. }
    split; [lia|]. by exists 0.
  - assert (u32 (x - 1) = x - 1) as -> by (apply u32_small; unfold is_u32; lia).
    pose proof (Z.div_mod (x - 1) y ltac:(lia)) as Hdm.
    pose proof (Z.mod_pos_bound (x - 1) y Hy) as Hb.
    set (q := (x - 1) / y) in *.
    assert (0 ≤ q) by (apply Z.div_pos; lia).
    assert (q + 1 ≤ j) by nia.
    assert (u32 (q + 1) = q + 1) as -> by (apply u32_small; unfold is_u32; nia).
    assert (u32 ((q + 1) * y) = (q + 1) * y) as -> by (apply u32_small; unfold is_u32; nia).
    split; [nia|]. by exists (q + 1).
Qed.



(** X1.  [ROUND_UP_TO_MULTIPLE(x, y)] on 32-bit operands is the least
    multiple of y that is not below x, whenever such a multiple fits in 32
    bits; for x = 0 the macro goes through [0 - 1], and the result is 0 when
    y divides 2^32, as 8 and [BLOCK_SIZE] do. *)
Theorem ROUND_UP_TO_MULTIPLE_least (x y m : Z) :
  0 < y → (x = 0 → (y | u32_mod)) → 0 ≤ x ≤ m → m < u32_mod → (y | m) →
  x ≤ ROUND_UP_TO_MULTIPLE x y ≤ m ∧ (y | ROUND_UP_TO_MULTIPLE x y).
Proof. apply ROUND_UP_TO_MULTIPLE_spec. Qed.

Lemma ROUND_UP_TO_MULTIPLE_least_witness :
  33 ≤ ROUND_UP_TO_MULTIPLE 33 BLOCK_SIZE ≤ 64 ∧ (BLOCK_SIZE | ROUND_UP_TO_MULTIPLE 33 BLOCK_SIZE).
Proof.
  apply (ROUND_UP_TO_MULTIPLE_least 33 BLOCK_SIZE 64).
  - reflexivity.
  - intros H. discriminate H.
  - lia.
  - reflexivity.
  - exists 2. reflexivity.
Defined.

(** ** [nearest_factors]: every unit count *)

Lemma nearest_factors_zero : nearest_factors 0 = None.
Proof. reflexivity. Qed.

(** X2.  For every n > 0 [nearest_factors] returns: the two factors
    multiply to n, the first is not above the second, and no other
    factorisation of n is closer (a larger first factor or a smaller second
    one); a square k * k gives (k, k), and a number without a divisor between
    2 and its square root gives (1, n). *)
Theorem nearest_factors_every_count (n : Z) :
  0 < n →
  ∃ R C, nearest_factors n = Some (R, C) ∧ R * C = n ∧ 1 ≤ R ≤ C ∧
         (∀ a b, 0 < a ≤ b → a * b = n → a ≤ R ∧ C ≤ b) ∧
         (∀ k, 0 < k → n = k * k → R = k ∧ C = k) ∧
         ((∀ g, 1 < g → g * g ≤ n → n mod g ≠ 0) → R = 1 ∧ C = n).
Proof.
  intros Hn.
  destruct (nearest_factors_spec n Hn) as (R & C & Hnf & Hmul & Hle & Hsq & Hmax & Hclose).
  exists R, C. split; [done|]. split; [done|]. split; [done|]. split; [done|]. split.
  - intros k Hk ->. destruct (Hclose k k) as [H1 H2]; [lia|done|]. nia.
  - intros Hprime. assert (R = 1); [|nia].
    destruct (decide (R = 1)) as [|Hne]; [done|]. exfalso.
    apply (Hprime R); [lia|nia|].
    rewrite <- Hmul, Z.mul_comm. apply Z.mod_mul. lia.
Qed.

Lemma nearest_factors_every_count_witness :
  ∃ R C, nearest_factors 64 = Some (R, C) ∧ R * C = 64 ∧ 1 ≤ R ≤ C ∧
         (∀ a b, 0 < a ≤ b → a * b = 64 → a ≤ R ∧ C ≤ b) ∧
         (∀ k, 0 < k → 64 = k * k → R = k ∧ C = k) ∧
         ((∀ g, 1 < g → g * g ≤ 64 → 64 mod g ≠ 0) → R = 1 ∧ C = 64).
Proof. apply (nearest_factors_every_count 64). lia. Defined.

(** ** [parse_args]: the options, one by one and together *)

Lemma last_opt_cons c c' x opts :
  last_opt c ((c', x) :: opts)
  = match last_opt c opts with
    | Some y => Some y
    | None => if decide (c' = c) then Some x else None
    end.
Proof.
  unfold last_opt.
  destruct (decide (c' = c)) as [->|Hne].
  - rewrite filter_cons_True by done. rewrite last_cons.
    by destruct (last (filter _ opts)).
  - rewrite filter_cons_False by done. by destruct (last (filter _ opts)).
Qed.

(** One accepted option: what it changes. *)
Lemma parse_opt_accepted c optarg a is_prt_set log a' is_prt_set' :
  parse_opt c optarg a is_prt_set = (log, Some (a', is_prt_set')) →
  (c = "n"%char ∧ u32 (atoi optarg) mod 8 = 0 ∧ is_prt_set' = is_prt_set ∧
   a' = mkArgs (u32 (atoi optarg)) (alg a) (prt a) (bin_path a) (file a) (out_file a)) ∨
  (c = "a"%char ∧ is_prt_set' = is_prt_set ∧
   ∃ al bp p, alg_of_arg optarg = Some (al, bp, p) ∧
     a' = mkArgs (num_dpu a) al (if is_prt_set then prt a else p) (Some bp)
                 (file a) (out_file a)) ∨
  (c = "p"%char ∧ is_prt_set' = true ∧
   ∃ p, prt_of_arg optarg = Some p ∧
     a' = mkArgs (num_dpu a) (alg a) p (bin_path a) (file a) (out_file a)) ∨
  (c = "o"%char ∧ is_prt_set' = is_prt_set ∧
   a' = mkArgs (num_dpu a) (alg a) (prt a) (bin_path a) (file a) (Some optarg)).
Proof.
  unfold parse_opt.
  destruct (decide (c = "n"%char)) as [->|Hn].
  { destruct (bool_decide _) eqn:Hb; simpl; [done|]. intros [= <- <- <-].
    apply bool_decide_eq_false in Hb. left.
    split; [done|]. split; [|done]. by destruct (decide (u32 (atoi optarg) mod 8 = 0)). }
  destruct (decide (c = "a"%char)) as [->|Ha].
  { right. left. unfold alg_of_arg.
    repeat case_decide; try done; injection H as <- <- <-; eauto 10. }
  destruct (decide (c = "p"%char)) as [->|Hp].
  { right. right. left. unfold prt_of_arg.
    repeat case_decide; try done; injection H as <- <- <-; eauto 10. }
  destruct (decide (c = "o"%char)) as [->|Ho]; [|done].
  intros [= <- <- <-]. right. right. right. done.
Qed.

(** The loop over the options: every variable holds what the last option
    that writes it gave, with the one exception of the topology, which [-a]
    writes only as long as no [-p] was seen. *)
Lemma parse_opts_accepted opts a0 b0 log a b :
  parse_opts opts a0 b0 = (log, Some (a, b)) →
  num_dpu a = from_option (λ s, u32 (atoi s)) (num_dpu a0) (last_opt "n" opts) ∧
  (num_dpu a0 mod 8 = 0 → num_dpu a mod 8 = 0) ∧
  match last_opt "a" opts with
  | Some s => ∃ bp p, alg_of_arg s = Some (alg a, bp, p) ∧ bin_path a = Some bp
  | None => alg a = alg a0 ∧ bin_path a = bin_path a0
  end ∧
  match last_opt "p" opts with
  | Some s => prt_of_arg s = Some (prt a)
  | None => if b0 then prt a = prt a0
            else match last_opt "a" opts with
                 | Some s => ∃ al bp, alg_of_arg s = Some (al, bp, prt a)
                 | None => prt a = prt a0
                 end
  end ∧
  b = b0 || bool_decide (is_Some (last_opt "p" opts)) ∧
  out_file a = from_option Some (out_file a0) (last_opt "o" opts) ∧
  file a = file a0.
Proof.
  revert a0 b0 log. induction opts as [|[c x] opts IH]; intros a0 b0 log.
  - simpl. intros [= <- <- <-]. destruct b0; simpl; done.
  - cbn [parse_opts].
    destruct (parse_opt c x a0 b0) as [log1 [[a1 b1]|]] eqn:Hopt; [|done].
    destruct (parse_opts opts a1 b1) as [log2 r] eqn:Hrest.
    intros [= <- ->].
    specialize (IH _ _ _ Hrest) as (Hn & Hn8 & Ha & Hp & Hb & Ho & Hf).
    rewrite !last_opt_cons.
    apply parse_opt_accepted in Hopt
      as [(-> & H8 & -> & ->)|[(-> & -> & al & bp & p & Halg & ->)
         |[(-> & -> & p & Hprt & ->)|(-> & -> & ->)]]];
      simpl in *;
      destruct (last_opt "n" opts), (last_opt "a" opts), (last_opt "p" opts),
        (last_opt "o" opts); simpl in *;
      repeat (rewrite decide_True by done); repeat (rewrite decide_False by done);
      destruct b0; simpl in *; destruct_and?; subst; repeat split; eauto.
Qed.

(** X3.  When [parse_args] returns, every variable holds what the last
    option that writes it gave, or its initial value: the unit count comes
    from the last [-n], the algorithm and the kernel binary from the last
    [-a], the output file from the last [-o] (["/dev/null"] without one).
    The topology is the one of the last [-p], wherever the [-a] options
    stand; only without any [-p] it is the default of the last [-a].  There
    is exactly one operand, the graph file. *)
Theorem parse_args_last_option_wins opts operands a0 log a :
  parse_args opts operands a0 = (log, Some a) →
  num_dpu a = from_option (λ s, u32 (atoi s)) (num_dpu a0) (last_opt "n" opts) ∧
  match last_opt "a" opts with
  | Some s => ∃ bp p, alg_of_arg s = Some (alg a, bp, p) ∧ bin_path a = Some bp
  | None => alg a = alg a0 ∧ bin_path a = bin_path a0
  end ∧
  match last_opt "p" opts with
  | Some s => prt_of_arg s = Some (prt a)
  | None => match last_opt "a" opts with
            | Some s => ∃ al bp, alg_of_arg s = Some (al, bp, prt a)
            | None => prt a = prt a0
            end
  end ∧
  out_file a
  = Some (default "/dev/null" (from_option Some (out_file a0) (last_opt "o" opts))) ∧
  ∃ f, operands = [f] ∧ file a = Some f.
Proof.
  unfold parse_args.
  destruct (parse_opts opts a0 false) as [log1 [[a1 b1]|]] eqn:Hopts; [|done].
  destruct (parse_opts_accepted _ _ _ _ _ _ Hopts) as (Hn & _ & Ha & Hp & _ & Ho & _).
  destruct operands as [|f [|f' operands]]; [done| |done].
  intros [= <- <-]. simpl. rewrite <- Ho.
  split; [done|]. split; [done|]. split; [done|]. split; [done|]. eauto.
Qed.

Lemma parse_args_last_option_wins_witness :
  let a := mkArgs 16 TopDown Col (Some "bin/top-down-dma") (Some "graph.txt")
                  (Some "/dev/null") in
  let a0 := mkArgs 8 TopDown Row None None None in
  let opts := [("p"%char, "col"); ("n"%char, "16"); ("a"%char, "top")] in
  num_dpu a = from_option (λ s, u32 (atoi s)) (num_dpu a0) (last_opt "n" opts) ∧
  match last_opt "a" opts with
  | Some s => ∃ bp p, alg_of_arg s = Some (alg a, bp, p) ∧ bin_path a = Some bp
  | None => alg a = alg a0 ∧ bin_path a = bin_path a0
  end ∧
  match last_opt "p" opts with
  | Some s => prt_of_arg s = Some (prt a)
  | None => match last_opt "a" opts with
            | Some s => ∃ al bp, alg_of_arg s = Some (al, bp, prt a)
            | None => prt a = prt a0
            end
  end ∧
  out_file a
  = Some (default "/dev/null" (from_option Some (out_file a0) (last_opt "o" opts))) ∧
  ∃ f, ["graph.txt"] = [f] ∧ file a = Some f.
Proof.
  intros a a0 opts.
  apply (parse_args_last_option_wins opts ["graph.txt"] a0
           [Log INFO "Partitioning: 1D Column (destination-nodes/neighbors).";
            Log INFO "Algorithm: Vertex-centric Top-Down BFS."] a).
  reflexivity.
Defined.

(** X4.  Without an [-a] option [parse_args] never writes [bin_path], which
    [main] declares without a value: whatever the other options are, [main]
    either exits with status 1 or hands [dpu_load] that unset path, the
    algorithm staying the top-down default. *)
Theorem main_startup_without_algorithm opts operands :
  last_opt "a" opts = None →
  (∃ log, main_startup opts operands = log ++ [ExitProcess 1]) ∨
  (∃ log a, parse_args opts operands (mkArgs 8 TopDown Row None None None) = (log, Some a) ∧
            alg a = TopDown ∧
            ∃ log', main_startup opts operands = log' ++ [DpuAlloc (num_dpu a); DpuLoad None]).
Proof.
  intros Hno. unfold main_startup.
  destruct (parse_args opts operands _) as [log [a|]] eqn:Hargs; [|by eauto].
  right. exists log, a. split; [done|].
  assert (alg a = TopDown ∧ bin_path a = None) as [-> ->].
  { unfold parse_args in Hargs.
    destruct (parse_opts opts _ false) as [log1 [[a1 b1]|]] eqn:Hopts; [|done].
    destruct (parse_opts_accepted _ _ _ _ _ _ Hopts) as (_ & _ & Ha & _).
    rewrite Hno in Ha.
    destruct operands as [|f [|f' operands]]; [done| |done].
    by injection Hargs as <- <-. }
  split; [done|].
  eexists (log ++ [_; _]). by rewrite <- app_assoc.
Qed.

Lemma main_startup_without_algorithm_witness :
  (∃ log, main_startup [("n"%char, "16")] ["graph.txt"] = log ++ [ExitProcess 1]) ∨
  (∃ log a, parse_args [("n"%char, "16")] ["graph.txt"] (mkArgs 8 TopDown Row None None None)
            = (log, Some a) ∧
            alg a = TopDown ∧
            ∃ log', main_startup [("n"%char, "16")] ["graph.txt"]
                    = log' ++ [DpuAlloc (num_dpu a); DpuLoad None]).
Proof. apply (main_startup_without_algorithm [("n"%char, "16")] ["graph.txt"]). reflexivity. Defined.

(** [parse_args] logs messages and does nothing else. *)
Lemma parse_opt_log c optarg a b :
  Forall (λ e, ∃ l msg, e = Log l msg) (parse_opt c optarg a b).1.
Proof.
  unfold parse_opt. repeat case_match; simpl; repeat constructor; eauto.
Qed.

Lemma parse_opts_log opts a b :
  Forall (λ e, ∃ l msg, e = Log l msg) (parse_opts opts a b).1.
Proof.
  revert a b. induction opts as [|[c x] opts IH]; intros a b; simpl; [constructor|].
  pose proof (parse_opt_log c x a b) as H1.
  destruct (parse_opt c x a b) as [log1 [[a1 b1]|]]; [|done].
  specialize (IH a1 b1). destruct (parse_opts opts a1 b1) as [log2 r]. simpl in *.
  by apply Forall_app.
Qed.

Lemma parse_args_log opts operands a :
  Forall (λ e, ∃ l msg, e = Log l msg) (parse_args opts operands a).1.
Proof.
  unfold parse_args. pose proof (parse_opts_log opts a false) as H.
  destruct (parse_opts opts a false) as [log [[a1 b1]|]]; [|done]. simpl in H.
  destruct operands as [|f [|f' operands]]; simpl; [|done|];
    (apply Forall_app; split; [done|]; repeat constructor; eauto).
Qed.

(** X5.  Whatever the command line, the unit count [main] allocates is a
    32-bit multiple of 8: the initial 8, or the value of an [-n] that passed
    the check. *)
Theorem main_startup_unit_count opts operands k :
  DpuAlloc k ∈ main_startup opts operands → is_u32 k ∧ k mod 8 = 0.
Proof.
  unfold main_startup. pose proof (parse_args_log opts operands (mkArgs 8 TopDown Row None None None)) as Hlog.
  unfold parse_args in *.
  destruct (parse_opts opts _ false) as [log1 [[a1 b1]|]] eqn:Hopts.
  - destruct (parse_opts_accepted _ _ _ _ _ _ Hopts) as (Hn & Hn8 & _).
    assert (is_u32 (num_dpu a1) ∧ num_dpu a1 mod 8 = 0) as Hk.
    { split; [|by apply Hn8]. rewrite Hn.
      destruct (last_opt "n" opts); simpl; [|done].
      unfold is_u32, u32. apply Z.mod_pos_bound. reflexivity. }
    rewrite Forall_forall in Hlog.
    destruct operands as [|f [|f' operands]]; simpl in *.
    + intros [H|H]%elem_of_app.
      * apply Hlog in H as (? & ? & ?). done.
      * apply list_elem_of_singleton in H. done.
    + intros [H|H]%elem_of_app.
      * apply Hlog in H as (? & ? & ?). done.
      * repeat (apply elem_of_cons in H as [H|H]; [try done|]).
        -- by injection H as ->.
        -- by apply elem_of_nil in H.
    + intros [H|H]%elem_of_app.
      * apply Hlog in H as (? & ? & ?). done.
      * apply list_elem_of_singleton in H. done.
  - simpl in *. rewrite Forall_forall in Hlog.
    intros [H|H]%elem_of_app.
    + apply Hlog in H as (? & ? & ?). done.
    + apply list_elem_of_singleton in H. done.
Qed.

Lemma main_startup_unit_count_witness : is_u32 16 ∧ 16 mod 8 = 0.
Proof.
  apply (main_startup_unit_count [("n"%char, "16")] ["graph.txt"] 16).
  vm_compute. repeat constructor.
Defined.

(** ** The heap of a unit: what is stored is what is read *)

Lemma mram_store_outside (ws : list Z) m addr a :
  (∀ j, 0 ≤ j < Z.of_nat (length ws) → a ≠ addr + 4 * j) →
  mram_store m addr ws a = m a.
Proof.
  revert m addr. induction ws as [|w ws IH]; intros m addr Ha; [done|].
  cbn [mram_store]. rewrite IH.
  - rewrite decide_False; [done|]. specialize (Ha 0). simpl in Ha. lia.
  - intros j Hj. specialize (Ha (j + 1)). simpl in Ha. lia.
Qed.

Lemma mram_store_inside (ws : list Z) m addr (k : nat) w :
  ws !! k = Some w → mram_store m addr ws (addr + 4 * Z.of_nat k) = w.
Proof.
  revert m addr k. induction ws as [|w0 ws IH]; intros m addr k Hk; [done|].
  cbn [mram_store]. destruct k as [|k]; simpl in Hk.
  - injection Hk as ->. rewrite mram_store_outside by (intros; lia).
    by rewrite decide_True by lia.
  - replace (addr + 4 * Z.of_nat (S k)) with (addr + 4 + 4 * Z.of_nat k) by lia.
    by apply IH.
Qed.

Lemma dpu_copy_from_mram_stored dpu p (ws : list Z) L :
  0 ≤ L ≤ Z.of_nat (length ws) →
  dpu_copy_from_mram (dpu_copy_to_mram dpu p ws) p L = take (Z.to_nat L) ws.
Proof.
  intros HL. unfold dpu_copy_from_mram, dpu_copy_to_mram. simpl.
  apply list_eq. intros k. rewrite list_lookup_fmap.
  destruct (decide (k < Z.to_nat L)%nat) as [Hk|Hk].
  - rewrite lookup_seqZ_lt by lia. simpl. rewrite lookup_take_lt by done.
    destruct (lookup_lt_is_Some_2 ws k) as [w Hw]; [lia|].
    rewrite Hw. f_equal. rewrite Z.add_0_l. by apply mram_store_inside.
  - rewrite lookup_seqZ_ge by lia. simpl. symmetry. apply lookup_ge_None_2.
    rewrite length_take. lia.
Qed.

Lemma dpu_copy_from_mram_frame dpu dpu' p L :
  (∀ a, p ≤ a < p + 4 * L → dpu_mram dpu' a = dpu_mram dpu a) →
  dpu_copy_from_mram dpu' p L = dpu_copy_from_mram dpu p L.
Proof.
  intros H. unfold dpu_copy_from_mram. apply list_fmap_ext.
  intros i k Hk. apply lookup_seqZ in Hk. apply H. lia.
Qed.

Lemma insert_size_words L :
  is_u32 L → insert_size L = 4 * (L + L mod 2) ∧ insert_size L / 4 = L + L mod 2.
Proof.
  intros HL. rewrite insert_size_u32 by done.
  assert ((4 * L) mod 8 = 4 * (L mod 2)) as -> by (apply (Z.mul_mod_distr_l L 2 4); lia).
  split; [lia|].
  replace (4 * L + 4 * (L mod 2)) with ((L + L mod 2) * 4) by lia.
  apply Z.div_mul. lia.
Qed.

Lemma host_words_fits (src : list Z) slack L :
  is_u32 L → L ≤ Z.of_nat (length src) →
  ∃ ws, host_words src slack (insert_size L / 4) = Some ws ∧
        Z.of_nat (length ws) = L + L mod 2 ∧
        take (Z.to_nat L) ws = take (Z.to_nat L) src ∧
        (L mod 2 = 1 → Z.of_nat (length src) = L → ws = src ++ [slack]).
Proof.
  intros HL Hlen. destruct (insert_size_words L HL) as [_ ->].
  pose proof (Z.mod_pos_bound L 2 ltac:(lia)) as Hm. unfold is_u32 in HL.
  unfold host_words.
  destruct (decide (L + L mod 2 ≤ Z.of_nat (length src))) as [Hd|Hd].
  - eexists. split; [done|]. rewrite length_take. split; [lia|].
    split; [|lia]. rewrite take_take. f_equal. lia.
  - rewrite decide_True by lia. eexists. split; [done|].
    rewrite length_app. simpl. split; [lia|]. split; [|done].
    by rewrite take_app_le by lia.
Qed.

Lemma inserted_length op dpu : insert_fits dpu op → Z.of_nat (length (inserted op)) = op.1.2.
Proof.
  destruct op as [[[name src] L] slack]. intros (_ & HL & Hsrc). simpl in *.
  unfold inserted, is_u32 in *. simpl. rewrite length_take.
  destruct src; simpl; [lia|]. unfold calloc. rewrite length_replicate. lia.
Qed.

Lemma insert_ok_fits dpu op : insert_ok dpu op → insert_fits dpu op.
Proof.
  destruct op as [[[name src] L] slack]. intros (? & ? & Hsrc).
  split; [done|]. split; [done|]. simpl in *. destruct src; [lia|done].
Qed.

(** One insertion, in full: the symbol receives the old end of the heap, the
    array is stored there, the end moves by [insert_size], and nothing else
    changes. *)
Lemma dpu_insert_mram_array_u32_stores bits dpu name src L slack p :
  dpu_copy_from dpu "p_used_mram_end" = Some p →
  insert_fits dpu (name, src, L, slack) → name ≠ "p_used_mram_end" →
  ∃ dpu', dpu_insert_mram_array_u32 bits dpu name src L slack = Some dpu' ∧
          dpu_copy_from dpu' name = Some p ∧
          dpu_copy_from dpu' "p_used_mram_end" = Some (mram_addr bits (p + insert_size L)) ∧
          (∀ s, s ≠ name → s ≠ "p_used_mram_end" → dpu_wram dpu' !! s = dpu_wram dpu !! s) ∧
          (∀ s, is_Some (dpu_wram dpu' !! s) ↔ is_Some (dpu_wram dpu !! s)) ∧
          (∀ a, a < p ∨ p + insert_size L ≤ a → dpu_mram dpu' a = dpu_mram dpu a) ∧
          dpu_copy_from_mram dpu' p L = inserted (name, src, L, slack) ∧
          (L mod 2 = 1 → Z.of_nat (length (default (calloc L) src)) = L →
           dpu_mram dpu' (p + 4 * L) = slack).
Proof.
  intros Hp Hok Hname.
  destruct Hok as (Hsym & HL & Hsrc). simpl in *.
  unfold dpu_insert_mram_array_u32. rewrite Hp. simpl.
  rewrite dpu_copy_to_Some by done. simpl.
  change (match src with Some a => a | None => calloc L end) with (default (calloc L) src).
  set (buf := default (calloc L) src) in *.
  assert (L ≤ Z.of_nat (length buf)) as Hbuf.
  { unfold buf. destruct src; simpl; [done|]. unfold calloc, is_u32 in *.
    rewrite length_replicate. lia. }
  destruct (host_words_fits buf slack L HL Hbuf) as (ws & -> & Hws & Htake & Hodd).
  simpl.
  destruct (insert_size_words L HL) as [Hsize _].
  pose proof (Z.mod_pos_bound L 2 ltac:(lia)) as Hm2.
  unfold dpu_copy_from in Hp.
  rewrite dpu_copy_to_Some by (simpl; rewrite lookup_insert_is_Some'; right; eauto).
  eexists. split; [done|]. unfold dpu_copy_from. simpl.
  split; [by rewrite lookup_insert_ne, lookup_insert_eq by done|].
  split; [by rewrite lookup_insert_eq|].
  split; [by intros s ? ?; rewrite !lookup_insert_ne by done|].
  split.
  { intros s. rewrite !lookup_insert_is_Some'. split; [|tauto].
    intros [<-|[<-|?]]; eauto. }
  split.
  { intros a Ha. apply mram_store_outside. intros j Hj. lia. }
  split.
  - unfold inserted. simpl. fold buf. rewrite <- Htake.
    apply (dpu_copy_from_mram_stored (mkDPU _ (dpu_mram dpu)) p ws L). unfold is_u32 in HL. lia.
  - intros Ho Hlen. rewrite (Hodd Ho Hlen).
    replace L with (Z.of_nat (length buf)) at 1 by done.
    apply mram_store_inside.
    rewrite lookup_app_r by lia. by rewrite Nat.sub_diag.
Qed.

Lemma insert_size_nonneg L : 0 ≤ insert_size L.
Proof. unfold insert_size, usize. apply Z.mod_pos_bound. reflexivity. Qed.

Lemma mram_bytes_nonneg ops : 0 ≤ mram_bytes ops.
Proof.
  induction ops as [|op ops IH]; simpl; [done|].
  pose proof (insert_size_nonneg op.1.2). lia.
Qed.

Lemma mram_addr_small bits x : 0 ≤ x < 2 ^ bits → mram_addr bits x = x.
Proof. apply Z.mod_small. Qed.

(** A sequence of insertions under distinct symbols, on a heap with room for
    them: the arrays lie one after the other from the old end of the heap,
    each symbol holds the address of its array, and nothing outside the new
    part of the heap changes. *)
Lemma dpu_insert_all_stores bits dpu ops p :
  dpu_copy_from dpu "p_used_mram_end" = Some p → 0 ≤ p →
  p + mram_bytes ops < 2 ^ bits →
  NoDup ("p_used_mram_end" :: ((λ op, op.1.1.1) <$> ops)) →
  Forall (insert_fits dpu) ops →
  ∃ dpu', dpu_insert_all bits dpu ops = Some dpu' ∧
    dpu_copy_from dpu' "p_used_mram_end" = Some (p + mram_bytes ops) ∧
    (∀ s, s ∉ ((λ op, op.1.1.1) <$> ops) → s ≠ "p_used_mram_end" →
          dpu_wram dpu' !! s = dpu_wram dpu !! s) ∧
    (∀ a, a < p ∨ p + mram_bytes ops ≤ a → dpu_mram dpu' a = dpu_mram dpu a) ∧
    ∀ k op, ops !! k = Some op →
      dpu_copy_from dpu' op.1.1.1 = Some (p + mram_bytes (take k ops)) ∧
      dpu_copy_from_mram dpu' (p + mram_bytes (take k ops)) op.1.2 = inserted op.
Proof.
  revert dpu p. induction ops as [|[[[name src] L] slack] ops IH];
    intros dpu p Hp Hp0 Hroom Hnd Hok.
  - exists dpu. simpl. rewrite Z.add_0_r. done.
  - apply Forall_cons in Hok as [Hop Hok]. simpl in Hroom, Hnd.
    apply NoDup_cons in Hnd as [Hend Hnd]. apply not_elem_of_cons in Hend as [Hend1 Hend].
    apply NoDup_cons in Hnd as [Hname Hnd].
    pose proof (insert_size_nonneg L) as HsL. pose proof (mram_bytes_nonneg ops) as Hrest.
    destruct (dpu_insert_mram_array_u32_stores bits dpu name src L slack p Hp Hop)
      as (dpu1 & Hins & Hsym1 & Hp1 & Hwram1 & Hdom1 & Hmram1 & Hdata1 & _); [done|].
    rewrite mram_addr_small in Hp1 by lia.
    destruct (IH dpu1 (p + insert_size L)) as (dpu' & Hall & Hp' & Hwram' & Hmram' & Hops);
      [done|lia|lia|by apply NoDup_cons| |].
    { eapply Forall_impl; [exact Hok|].
      intros op (? & ? & ?). split; [|done]. by apply Hdom1. }
    exists dpu'. cbn [dpu_insert_all]. rewrite Hins. simpl.
    split; [done|]. split; [rewrite Hp'; f_equal; lia|].
    split.
    { intros s Hs Hs'. apply not_elem_of_cons in Hs as [Hs1 Hs].
      rewrite Hwram' by done. by apply Hwram1. }
    split.
    { intros a Ha. rewrite Hmram' by lia. apply Hmram1. lia. }
    intros k op Hk. destruct k as [|k]; simpl in Hk.
    + injection Hk as <-. simpl. rewrite Z.add_0_r. split.
      * unfold dpu_copy_from in *. by rewrite Hwram'.
      * rewrite <- Hdata1. apply dpu_copy_from_mram_frame.
        intros a Ha. apply Hmram'. left.
        destruct Hop as (_ & HL & _). simpl in HL.
        destruct (insert_size_words L HL) as [Hs _].
        pose proof (Z.mod_pos_bound L 2 ltac:(lia)). lia.
    + destruct (Hops k op Hk) as [Hs Hd]. simpl.
      replace (p + (insert_size L + mram_bytes (take k ops)))
        with (p + insert_size L + mram_bytes (take k ops)) by lia.
      done.
Qed.

(** X6.  Arrays inserted one after the other under distinct symbols, on a
    heap with room for them, can all be read back at the end: every symbol
    holds the address of its array, which is the old end of the heap plus the
    sizes of the arrays inserted before, and [dpu_get_mram_array_u32] returns
    the [length] words that were inserted (zeros for a null source). *)
Theorem dpu_insert_all_read_back bits dpu ops p :
  dpu_copy_from dpu "p_used_mram_end" = Some p → 0 ≤ p →
  p + mram_bytes ops < 2 ^ bits →
  NoDup ("p_used_mram_end" :: ((λ op, op.1.1.1) <$> ops)) →
  Forall (insert_fits dpu) ops →
  ∃ dpu', dpu_insert_all bits dpu ops = Some dpu' ∧
    ∀ (k : nat) name src L slack, ops !! k = Some (name, src, L, slack) →
      dpu_copy_from dpu' name = Some (p + mram_bytes (take k ops)) ∧
      dpu_get_mram_array_u32 dpu' name L
      = Some (take (Z.to_nat L) (default (calloc L) src)).
Proof.
  intros Hp Hp0 Hroom Hnd Hok.
  destruct (dpu_insert_all_stores bits dpu ops p Hp Hp0 Hroom Hnd Hok)
    as (dpu' & Hall & _ & _ & _ & Hops).
  exists dpu'. split; [done|]. intros k name src L slack Hk.
  destruct (Hops k _ Hk) as [Hs Hd]. simpl in *. split; [done|].
  unfold dpu_get_mram_array_u32. rewrite Hs. simpl. by rewrite Hd.
Qed.

Lemma dpu_insert_all_read_back_witness :
  let dpu := mkDPU {[ "p_used_mram_end" := 16; "visited" := 0; "edges" := 0 ]} (λ _, 7) in
  let ops := [("visited", None, 2, 0); ("edges", Some [4; 5; 6], 3, 9)] in
  ∃ dpu', dpu_insert_all 32 dpu ops = Some dpu' ∧
    ∀ (k : nat) name src L slack, ops !! k = Some (name, src, L, slack) →
      dpu_copy_from dpu' name = Some (16 + mram_bytes (take k ops)) ∧
      dpu_get_mram_array_u32 dpu' name L
      = Some (take (Z.to_nat L) (default (calloc L) src)).
Proof.
  intros dpu ops. apply (dpu_insert_all_read_back 32 dpu ops 16).
  - reflexivity.
  - lia.
  - reflexivity.
  - apply (bool_decide_unpack _). vm_compute. exact I.
  - repeat constructor; simpl; try (eexists; reflexivity); try reflexivity; try discriminate; try lia.
Defined.

(** X7.  An array of odd length makes [dpu_insert_mram_array_u32] copy one
    word more than the array holds: the size is rounded to 4 * (L + 1) bytes,
    and the word stored behind the array in MRAM is the word that follows the
    source buffer in host memory. *)
Theorem dpu_insert_odd_length_reads_past_end bits dpu name src L slack p :
  dpu_copy_from dpu "p_used_mram_end" = Some p →
  insert_ok dpu (name, src, L, slack) → name ≠ "p_used_mram_end" → L mod 2 = 1 →
  ∃ dpu', dpu_insert_mram_array_u32 bits dpu name src L slack = Some dpu' ∧
          insert_size L = 4 * (L + 1) ∧
          host_words (default (calloc L) src) slack (insert_size L / 4)
          = Some (default (calloc L) src ++ [slack]) ∧
          dpu_mram dpu' (p + 4 * L) = slack.
Proof.
  intros Hp Hok Hname Hodd.
  destruct (dpu_insert_mram_array_u32_stores bits dpu name src L slack p Hp
              (insert_ok_fits _ _ Hok) Hname)
    as (dpu' & Hins & _ & _ & _ & _ & _ & _ & Hslack).
  exists dpu'. split; [done|].
  destruct Hok as (_ & HL & Hsrc). simpl in HL, Hsrc.
  assert (Z.of_nat (length (default (calloc L) src)) = L) as Hlen.
  { destruct src; simpl; [done|]. unfold calloc, is_u32 in *.
    rewrite length_replicate. lia. }
  destruct (insert_size_words L HL) as [Hs _].
  split; [lia|]. split; [|by apply Hslack].
  destruct (host_words_fits (default (calloc L) src) slack L HL ltac:(lia))
    as (ws & -> & _ & _ & Hws).
  by rewrite Hws.
Qed.

Lemma dpu_insert_odd_length_reads_past_end_witness :
  ∃ dpu', dpu_insert_mram_array_u32 32
            (mkDPU {[ "p_used_mram_end" := 16; "node_ptrs" := 0 ]} (λ _, 7))
            "node_ptrs" (Some [0; 2; 5]) 3 99 = Some dpu' ∧
          insert_size 3 = 4 * (3 + 1) ∧
          host_words (default (calloc 3) (Some [0; 2; 5])) 99 (insert_size 3 / 4)
          = Some (default (calloc 3) (Some [0; 2; 5]) ++ [99]) ∧
          dpu_mram dpu' (16 + 4 * 3) = 99.
Proof.
  apply (dpu_insert_odd_length_reads_past_end 32
           (mkDPU {[ "p_used_mram_end" := 16; "node_ptrs" := 0 ]} (λ _, 7))
           "node_ptrs" (Some [0; 2; 5]) 3 99 16).
  - reflexivity.
  - split; [eexists; reflexivity|]. simpl. split; [split; [lia|reflexivity]|reflexivity].
  - discriminate.
  - reflexivity.
Defined.

(** X8.  [dpu_set_mram_array_u32] followed by [dpu_get_mram_array_u32] on
    the same symbol and length returns the words that were set; the symbols
    and the rest of the MRAM are untouched.  On a symbol the unit does not
    have, both fail. *)
Theorem dpu_set_get_mram_array_u32 dpu name (src : list Z) L p :
  dpu_copy_from dpu name = Some p → 0 ≤ L ≤ Z.of_nat (length src) →
  ∃ dpu', dpu_set_mram_array_u32 dpu name src L = Some dpu' ∧
          dpu_get_mram_array_u32 dpu' name L = Some (take (Z.to_nat L) src) ∧
          dpu_wram dpu' = dpu_wram dpu ∧
          (∀ a, a < p ∨ p + 4 * L ≤ a → dpu_mram dpu' a = dpu_mram dpu a) ∧
          ∀ other, dpu_copy_from dpu other = None →
                   dpu_set_mram_array_u32 dpu other src L = None ∧
                   dpu_get_mram_array_u32 dpu other L = None.
Proof.
  intros Hp HL. unfold dpu_set_mram_array_u32, dpu_get_mram_array_u32.
  rewrite Hp. simpl. rewrite decide_True by done. simpl.
  eexists. split; [done|]. unfold dpu_copy_from in *. simpl. rewrite Hp. simpl.
  split.
  { f_equal.
    rewrite (dpu_copy_from_mram_stored dpu p (take (Z.to_nat L) src) L)
      by (rewrite length_take; lia).
    by rewrite take_take, Nat.min_id. }
  split; [done|]. split.
  - intros a Ha. apply mram_store_outside. intros j Hj.
    rewrite length_take in Hj. lia.
  - intros other ->. done.
Qed.

Lemma dpu_set_get_mram_array_u32_witness :
  ∃ dpu', dpu_set_mram_array_u32 (mkDPU {[ "edges" := 8 ]} (λ _, 7)) "edges" [4; 5; 6] 2
          = Some dpu' ∧
          dpu_get_mram_array_u32 dpu' "edges" 2 = Some (take (Z.to_nat 2) [4; 5; 6]) ∧
          dpu_wram dpu' = dpu_wram (mkDPU {[ "edges" := 8 ]} (λ _, 7)) ∧
          (∀ a, a < 8 ∨ 8 + 4 * 2 ≤ a →
                dpu_mram dpu' a = dpu_mram (mkDPU {[ "edges" := 8 ]} (λ _, 7)) a) ∧
          ∀ other, dpu_copy_from (mkDPU {[ "edges" := 8 ]} (λ _, 7)) other = None →
                   dpu_set_mram_array_u32 (mkDPU {[ "edges" := 8 ]} (λ _, 7)) other [4; 5; 6] 2
                   = None ∧
                   dpu_get_mram_array_u32 (mkDPU {[ "edges" := 8 ]} (λ _, 7)) other 2 = None.
Proof.
  apply (dpu_set_get_mram_array_u32 (mkDPU {[ "edges" := 8 ]} (λ _, 7)) "edges" [4; 5; 6] 2 8).
  - reflexivity.
  - simpl. lia.
Defined.

(** ** [bfs_top_down]: the population of the MRAM *)

(** A length rounded up to [BLOCK_SIZE] is a 32-bit multiple of it, whatever
    the arithmetic did. *)
Lemma ROUND_UP_TO_MULTIPLE_block x :
  is_u32 (ROUND_UP_TO_MULTIPLE x BLOCK_SIZE) ∧ ROUND_UP_TO_MULTIPLE x BLOCK_SIZE mod 2 = 0.
Proof.
  unfold ROUND_UP_TO_MULTIPLE, BLOCK_SIZE. set (a := u32 (u32 (x - 1) / 32 + 1)).
  split; [unfold is_u32, u32; apply Z.mod_pos_bound; reflexivity|].
  unfold u32, u32_mod. change (2 ^ 32) with (2 ^ 27 * 32).
  rewrite Z.mul_mod_distr_r by lia.
  replace (a mod 2 ^ 27 * 32) with (a mod 2 ^ 27 * 16 * 2) by lia.
  apply Z.mod_mul. lia.
Qed.

Lemma insert_size_even L : is_u32 L → L mod 2 = 0 → insert_size L = 4 * L.
Proof. intros HL H2. destruct (insert_size_words L HL) as [-> _]. lia. Qed.

Lemma dpu_set_u32_Some dpu name v :
  is_Some (dpu_wram dpu !! name) →
  dpu_set_u32 dpu name v = Some (mkDPU (<[name := v]> (dpu_wram dpu)) (dpu_mram dpu)).
Proof. apply dpu_copy_to_Some. Qed.

Ltac in_list := repeat first [apply list_elem_of_here | apply list_elem_of_further].

Section populate.
Variables (bits : Z) (slack : string → Z).
Variables (frontier : list Z) (num_nodes len_nf len_cf len_nl col_div : Z).

Let lcf := ROUND_UP_TO_MULTIPLE len_cf BLOCK_SIZE.
Let lnf := ROUND_UP_TO_MULTIPLE len_nf BLOCK_SIZE.
Let lnl := ROUND_UP_TO_MULTIPLE len_nl BLOCK_SIZE.

Hypothesis Hcol : col_div ≠ 0.
Hypothesis Hlnf : lnf ≤ Z.of_nat (length frontier).
Hypothesis Hlcf : lcf ≤ Z.of_nat (length frontier).

Lemma take_calloc n : take (Z.to_nat n) (calloc n) = replicate (Z.to_nat n) 0.
Proof using. unfold calloc. by rewrite take_replicate, Nat.min_id. Qed.

Lemma bfs_top_down_populate_spec csr_i dpu i p :
  0 ≤ p → populate_ready bits num_nodes len_nf len_cf len_nl p dpu csr_i →
  ∃ dpu', bfs_top_down_populate bits slack frontier csr_i num_nodes len_nf len_cf len_nl
            col_div dpu i = Some (dpu', p + 4 * lnf, p + 8 * lnf) ∧
          populated frontier num_nodes len_nf len_cf len_nl col_div p csr_i i dpu'.
Proof using All.
  intros Hp0 (Hsyms & Hp & Hrp & Hne & Hci & Hroom). fold lnf lcf lnl in Hroom.
  destruct (ROUND_UP_TO_MULTIPLE_block len_nf) as [Hunf Henf].
  destruct (ROUND_UP_TO_MULTIPLE_block len_cf) as [Hucf Hecf].
  destruct (ROUND_UP_TO_MULTIPLE_block len_nl) as [Hunl Henl].
  fold lnf in Hunf, Henf. fold lcf in Hucf, Hecf. fold lnl in Hunl, Henl.
  assert (∀ s, s ∈ top_down_symbols → is_Some (dpu_wram dpu !! s)) as Hsym.
  { by apply Forall_forall. }
  unfold bfs_top_down_populate. fold lnf lcf lnl.
  rewrite dpu_set_u32_Some by (apply Hsym; unfold top_down_symbols; in_list).
  cbn [mbind option_bind].
  rewrite dpu_set_u32_Some
    by (simpl; rewrite lookup_insert_is_Some'; right; apply Hsym;
        unfold top_down_symbols; in_list).
  cbn [mbind option_bind].
  rewrite dpu_set_u32_Some
    by (simpl; rewrite !lookup_insert_is_Some'; right; right; apply Hsym;
        unfold top_down_symbols; in_list).
  cbn [mbind option_bind].
  set (dpu3 := mkDPU _ _).
  assert (∀ s, is_Some (dpu_wram dpu3 !! s) ↔ is_Some (dpu_wram dpu !! s)) as Hdom3.
  { intros s. unfold dpu3. simpl. rewrite !lookup_insert_is_Some'.
    split; [|tauto]. intros [<-|[<-|[<-|?]]]; [..|done];
      apply Hsym; unfold top_down_symbols; in_list. }
  unfold umod. rewrite (decide_False (P := col_div = 0)) by done. cbn [mbind option_bind].
  set (nf := if decide (i mod col_div = 0) then Some frontier else None).
  set (cf := if decide (i < col_div) then Some frontier else None).
  set (ops := [("visited", None, lnf, slack "visited");
               ("next_frontier", nf, lnf, slack "next_frontier");
               ("curr_frontier", cf, lcf, slack "curr_frontier");
               ("node_levels", None, lnl, slack "node_levels");
               ("node_ptrs", Some (csr_row_ptrs csr_i), u32 (num_nodes + 1), slack "node_ptrs");
               ("edges", Some (csr_col_idxs csr_i), csr_num_edges csr_i, slack "edges")]).
  assert (mram_bytes ops = 8 * lnf + 4 * lcf + 4 * lnl + insert_size (u32 (num_nodes + 1))
                           + insert_size (csr_num_edges csr_i)) as Hbytes.
  { unfold ops, mram_bytes. simpl. rewrite !insert_size_even by done. lia. }
  destruct (dpu_insert_all_stores bits dpu3 ops p) as (dpu' & Hall & _ & Hwram & _ & Hops).
  { unfold dpu_copy_from, dpu3 in *. simpl. by rewrite !lookup_insert_ne by done. }
  { done. }
  { rewrite Hbytes. lia. }
  { apply (bool_decide_unpack _). by vm_compute. }
  { assert (is_u32 (u32 (num_nodes + 1)))
      by (unfold is_u32, u32; apply Z.mod_pos_bound; reflexivity).
    assert (∀ name src L sl, name ∈ top_down_symbols → is_u32 L →
              match src with Some a => L ≤ Z.of_nat (length a) | None => True end →
              insert_fits dpu3 (name, src, L, sl)) as Hfit.
    { intros name src L sl Hname HL Hsrc. split; [|done]. by apply Hdom3, Hsym. }
    unfold ops. repeat first [apply Forall_nil_2 | apply Forall_cons_2];
      apply Hfit; try done; try (unfold top_down_symbols; in_list).
    - unfold nf. by case_decide.
    - unfold cf. by case_decide. }
  unfold ops in Hall. cbn [dpu_insert_all] in Hall.
  repeat match type of Hall with
         | mbind _ ?m = Some _ =>
             destruct m as [?d|] eqn:?; cbn [mbind option_bind] in Hall |- *; [|done]
         end.
  injection Hall as ->.
  pose proof (Hops 0%nat _ eq_refl) as [Ha0 Hd0].
  pose proof (Hops 1%nat _ eq_refl) as [Ha1 Hd1].
  pose proof (Hops 2%nat _ eq_refl) as [Ha2 Hd2].
  pose proof (Hops 3%nat _ eq_refl) as [Ha3 Hd3].
  pose proof (Hops 4%nat _ eq_refl) as [Ha4 Hd4].
  pose proof (Hops 5%nat _ eq_refl) as [Ha5 Hd5].
  unfold ops, mram_bytes in Ha0, Ha1, Ha2, Ha3, Ha4, Ha5, Hd0, Hd1, Hd2, Hd3, Hd4, Hd5.
  cbn [take foldr fst snd] in Ha0, Ha1, Ha2, Ha3, Ha4, Ha5, Hd0, Hd1, Hd2, Hd3, Hd4, Hd5.
  assert (p + (insert_size lnf + 0) = p + 4 * lnf) as Ea1
    by (rewrite insert_size_even by done; lia).
  assert (p + (insert_size lnf + (insert_size lnf + 0)) = p + 8 * lnf) as Ea2
    by (rewrite insert_size_even by done; lia).
  rewrite Ea1 in Ha1, Hd1. rewrite Ea2 in Ha2, Hd2.
  rewrite Ha1, Ha2. cbn [mbind option_bind].
  exists dpu'. split; [done|].
  assert (∀ s v, s ∈ ["level"; "len_nf"; "len_cf"] →
                 dpu_wram dpu3 !! s = v → dpu_wram dpu' !! s = v) as Hkeep.
  { intros s v Hs <-.
    assert (s = "level" ∨ s = "len_nf" ∨ s = "len_cf") as Hcases.
    { repeat (apply elem_of_cons in Hs as [Hs|Hs]; [by eauto|]). by apply elem_of_nil in Hs. }
    apply Hwram; destruct Hcases as [-> | [-> | ->]]; try done;
      apply (bool_decide_unpack _); by vm_compute. }
  unfold populated, dpu_get_u32, dpu_get_mram_array_u32. fold lnf lcf lnl.
  rewrite Ha0, Ha1, Ha2, Ha3, Ha4, Ha5. cbn [mbind option_bind].
  rewrite Hd0, Hd1, Hd2, Hd3, Hd4, Hd5. unfold inserted. cbn [fst snd default].
  split; [done|]. split; [done|].
  split; [apply Hkeep; [in_list|]; unfold dpu3; simpl;
          by rewrite !lookup_insert_ne, lookup_insert_eq by done|].
  split; [apply Hkeep; [in_list|]; unfold dpu3; simpl;
          by rewrite !lookup_insert_ne, lookup_insert_eq by done|].
  split; [apply Hkeep; [in_list|]; unfold dpu3; simpl;
          by rewrite lookup_insert_eq|].
  split; [by rewrite take_calloc|].
  split; [unfold nf; case_decide; simpl; by rewrite ?take_calloc|].
  split; [unfold cf; case_decide; simpl; by rewrite ?take_calloc|].
  split; [by rewrite take_calloc|]. done.
Qed.
End populate.

Lemma bfs_top_down_populate_all_spec bits slack frontier num_nodes len_nf len_cf len_nl
    col_div (csr : list CSR) (set : list DPU) p nf0 cf0 :
  col_div ≠ 0 →
  ROUND_UP_TO_MULTIPLE len_nf BLOCK_SIZE ≤ Z.of_nat (length frontier) →
  ROUND_UP_TO_MULTIPLE len_cf BLOCK_SIZE ≤ Z.of_nat (length frontier) →
  0 ≤ p →
  Forall2 (populate_ready bits num_nodes len_nf len_cf len_nl p) set csr →
  ∃ set',
    bfs_top_down_populate_all bits slack frontier csr num_nodes len_nf len_cf len_nl col_div
      set nf0 cf0
    = Some (set',
            if decide (set = []) then nf0 else p + 4 * ROUND_UP_TO_MULTIPLE len_nf BLOCK_SIZE,
            if decide (set = []) then cf0 else p + 8 * ROUND_UP_TO_MULTIPLE len_nf BLOCK_SIZE) ∧
    length set' = length set ∧
    ∀ (k : nat) dpu' csr_k, set' !! k = Some dpu' → csr !! k = Some csr_k →
      populated frontier num_nodes len_nf len_cf len_nl col_div p csr_k (Z.of_nat k) dpu'.
Proof.
  intros Hcol Hlnf Hlcf Hp0 Hready.
  set (lnf := ROUND_UP_TO_MULTIPLE len_nf BLOCK_SIZE) in *.
  unfold bfs_top_down_populate_all.
  destruct (dpu_foreach_inv
    (λ i (s : list DPU * Z * Z),
       Z.of_nat (length s.1.1) = i ∧
       (s.1.2, s.2) = (if decide (i = 0) then (nf0, cf0) else (p + 4 * lnf, p + 8 * lnf)) ∧
       ∀ (k : nat) dpu' csr_k, s.1.1 !! k = Some dpu' → csr !! k = Some csr_k →
         populated frontier num_nodes len_nf len_cf len_nl col_div p csr_k (Z.of_nat k) dpu')
    (λ dpu i '(done, nf_addr, cf_addr),
       csr_i ← (if decide (0 ≤ i) then csr !! Z.to_nat i else None);
       '(dpu, nf_addr, cf_addr) ←
         bfs_top_down_populate bits slack frontier csr_i num_nodes len_nf len_cf len_nl
           col_div dpu i;
       Some (done ++ [dpu], nf_addr, cf_addr))
    set 0 ([], nf0, cf0)) as ([[set' nf] cf] & Hrun & Hlen & Haddr & Hpop).
  - simpl. split; [done|]. split; [done|]. intros k ? ? Hk. done.
  - intros k dpu [[done nf] cf] Hk (Hlen & Haddr & Hpop). simpl in Hlen, Haddr, Hpop.
    rewrite !Z.add_0_l.
    destruct (Forall2_lookup_l _ _ _ _ _ Hready Hk) as (csr_k & Hcsr & Hrdy).
    rewrite decide_True by lia. rewrite Nat2Z.id, Hcsr. cbn [mbind option_bind].
    destruct (bfs_top_down_populate_spec bits slack frontier num_nodes len_nf len_cf len_nl
                col_div Hcol Hlnf Hlcf csr_k dpu (Z.of_nat k) p Hp0 Hrdy) as (dpu' & -> & Hpd).
    cbn [mbind option_bind]. eexists. split; [done|]. simpl.
    split; [rewrite length_app; simpl; lia|].
    split; [by rewrite decide_False by lia|].
    intros j dpu'' csr_j Hj Hcj.
    destruct (decide (j = length done)) as [->|Hne].
    + rewrite lookup_app_r, Nat.sub_diag in Hj by lia. injection Hj as <-.
      replace (length done) with k in * by lia. rewrite Hcsr in Hcj. by injection Hcj as <-.
    + apply lookup_lt_Some in Hj as Hjlt. rewrite length_app in Hjlt. simpl in Hjlt.
      rewrite lookup_app_l in Hj by lia. by eapply Hpop.
  - simpl in *. exists set'. rewrite Z.add_0_l in *. split; [|split; [lia|done]].
    rewrite Hrun. destruct set as [|dpu0 set].
    + rewrite decide_True in Haddr by done. injection Haddr as -> ->.
      by rewrite !decide_True by done.
    + rewrite decide_False in Haddr by (simpl; lia). injection Haddr as -> ->.
      by rewrite !decide_False by done.
Qed.

(** X9.  [bfs_top_down] caches one pair of addresses, [nf_addr] and
    [cf_addr], for the whole set.  When every unit starts with the same end
    of heap p, after the population the symbols [next_frontier] and
    [curr_frontier] hold the same two addresses on every unit, whatever its
    index and its matrix, and these are the cached ones: p plus the size of
    [visited], and p plus the sizes of [visited] and [next_frontier]. *)
Theorem bfs_top_down_same_addresses bits slack frontier num_nodes len_nf len_cf len_nl
    col_div (csr : list CSR) (set : list DPU) p nf0 cf0 :
  col_div ≠ 0 → set ≠ [] →
  ROUND_UP_TO_MULTIPLE len_nf BLOCK_SIZE ≤ Z.of_nat (length frontier) →
  ROUND_UP_TO_MULTIPLE len_cf BLOCK_SIZE ≤ Z.of_nat (length frontier) →
  0 ≤ p →
  Forall2 (populate_ready bits num_nodes len_nf len_cf len_nl p) set csr →
  ∃ set' nf_addr cf_addr,
    bfs_top_down_populate_all bits slack frontier csr num_nodes len_nf len_cf len_nl col_div
      set nf0 cf0 = Some (set', nf_addr, cf_addr) ∧
    length set' = length set ∧
    nf_addr = p + 4 * ROUND_UP_TO_MULTIPLE len_nf BLOCK_SIZE ∧
    cf_addr = p + 8 * ROUND_UP_TO_MULTIPLE len_nf BLOCK_SIZE ∧
    Forall (λ dpu', dpu_copy_from dpu' "next_frontier" = Some nf_addr ∧
                    dpu_copy_from dpu' "curr_frontier" = Some cf_addr) set'.
Proof.
  intros Hcol Hset Hlnf Hlcf Hp0 Hready.
  destruct (bfs_top_down_populate_all_spec bits slack frontier num_nodes len_nf len_cf len_nl
              col_div csr set p nf0 cf0 Hcol Hlnf Hlcf Hp0 Hready) as (set' & Hrun & Hlen & Hpop).
  rewrite !decide_False in Hrun by done.
  eexists set', _, _. split; [exact Hrun|]. split; [done|]. split; [done|]. split; [done|].
  apply Forall_lookup_2. intros k dpu' Hk.
  assert (k < length csr)%nat as Hkc.
  { apply lookup_lt_Some in Hk. rewrite <- (Forall2_length _ _ _ Hready). lia. }
  destruct (lookup_lt_is_Some_2 csr k Hkc) as [csr_k Hcsr].
  destruct (Hpop k dpu' csr_k Hk Hcsr) as (Hnf & Hcf & _). done.
Qed.




Lemma bfs_top_down_same_addresses_witness :
  ∃ set' nf_addr cf_addr,
    bfs_top_down_populate_all 32 (λ _, 0) (<[0%nat := 1]> (replicate 34 0))
      [mkCSR 2 2 2 [0; 1; 2] [1; 0]; mkCSR 2 2 1 [0; 0; 1] [0]] 2 2 1 2 1
      [blank_unit top_down_symbols; blank_unit top_down_symbols] 0 0
    = Some (set', nf_addr, cf_addr) ∧
    length set' = length [blank_unit top_down_symbols; blank_unit top_down_symbols] ∧
    nf_addr = 0 + 4 * ROUND_UP_TO_MULTIPLE 2 BLOCK_SIZE ∧
    cf_addr = 0 + 8 * ROUND_UP_TO_MULTIPLE 2 BLOCK_SIZE ∧
    Forall (λ dpu', dpu_copy_from dpu' "next_frontier" = Some nf_addr ∧
                    dpu_copy_from dpu' "curr_frontier" = Some cf_addr) set'.
Proof.
  apply (bfs_top_down_same_addresses 32 (λ _, 0) (<[0%nat := 1]> (replicate 34 0)) 2 2 1 2 1
           [mkCSR 2 2 2 [0; 1; 2] [1; 0]; mkCSR 2 2 1 [0; 0; 1] [0]]
           [blank_unit top_down_symbols; blank_unit top_down_symbols] 0 0 0).
  - lia.
  - discriminate.
  - by vm_compute.
  - by vm_compute.
  - lia.
  - repeat constructor; try (eexists; reflexivity); try (by vm_compute).
Defined.


(** ** [load_coo] *)

(** The loop over the lines, on lines that match: the edges are stored one
    after the other, with the offset subtracted. *)
Lemma load_coo_edges_run (es : list (Z * Z)) rest ro (rows cols : list Z) (d : nat) :
  length cols = length rows → (length es ≤ d)%nat →
  load_coo_edges (length es) (Z.of_nat (length rows)) ((Some <$> es) ++ rest) ro
    (rows ++ replicate d 0) (cols ++ replicate d 0)
  = ([], Returns ((rows ++ ((λ e, u32 (e.1 - ro)) <$> es)) ++ replicate (d - length es) 0,
                  (cols ++ ((λ e, u32 (e.2 - ro)) <$> es)) ++ replicate (d - length es) 0)).
Proof.
  revert rows cols d. induction es as [|[r c] es IH]; intros rows cols d Hlen Hd.
  - simpl. by rewrite !app_nil_r, Nat.sub_0_r.
  - simpl in Hd. cbn [length load_coo_edges fmap list_fmap app].
    rewrite !wr_Some by (rewrite length_app, length_replicate; lia).
    rewrite Nat2Z.id. rewrite (insert_app_replicate rows) by lia.
    replace (<[length rows := u32 (c - ro)]> (cols ++ replicate d 0))
      with ((cols ++ [u32 (c - ro)]) ++ replicate (d - 1) 0)
      by (rewrite <- Hlen; symmetry; apply insert_app_replicate; lia).
    replace (Z.of_nat (length rows) + 1) with (Z.of_nat (length (rows ++ [u32 (r - ro)])))
      by (rewrite length_app; simpl; lia).
    rewrite IH by (rewrite ?length_app; simpl; lia).
    simpl. rewrite <- !app_assoc. simpl.
    by replace (d - 1 - length es)%nat with (d - S (length es))%nat by lia.
Qed.

(** The loop over the lines, when a line does not match: the error names the
    line, and the process exits. *)
Lemma load_coo_edges_bad_line (es : list (Z * Z)) tl ro (rows cols : list Z) (k d : nat) :
  length cols = length rows → (length es < k)%nat → (k ≤ d)%nat →
  Z.of_nat (length rows) + Z.of_nat k < u32_mod →
  tl = [] ∨ (∃ rest, tl = None :: rest) →
  load_coo_edges k (Z.of_nat (length rows)) ((Some <$> es) ++ tl) ro
    (rows ++ replicate d 0) (cols ++ replicate d 0)
  = ([Log ERROR ("Could not properly read line "
                 +:+ pretty (Z.of_nat (length rows) + Z.of_nat (length es) + 1)
                 +:+ ". Lines must be of the form: ROW_IDX COL_IDX")],
     Exits 1).
Proof.
  revert rows cols k d. induction es as [|[r c] es IH]; intros rows cols k d Hlen Hk Hd Hfit Htl.
  - destruct k as [|k]; [simpl in Hk; lia|]. simpl.
    rewrite u32_small by (unfold is_u32; lia). rewrite Z.add_0_r.
    destruct Htl as [->|[rest ->]]; done.
  - destruct k as [|k]; [simpl in Hk; lia|]. simpl in Hk.
    cbn [length load_coo_edges fmap list_fmap app].
    rewrite !wr_Some by (rewrite length_app, length_replicate; lia).
    rewrite Nat2Z.id. rewrite (insert_app_replicate rows) by lia.
    replace (<[length rows := u32 (c - ro)]> (cols ++ replicate d 0))
      with ((cols ++ [u32 (c - ro)]) ++ replicate (d - 1) 0)
      by (rewrite <- Hlen; symmetry; apply insert_app_replicate; lia).
    replace (Z.of_nat (length rows) + 1) with (Z.of_nat (length (rows ++ [u32 (r - ro)])))
      by (rewrite length_app; simpl; lia).
    rewrite IH; try done; try (rewrite ?length_app; simpl; lia).
    replace (Z.of_nat (length (rows ++ [u32 (r - ro)])) + Z.of_nat (length es) + 1)
      with (Z.of_nat (length rows) + Z.of_nat (S (length es)) + 1); [done|].
    rewrite length_app. simpl. lia.
Qed.

Lemma load_coo_run name n nn ne (es es' : list (Z * Z)) rest T r0 c0 :
  is_u32 ne → es = (r0, c0) :: es' → Z.of_nat (length es) = ne →
  load_coo_pad nn n = Some T →
  load_coo (Some (mkFile (Some (nn, ne)) ((Some <$> es) ++ rest))) name n
  = (load_coo_log name nn T ne,
     Returns (mkCOO T T ne ((λ e, u32 (e.1 - r0)) <$> es) ((λ e, u32 (e.2 - r0)) <$> es))).
Proof.
  intros Hne -> Hlen Hpad. simpl in Hlen. unfold is_u32 in Hne.
  unfold load_coo. cbn [gf_header gf_lines fmap list_fmap app]. rewrite Hpad.
  unfold malloc. replace (Z.to_nat ne) with (S (length es')) by lia.
  rewrite !wr_Some by (simpl; lia). cbn [replicate]. change (Z.to_nat 0) with 0%nat.
  cbn [list_insert insert].
  replace (Z.to_nat (ne - 1)) with (length es') by lia.
  pose proof (load_coo_edges_run es' rest r0 [u32 (r0 - r0)] [u32 (c0 - r0)] (length es')
                eq_refl (le_n _)) as Hrun.
  cbn [length app] in Hrun. change (Z.of_nat 1) with 1 in Hrun. rewrite Hrun.
  rewrite Nat.sub_diag. cbn [replicate]. rewrite !app_nil_r.
  reflexivity.
Qed.

(** X11.  A file whose header gives at least one edge and whose first
    [num_edges] lines match is loaded: the matrix is square with the padded
    node count, it keeps the edge count of the header, and edge i holds the
    two numbers of line i + 1 minus the first number of line 1 (in 32-bit
    arithmetic), so that the first row index stored is 0.  The messages are
    the two notices, with the warning about padding between them when nodes
    were added. *)
Theorem load_coo_returns name n nn ne (es es' : list (Z * Z)) rest T r0 c0 :
  is_u32 ne → es = (r0, c0) :: es' → Z.of_nat (length es) = ne →
  load_coo_pad nn n = Some T →
  ∃ coo,
    load_coo (Some (mkFile (Some (nn, ne)) ((Some <$> es) ++ rest))) name n
    = (load_coo_log name nn T ne, Returns coo) ∧
    coo_num_rows coo = T ∧ coo_num_cols coo = T ∧ coo_num_edges coo = ne ∧
    coo_edges coo = (λ e, (u32 (e.1 - r0), u32 (e.2 - r0))) <$> es ∧
    coo_row_idxs coo !! 0%nat = Some 0.
Proof.
  intros Hne Hes Hlen Hpad. eexists. split; [by eapply load_coo_run|]. simpl.
  split; [done|]. split; [done|]. split; [done|]. split.
  - rewrite coo_edges_full by (rewrite length_fmap; done). apply zip_fmap.
  - subst es. simpl. by rewrite Z.sub_diag.
Qed.

Lemma load_coo_returns_witness :
  ∃ coo,
    load_coo (Some (mkFile (Some (300, 3)) ((Some <$> [(1, 2); (1, 3); (2, 1)]) ++ [None])))
      "graph.txt" 8
    = (load_coo_log "graph.txt" 300 512 3, Returns coo) ∧
    coo_num_rows coo = 512 ∧ coo_num_cols coo = 512 ∧ coo_num_edges coo = 3 ∧
    coo_edges coo = (λ e, (u32 (e.1 - 1), u32 (e.2 - 1))) <$> [(1, 2); (1, 3); (2, 1)] ∧
    coo_row_idxs coo !! 0%nat = Some 0.
Proof.
  apply (load_coo_returns "graph.txt" 8 300 3 [(1, 2); (1, 3); (2, 1)] [(1, 3); (2, 1)]
           [None] 512 1 2).
  - split; [lia|reflexivity].
  - reflexivity.
  - reflexivity.
  - reflexivity.
Defined.

(** X12.  A file whose header gives no edge is never loaded.  With a line
    after the header, the first edge is stored at index 0 of arrays
    allocated for 0 edges, outside of them; without one, the process exits
    with status 1; and with n = 0 the padding divides by zero before that. *)
Theorem load_coo_no_edges f name n nn :
  gf_header f = Some (nn, 0) →
  ((load_coo (Some f) name n).2 = Exits 1 ∨ (load_coo (Some f) name n).2 = Undefined) ∧
  (∀ e lines, gf_lines f = Some e :: lines → (load_coo (Some f) name n).2 = Undefined) ∧
  malloc 0 = [] ∧ wr (malloc 0) 0 0 = None.
Proof.
  intros Hh. unfold load_coo. rewrite Hh.
  destruct (load_coo_pad nn n) as [T|];
    destruct (gf_lines f) as [|[[r c]|] lines]; simpl; (split; [by eauto|]);
    (split; [|done]); by intros [r' c'] lines' [=].
Qed.

Lemma load_coo_no_edges_witness :
  ((load_coo (Some (mkFile (Some (64, 0)) [Some (0, 1)])) "graph.txt" 8).2 = Exits 1 ∨
   (load_coo (Some (mkFile (Some (64, 0)) [Some (0, 1)])) "graph.txt" 8).2 = Undefined) ∧
  (∀ e lines, gf_lines (mkFile (Some (64, 0)) [Some (0, 1)]) = Some e :: lines →
     (load_coo (Some (mkFile (Some (64, 0)) [Some (0, 1)])) "graph.txt" 8).2 = Undefined) ∧
  malloc 0 = [] ∧ wr (malloc 0) 0 0 = None.
Proof. apply (load_coo_no_edges (mkFile (Some (64, 0)) [Some (0, 1)]) "graph.txt" 8 64). reflexivity. Defined.

(** X13.  When line k + 1 is the first line that does not match -- a
    malformed line, or the end of the file before [num_edges] lines -- the
    last message is the error that names line k + 1, and the process exits
    with status 1. *)
Theorem load_coo_bad_line name n nn ne (es : list (Z * Z)) tl T :
  is_u32 ne → Z.of_nat (length es) < ne → load_coo_pad nn n = Some T →
  tl = [] ∨ (∃ rest, tl = None :: rest) →
  ∃ log,
    load_coo (Some (mkFile (Some (nn, ne)) ((Some <$> es) ++ tl))) name n
    = (log ++ [Log ERROR ("Could not properly read line " +:+ pretty (Z.of_nat (length es) + 1)
                          +:+ ". Lines must be of the form: ROW_IDX COL_IDX")],
       Exits 1).
Proof.
  intros Hne Hlen Hpad Htl. unfold is_u32 in Hne.
  unfold load_coo. cbn [gf_header gf_lines]. rewrite Hpad.
  destruct es as [|[r0 c0] es'].
  - exists (load_coo_log name nn T ne). cbn [fmap list_fmap app].
    destruct Htl as [->|[rest ->]]; reflexivity.
  - simpl in Hlen. cbn [fmap list_fmap app].
    unfold malloc. replace (Z.to_nat ne) with (S (Z.to_nat (ne - 1))) by lia.
    rewrite !wr_Some by (simpl; lia). cbn [replicate]. change (Z.to_nat 0) with 0%nat.
    cbn [list_insert insert].
    pose proof (load_coo_edges_bad_line es' tl r0 [u32 (r0 - r0)] [u32 (c0 - r0)]
                  (Z.to_nat (ne - 1)) (Z.to_nat (ne - 1)) eq_refl ltac:(lia) (le_n _)) as Hrun.
    cbn [length app] in Hrun. change (Z.of_nat 1) with 1 in Hrun.
    rewrite Hrun by (done || lia).
    exists (load_coo_log name nn T ne).
    replace (1 + Z.of_nat (length es') + 1) with (Z.of_nat (length ((r0, c0) :: es')) + 1)
      by (simpl; lia).
    reflexivity.
Qed.

Lemma load_coo_bad_line_witness :
  ∃ log,
    load_coo (Some (mkFile (Some (64, 3)) ((Some <$> [(0, 1); (0, 2)]) ++ [])))
      "graph.txt" 8
    = (log ++ [Log ERROR ("Could not properly read line "
                          +:+ pretty (Z.of_nat (length [(0, 1); (0, 2)]) + 1)
                          +:+ ". Lines must be of the form: ROW_IDX COL_IDX")],
       Exits 1).
Proof.
  apply (load_coo_bad_line "graph.txt" 8 64 3 [(0, 1); (0, 2)] [] 256).
  - split; [lia|reflexivity].
  - simpl. lia.
  - reflexivity.
  - by left.
Defined.

(** ** From the file to the partitions *)




(** The room for the padding is needed.  With 8 units and the header
    [4294967295 1], no multiple of 256 at or above the node count fits in 32
    bits: the padded count wraps around to 0, [load_coo] returns a matrix
    without rows that holds the edge of the first line, and [partition_coo]
    divides by the zero extent of its partitions, for every topology. *)
Example load_coo_pad_wraps_then_partition_coo :
  load_coo_pad 4294967295 8 = Some 0 ∧
  (load_coo (Some (mkFile (Some (4294967295, 1)) [Some (0, 1)])) "graph.txt" 8).2
  = Returns (mkCOO 0 0 1 [0] [1]) ∧
  partition_coo (mkCOO 0 0 1 [0] [1]) 8 Row = None ∧
  partition_coo (mkCOO 0 0 1 [0] [1]) 8 Col = None ∧
  partition_coo (mkCOO 0 0 1 [0] [1]) 8 _2D = None.
Proof. repeat split; vm_compute; reflexivity. Qed.

(** ** [partition_coo]: order, counts, and the need for divisibility *)

(** X15.  [partition_coo] is stable.  Partition p holds the edges of grid
    cell p in the order they have in the input, each with the offsets of the
    cell subtracted, and its [num_edges] is their number. *)
Theorem partition_coo_keeps_order (coo : COO) (n : Z) (prt : Partition) :
  coo_wf coo → 0 < n < u32_mod →
  (n | coo_num_rows coo) → (n | coo_num_cols coo) →
  ∃ R C prts,
    grid n prt = Some (R, C) ∧ partition_coo coo n prt = Some prts ∧
    Z.of_nat (length prts) = n ∧
    ∀ (p : nat) c, prts !! p = Some c →
      let nr := coo_num_rows coo / R in
      let nc := coo_num_cols coo / C in
      let cell := filter (λ e, cell_of nr nc C e = Z.of_nat p) (coo_edges coo) in
      coo_edges c = (λ e, (e.1 - Z.of_nat p / C * nr, e.2 - Z.of_nat p mod C * nc)) <$> cell ∧
      coo_num_edges c = Z.of_nat (length cell) ∧
      Z.of_nat (length (coo_row_idxs c)) = coo_num_edges c ∧
      Z.of_nat (length (coo_col_idxs c)) = coo_num_edges c.
Proof.
  intros Hwf Hn HNR HNC.
  destruct (partition_coo_spec coo n prt Hwf Hn HNR HNC)
    as (R & C & prts & Hgrid & HRC & HR & HC & _ & _ & Hrun & Htab).
  exists R, C, prts. split; [done|]. split; [done|].
  split; [rewrite (tab_length _ _ _ Htab); lia|].
  intros p c Hp nr nc cell.
  pose proof (lookup_lt_Some _ _ _ Hp) as Hlt. rewrite (tab_length _ _ _ Htab) in Hlt.
  rewrite (tab_lookup _ _ _ _ Htab Hlt) in Hp. injection Hp as <-.
  fold nr nc cell. simpl. rewrite !length_fmap. split; [|done].
  rewrite coo_edges_full by (by rewrite length_fmap).
  by rewrite zip_fmap.
Qed.

Lemma partition_coo_keeps_order_witness :
  ∃ R C prts,
    grid 8 _2D = Some (R, C) ∧
    partition_coo (mkCOO 8 8 5 [0; 0; 1; 2; 3] [1; 2; 3; 3; 4]) 8 _2D = Some prts ∧
    Z.of_nat (length prts) = 8 ∧
    ∀ (p : nat) c, prts !! p = Some c →
      let nr := 8 / R in
      let nc := 8 / C in
      let cell := filter (λ e, cell_of nr nc C e = Z.of_nat p)
                         (coo_edges (mkCOO 8 8 5 [0; 0; 1; 2; 3] [1; 2; 3; 3; 4])) in
      coo_edges c = (λ e, (e.1 - Z.of_nat p / C * nr, e.2 - Z.of_nat p mod C * nc)) <$> cell ∧
      coo_num_edges c = Z.of_nat (length cell) ∧
      Z.of_nat (length (coo_row_idxs c)) = coo_num_edges c ∧
      Z.of_nat (length (coo_col_idxs c)) = coo_num_edges c.
Proof.
  apply (partition_coo_keeps_order (mkCOO 8 8 5 [0; 0; 1; 2; 3] [1; 2; 3; 3; 4]) 8 _2D).
  - unfold coo_wf, is_u32, u32_mod. simpl.
    repeat split; try lia; repeat constructor; lia.
  - split; [lia|reflexivity].
  - exists 1. reflexivity.
  - exists 1. reflexivity.
Defined.

Lemma part_at_out_of_bounds (prts : list COO) p :
  Z.of_nat (length prts) ≤ p → part_at prts p = None.
Proof.
  intros Hp. unfold part_at. case_decide; [|done]. apply lookup_ge_None_2. lia.
Qed.

(** The first loop of [partition_coo], on a matrix with one edge whose
    index along the split axis is the last one: when the unit count does not
    divide the extent, the quotient is not below the unit count. *)
Lemma last_index_quotient (N n : Z) :
  0 < n → 0 < N → N mod n ≠ 0 → N / n ≠ 0 → n ≤ (N - 1) / (N / n).
Proof.
  intros Hn HN Hmod Hq.
  pose proof (Z.div_mod N n ltac:(lia)) as Hdm.
  pose proof (Z.mod_pos_bound N n Hn) as Hb.
  assert (0 ≤ N / n) by (apply Z.div_pos; lia).
  apply Z.div_le_lower_bound; nia.
Qed.

(** X16.  The divisibility [partition_coo] relies on is needed.  When the
    unit count n > 0 does not divide the extent N of the axis that is split,
    the matrix whose single edge lies at the last index N - 1 of that axis
    is well formed, and on it [partition_coo] leaves the array of partitions
    (or divides by zero, when N < n): for the rows with the row topology,
    and for the columns with the column topology. *)
Theorem partition_coo_needs_divisibility (N M n : Z) :
  0 < n → 0 < N < u32_mod → 0 < M < u32_mod → N mod n ≠ 0 →
  coo_wf (mkCOO N M 1 [N - 1] [0]) ∧
  partition_coo (mkCOO N M 1 [N - 1] [0]) n Row = None ∧
  coo_wf (mkCOO M N 1 [0] [N - 1]) ∧
  partition_coo (mkCOO M N 1 [0] [N - 1]) n Col = None.
Proof.
  intros Hn HN HM Hmod.
  assert (∀ NR NC r c, 0 < NR < u32_mod → 0 < NC < u32_mod → 0 ≤ r < NR → 0 ≤ c < NC →
            coo_wf (mkCOO NR NC 1 [r] [c])) as Hwf.
  { intros NR NC r c HNR HNC Hr Hc. unfold coo_wf, is_u32. simpl.
    repeat split; try lia; try reflexivity; repeat constructor; lia. }
  split; [apply Hwf; lia|]. split; [|split; [apply Hwf; lia|]].
  - unfold partition_coo, partition_count.
    cbn [coo_num_rows coo_num_cols coo_num_edges coo_row_idxs coo_col_idxs].
    rewrite (udiv_Some N n) by lia. cbn [mbind option_bind].
    unfold for_upto. change (Z.to_nat 1) with 1%nat. cbn [for_loop].
    change (rd [N - 1] 0) with (Some (N - 1)). cbn [mbind option_bind].
    unfold udiv. destruct (decide (N / n = 0)) as [|Hq]; [done|].
    cbn [mbind option_bind]. unfold incr_num_edges.
    rewrite part_at_out_of_bounds; [done|].
    rewrite length_replicate, Z2Nat.id by lia. apply last_index_quotient; [lia|lia|done|done].
  - unfold partition_coo, partition_count.
    cbn [coo_num_rows coo_num_cols coo_num_edges coo_row_idxs coo_col_idxs].
    rewrite (udiv_Some N n) by lia. cbn [mbind option_bind].
    unfold for_upto. change (Z.to_nat 1) with 1%nat. cbn [for_loop].
    change (rd [N - 1] 0) with (Some (N - 1)). cbn [mbind option_bind].
    unfold udiv. destruct (decide (N / n = 0)) as [|Hq]; [done|].
    cbn [mbind option_bind]. unfold incr_num_edges.
    rewrite part_at_out_of_bounds; [done|].
    rewrite length_replicate, Z2Nat.id by lia. apply last_index_quotient; [lia|lia|done|done].
Qed.

Lemma partition_coo_needs_divisibility_witness :
  coo_wf (mkCOO 10 12 1 [10 - 1] [0]) ∧
  partition_coo (mkCOO 10 12 1 [10 - 1] [0]) 4 Row = None ∧
  coo_wf (mkCOO 12 10 1 [0] [10 - 1]) ∧
  partition_coo (mkCOO 12 10 1 [0] [10 - 1]) 4 Col = None.
Proof.
  apply (partition_coo_needs_divisibility 10 12 4).
  - lia.
  - split; [lia|reflexivity].
  - split; [lia|reflexivity].
  - discriminate.
Defined.

(** ** [coo_to_csr] and [coo_to_csc]: the order inside a row *)

Section bucket_order.
Context {A : Type} (key : A → Z) (l : list A).

Lemma bucket_lookup (i : nat) e :
  l !! i = Some e → bucket key l (key e) (length l) !! cnt key l (key e) i = Some e.
Proof using.
  intros He. pose proof (lookup_lt_Some _ _ _ He) as Hi.
  assert (bucket key l (key e) (length l)
          = bucket key l (key e) (S i) ++ filter (λ x, key x = key e) (drop (S i) l)) as ->.
  { unfold bucket. rewrite <- filter_app, take_drop. by rewrite take_ge by lia. }
  rewrite (bucket_S _ _ _ _ _ He), decide_True by done.
  rewrite lookup_app_l by (rewrite length_app; unfold cnt; simpl; lia).
  unfold cnt. by rewrite lookup_app_r, Nat.sub_diag by lia.
Qed.

Lemma bucket_index r (j k : nat) :
  (j < cnt key l r k)%nat →
  ∃ i e, (i < k)%nat ∧ l !! i = Some e ∧ key e = r ∧ cnt key l r i = j.
Proof using.
  induction k as [|k IH]; intros Hj.
  - unfold cnt, bucket in Hj. rewrite take_0 in Hj. simpl in Hj. lia.
  - destruct (l !! k) as [e|] eqn:He.
    + rewrite (cnt_S _ _ _ _ _ He) in Hj.
      destruct (decide (j < cnt key l r k)%nat) as [Hlt|Hge].
      * destruct (IH Hlt) as (i & e' & ? & ? & ? & ?). exists i, e'. eauto with lia.
      * case_decide; [|lia]. exists k, e. split; [lia|]. split; [done|]. split; [done|lia].
    + apply lookup_ge_None in He.
      assert (cnt key l r (S k) = cnt key l r k) as Heq.
      { unfold cnt, bucket. by rewrite !take_ge by lia. }
      rewrite Heq in Hj. destruct (IH Hj) as (i & e' & ? & ? & ? & ?).
      exists i, e'. eauto with lia.
Qed.
End bucket_order.

Section csr_rows.
Variables (rows cols : list Z) (NR NC m : Z).
Hypothesis HR : 0 < NR.
Hypothesis HR1 : NR + 1 < u32_mod.
Hypothesis Hm : is_u32 m.
Hypothesis Hrows_len : Z.of_nat (length rows) = m.
Hypothesis Hcols_len : Z.of_nat (length cols) = m.
Hypothesis Hrows : Forall (λ r, 0 ≤ r < NR) rows.

Let es := zip rows cols.

(** What [coo_to_csr] returns, row by row: the row pointers delimit, for
    every row, the edges of that row in their input order. *)
Lemma coo_to_csr_rows :
  ∃ rp ci,
    coo_to_csr (mkCOO NR NC m rows cols) = Some (mkCSR NR NC m rp ci) ∧
    Z.of_nat (length rp) = NR + 1 ∧ Z.of_nat (length ci) = m ∧
    ∀ r, 0 ≤ r < NR →
      csr_row_edges (mkCSR NR NC m rp ci) r = Some (filter (λ e, e.1 = r) es) ∧
      ∃ lo hi, rd rp r = Some lo ∧ rd rp (r + 1) = Some hi ∧
               hi - lo = Z.of_nat (length (filter (λ e, e.1 = r) es)).
Proof using All.
  destruct (coo_to_csr_run rows cols NR NC m HR HR1 Hm Hrows_len Hcols_len Hrows)
    as (rp & ci & Hrun & Hrp & Hci & Hpos).
  fold es in Hrp, Hpos.
  pose proof (csr_length_es rows cols NR NC m HR HR1 Hm Hrows_len Hcols_len Hrows) as Hles. fold es in Hles.
  unfold is_u32 in Hm.
  exists rp, ci. split; [done|].
  split; [rewrite (tab_length _ _ _ Hrp); lia|]. split; [lia|].
  intros r Hr.
  assert (filter (λ e : Z * Z, e.1 = r) es = bucket fst es r (Z.to_nat m)) as Hb.
  { unfold bucket. by rewrite take_ge by lia. }
  split.
  - replace r with (Z.of_nat (Z.to_nat r)) at 1 by lia.
    rewrite (csr_row_edges_val rows cols NR NC m HR HR1 Hm Hrows_len Hcols_len Hrows)
      by (done || lia).
    fold es. rewrite Z2Nat.id by lia. f_equal.
    pose proof (below_cnt_le rows cols NR NC m HR HR1 Hm Hrows_len Hcols_len Hrows (Z.to_nat r))
      as Hle.
    fold es in Hle. rewrite Z2Nat.id in Hle by lia.
    apply list_eq. intros j. rewrite list_lookup_fmap.
    destruct (decide (j < cnt fst es r (Z.to_nat m))%nat) as [Hj|Hj].
    + destruct (bucket_index fst es r j (Z.to_nat m) Hj) as (i & [r' c] & Hi & He & Hk & Hcnt).
      simpl in Hk. subst r'.
      rewrite lookup_take_lt, lookup_drop by done.
      specialize (Hpos i Hi). rewrite He in Hpos. simpl in Hpos.
      unfold pos in Hpos. rewrite He in Hpos. simpl in Hpos. rewrite Hcnt in Hpos.
      rewrite Hpos. simpl.
      rewrite Hb. replace (Z.to_nat m) with (length es) by lia.
      pose proof (bucket_lookup fst es i _ He) as Hbl. simpl in Hbl.
      rewrite Hcnt in Hbl. by rewrite Hbl.
    + rewrite lookup_take_ge by lia. simpl. symmetry. apply lookup_ge_None_2.
      rewrite Hb. unfold cnt in Hj. lia.
  - unfold rd. rewrite !decide_True by lia.
    rewrite !(tab_lookup _ _ _ _ Hrp) by lia.
    eexists _, _. split; [done|]. split; [done|].
    replace (Z.to_nat (r + 1)) with (S (Z.to_nat r)) by lia.
    rewrite Nat2Z.inj_succ, <- Z.add_1_r, below_S, Hles, Hb, Z2Nat.id by lia.
    unfold cnt. lia.
Qed.
End csr_rows.

(** X18.  [coo_to_csr] keeps the input order inside every row.  For a matrix
    with at least one row, the edges [csr_row_edges] reads for row r are
    the input edges of row r, in their input order, and the two row pointers
    that delimit them differ by their number, the out-degree of r. *)
Theorem coo_to_csr_rows_keep_order (coo : COO) :
  0 < coo_num_rows coo → coo_num_rows coo + 1 < u32_mod →
  is_u32 (coo_num_edges coo) →
  Z.of_nat (length (coo_row_idxs coo)) = coo_num_edges coo →
  Z.of_nat (length (coo_col_idxs coo)) = coo_num_edges coo →
  Forall (λ r, 0 ≤ r < coo_num_rows coo) (coo_row_idxs coo) →
  ∃ csr,
    coo_to_csr coo = Some csr ∧
    ∀ r, 0 ≤ r < coo_num_rows coo →
      csr_row_edges csr r = Some (filter (λ e, e.1 = r) (coo_edges coo)) ∧
      ∃ lo hi, rd (csr_row_ptrs csr) r = Some lo ∧ rd (csr_row_ptrs csr) (r + 1) = Some hi ∧
               hi - lo = Z.of_nat (length (filter (λ e, e.1 = r) (coo_edges coo))).
Proof.
  destruct coo as [NR NC m rows cols]. simpl.
  intros HR HR1 Hm Hrl Hcl Hrows.
  destruct (coo_to_csr_rows rows cols NR NC m HR HR1 Hm Hrl Hcl Hrows)
    as (rp & ci & Hrun & _ & _ & Hrow).
  exists (mkCSR NR NC m rp ci). split; [done|].
  rewrite coo_edges_full by done. exact Hrow.
Qed.

Lemma coo_to_csr_rows_keep_order_witness :
  ∃ csr,
    coo_to_csr (mkCOO 4 4 5 [3; 0; 2; 0; 3] [1; 2; 3; 3; 0]) = Some csr ∧
    ∀ r, 0 ≤ r < 4 →
      csr_row_edges csr r
      = Some (filter (λ e, e.1 = r) (coo_edges (mkCOO 4 4 5 [3; 0; 2; 0; 3] [1; 2; 3; 3; 0]))) ∧
      ∃ lo hi, rd (csr_row_ptrs csr) r = Some lo ∧ rd (csr_row_ptrs csr) (r + 1) = Some hi ∧
               hi - lo
               = Z.of_nat (length (filter (λ e, e.1 = r)
                                     (coo_edges (mkCOO 4 4 5 [3; 0; 2; 0; 3] [1; 2; 3; 3; 0])))).
Proof.
  apply (coo_to_csr_rows_keep_order (mkCOO 4 4 5 [3; 0; 2; 0; 3] [1; 2; 3; 3; 0])).
  - simpl. lia.
  - reflexivity.
  - split; [simpl; lia|reflexivity].
  - reflexivity.
  - reflexivity.
  - repeat constructor; simpl; lia.
Defined.

Lemma zip_swap (rows cols : list Z) : zip cols rows = prod_swap <$> zip rows cols.
Proof.
  revert cols. induction rows as [|r rows IH]; intros [|c cols]; simpl; try done.
  by rewrite IH.
Qed.

Lemma filter_swap (P : Z * Z → Prop) `{!∀ e, Decision (P e)} (l : list (Z * Z)) :
  filter P (prod_swap <$> l) = prod_swap <$> filter (λ e, P (prod_swap e)) l.
Proof.
  induction l as [|e l IH]; [done|].
  rewrite fmap_cons, !filter_cons.
  destruct (decide (P (prod_swap e))); [rewrite fmap_cons|]; by rewrite IH.
Qed.

Lemma csc_col_edges_swap NR NC NR' NC' m m' rp ci c :
  csc_col_edges (mkCSC NR NC m rp ci) c
  = (λ l : list (Z * Z), prod_swap <$> l) <$> csr_row_edges (mkCSR NR' NC' m' rp ci) c.
Proof.
  unfold csc_col_edges, csr_row_edges. simpl.
  destruct (rd rp c) as [lo|]; simpl; [|done].
  destruct (rd rp (c + 1)) as [hi|]; simpl; [|done].
  destruct (slice ci lo hi) as [l|]; simpl; [|done].
  f_equal. change (map ?f ?l) with (f <$> l). by rewrite <- list_fmap_compose.
Qed.

(** X19.  [coo_to_csc] is the column-wise counterpart.  For a matrix with at
    least one column it returns a column-compressed matrix of the same
    extents and edge count, whose column pointers have one cell per column
    and one more; the edges read for column c are the input edges of
    column c in their input order, and all columns together hold the input
    edges (as a multiset). *)
Theorem coo_to_csc_columns (coo : COO) :
  0 < coo_num_cols coo → coo_num_cols coo + 1 < u32_mod →
  is_u32 (coo_num_edges coo) →
  Z.of_nat (length (coo_row_idxs coo)) = coo_num_edges coo →
  Z.of_nat (length (coo_col_idxs coo)) = coo_num_edges coo →
  Forall (λ c, 0 ≤ c < coo_num_cols coo) (coo_col_idxs coo) →
  ∃ csc es',
    coo_to_csc coo = Some csc ∧
    csc_num_rows csc = coo_num_rows coo ∧ csc_num_cols csc = coo_num_cols coo ∧
    csc_num_edges csc = coo_num_edges coo ∧
    Z.of_nat (length (csc_col_ptrs csc)) = coo_num_cols coo + 1 ∧
    Z.of_nat (length (csc_row_idxs csc)) = coo_num_edges coo ∧
    (∀ c, 0 ≤ c < coo_num_cols coo →
       csc_col_edges csc c = Some (filter (λ e, e.2 = c) (coo_edges coo))) ∧
    csc_edges csc = Some es' ∧ es' ≡ₚ coo_edges coo.
Proof.
  destruct coo as [NR NC m rows cols]. simpl.
  intros HC HC1 Hm Hrl Hcl Hcols.
  destruct (coo_to_csr_rows cols rows NC NR m HC HC1 Hm Hcl Hrl Hcols)
    as (rp & ci & Hrun & Hlrp & Hlci & Hrow).
  rewrite coo_edges_full by done.
  set (es := zip rows cols).
  assert (∀ c, 0 ≤ c < NC →
            csc_col_edges (mkCSC NR NC m rp ci) c = Some (filter (λ e, e.2 = c) es)) as Hcol.
  { intros c Hc. rewrite (csc_col_edges_swap NR NC NC NR m m).
    destruct (Hrow c Hc) as [-> _]. simpl. f_equal.
    rewrite zip_swap, (filter_swap (λ e, e.1 = c)), <- list_fmap_compose.
    etrans; [|apply (list_fmap_id (filter (λ e : Z * Z, e.2 = c) es))].
    apply list_fmap_ext. by intros _ [r k] _. }
  exists (mkCSC NR NC m rp ci),
    (concat ((λ c, filter (λ e : Z * Z, e.2 = c) es) <$> seqZ 0 NC)).
  split.
  { unfold coo_to_csc. simpl. by rewrite Hrun. }
  simpl. split; [done|]. split; [done|]. split; [done|]. split; [done|]. split; [done|].
  split; [done|]. split.
  - unfold csc_edges. simpl.
    rewrite (mapM_Some_2 _ _ ((λ c, filter (λ e : Z * Z, e.2 = c) es) <$> seqZ 0 NC)); [done|].
    apply Forall2_fmap_r, Forall_Forall2_diag, Forall_forall.
    intros c Hc%elem_of_seqZ. apply Hcol. lia.
  - replace NC with (Z.of_nat (Z.to_nat NC)) at 1 by lia.
    apply (concat_buckets snd).
    apply Forall_forall. intros [r c] [i Hi]%list_elem_of_lookup_1.
    apply lookup_zip_with_Some in Hi as (r' & c' & [= <- <-] & _ & Hc).
    simpl. pose proof (Forall_lookup_1 _ _ _ _ Hcols Hc). simpl in *. lia.
Qed.

Lemma coo_to_csc_columns_witness :
  ∃ csc es',
    coo_to_csc (mkCOO 4 4 5 [3; 0; 2; 0; 3] [1; 2; 3; 3; 0]) = Some csc ∧
    csc_num_rows csc = 4 ∧ csc_num_cols csc = 4 ∧ csc_num_edges csc = 5 ∧
    Z.of_nat (length (csc_col_ptrs csc)) = 4 + 1 ∧
    Z.of_nat (length (csc_row_idxs csc)) = 5 ∧
    (∀ c, 0 ≤ c < 4 →
       csc_col_edges csc c
       = Some (filter (λ e, e.2 = c)
                 (coo_edges (mkCOO 4 4 5 [3; 0; 2; 0; 3] [1; 2; 3; 3; 0])))) ∧
    csc_edges csc = Some es' ∧
    es' ≡ₚ coo_edges (mkCOO 4 4 5 [3; 0; 2; 0; 3] [1; 2; 3; 3; 0]).
Proof.
  apply (coo_to_csc_columns (mkCOO 4 4 5 [3; 0; 2; 0; 3] [1; 2; 3; 3; 0])).
  - simpl. lia.
  - reflexivity.
  - split; [simpl; lia|reflexivity].
  - reflexivity.
  - reflexivity.
  - repeat constructor; simpl; lia.
Defined.

Lemma coo_to_csr_round_trip_witness :
  ∃ csr es',
    coo_to_csr (mkCOO 4 4 5 [3; 0; 2; 0; 3] [1; 2; 3; 3; 0]) = Some csr ∧
    csr_num_rows csr = 4 ∧ csr_num_cols csr = 4 ∧
    csr_num_edges csr = 5 ∧
    Z.of_nat (length (csr_row_ptrs csr)) = 4 + 1 ∧
    Z.of_nat (length (csr_col_idxs csr)) = 5 ∧
    rd (csr_row_ptrs csr) 0 = Some 0 ∧
    rd (csr_row_ptrs csr) 4 = Some 5 ∧
    (∀ r lo hi, 0 ≤ r < 4 →
       rd (csr_row_ptrs csr) r = Some lo → rd (csr_row_ptrs csr) (r + 1) = Some hi →
       lo ≤ hi) ∧
    csr_edges csr = Some es' ∧
    es' ≡ₚ coo_edges (mkCOO 4 4 5 [3; 0; 2; 0; 3] [1; 2; 3; 3; 0]).
Proof.
  apply (coo_to_csr_round_trip (mkCOO 4 4 5 [3; 0; 2; 0; 3] [1; 2; 3; 3; 0])).
  - simpl. lia.
  - reflexivity.
  - split; [simpl; lia|reflexivity].
  - reflexivity.
  - reflexivity.
  - repeat constructor; simpl; lia.
Defined.

(** ** From the partitions to the compressed matrices *)

(** A loop that fills a fresh array cell by cell with the images of the
    cells of another array. *)
Lemma convert_loop {A B : Type} (f : A → option B) (g : A → B) (d : B) (l : list A) (n : Z) :
  Z.of_nat (length l) = n →
  (∀ (i : nat) a, l !! i = Some a → f a = Some (g a)) →
  for_upto n (λ i out,
    c ← (if decide (0 ≤ i) then l !! Z.to_nat i else None);
    r ← f c;
    if decide (0 ≤ i < Z.of_nat (length out)) then Some (<[Z.to_nat i := r]> out) else None)
    (replicate (Z.to_nat n) d)
  = Some (g <$> l).
Proof.
  intros Hlen Hf.
  destruct (for_upto_inv
    (λ i (out : list B), out = (g <$> take (Z.to_nat i) l) ++ replicate (Z.to_nat (n - i)) d)
    (λ i out,
       c ← (if decide (0 ≤ i) then l !! Z.to_nat i else None);
       r ← f c;
       if decide (0 ≤ i < Z.of_nat (length out)) then Some (<[Z.to_nat i := r]> out) else None)
    n (replicate (Z.to_nat n) d)) as (out & -> & ->).
  - lia.
  - simpl. by rewrite Z.sub_0_r.
  - intros i out Hi ->.
    destruct (lookup_lt_is_Some_2 l (Z.to_nat i)) as [a Ha]; [lia|].
    rewrite decide_True by lia. rewrite Ha. cbn [mbind option_bind].
    rewrite (Hf _ _ Ha). cbn [mbind option_bind].
    rewrite decide_True
      by (rewrite length_app, length_fmap, length_take, length_replicate; lia).
    eexists. split; [done|].
    replace (Z.to_nat (i + 1)) with (S (Z.to_nat i)) by lia.
    rewrite (take_S_r _ _ _ Ha), fmap_app. simpl.
    replace (Z.to_nat (n - i)) with (S (Z.to_nat (n - (i + 1)))) by lia.
    rewrite insert_app_r_alt; rewrite length_fmap, length_take; [|lia].
    replace (Z.to_nat i - Z.to_nat i `min` length l)%nat with 0%nat by lia.
    simpl. by rewrite <- app_assoc.
  - rewrite Z.sub_diag, take_ge by lia. simpl. by rewrite app_nil_r.
Qed.

(** Above [INT_MAX] the unit count is negative as an [int]: the conversion
    loops do not run, and no partition is converted. *)
Lemma convert_above_int_max (coo : list COO) (n : Z) :
  2 ^ 31 ≤ n < u32_mod →
  int_of_u32 n < 0 ∧
  bfs_top_down_convert coo (int_of_u32 n) = Some [] ∧
  bfs_bottom_up_convert coo (int_of_u32 n) = Some [].
Proof.
  intros Hn. unfold int_of_u32. rewrite decide_False by lia.
  split; [lia|].
  unfold bfs_top_down_convert, bfs_bottom_up_convert, for_upto.
  replace (Z.to_nat (n - u32_mod)) with 0%nat by lia. done.
Qed.

(** X20.  Partitioning composes with the conversions.  For a unit count n
    below 2^31, which the call passes unchanged to the [int] parameter
    [num_dpu], and a well-formed matrix with at least one row and one column
    whose extents n divides, every partition [partition_coo] returns is
    converted by [bfs_top_down] to a row-compressed matrix and by
    [bfs_bottom_up] to a column-compressed one: no conversion meets a
    partition without rows or columns or leaves an array, and the compressed
    matrix of unit p holds the edges of partition p, row by row (column by
    column) in their input order. *)
Theorem partition_coo_then_convert (coo : COO) (n : Z) (prt : Partition) :
  coo_wf coo → 0 < n < 2 ^ 31 →
  (n | coo_num_rows coo) → (n | coo_num_cols coo) →
  0 < coo_num_rows coo → coo_num_rows coo + 1 < u32_mod →
  0 < coo_num_cols coo → coo_num_cols coo + 1 < u32_mod →
  ∃ prts csr csc,
    partition_coo coo n prt = Some prts ∧
    bfs_top_down_convert prts (int_of_u32 n) = Some csr ∧
    bfs_bottom_up_convert prts (int_of_u32 n) = Some csc ∧
    Z.of_nat (length prts) = n ∧ length csr = length prts ∧ length csc = length prts ∧
    ∀ (p : nat) part, prts !! p = Some part →
      ∃ csr_p csc_p,
        csr !! p = Some csr_p ∧ csc !! p = Some csc_p ∧
        coo_to_csr part = Some csr_p ∧ coo_to_csc part = Some csc_p ∧
        (∀ r, 0 ≤ r < coo_num_rows part →
           csr_row_edges csr_p r = Some (filter (λ e, e.1 = r) (coo_edges part))) ∧
        (∀ c, 0 ≤ c < coo_num_cols part →
           csc_col_edges csc_p c = Some (filter (λ e, e.2 = c) (coo_edges part))).
Proof.
  intros Hwf Hn31 HNR HNC HR0 HR1 HC0 HC1.
  assert (2 ^ 31 < u32_mod) as Hmax by reflexivity.
  assert (0 < n < u32_mod) as Hn by lia.
  assert (int_of_u32 n = n) as Hint
    by (unfold int_of_u32; by rewrite decide_True by lia).
  destruct (partition_coo_spec coo n prt Hwf Hn HNR HNC)
    as (R & C & prts & Hgrid & HRC & HR & HC & [kr Hkr] & [kc Hkc] & Hrun & Htab).
  set (nr := coo_num_rows coo / R) in *. set (nc := coo_num_cols coo / C) in *.
  assert (nr = kr) as Hnr by (unfold nr; rewrite Hkr; apply Z.div_mul; lia).
  assert (nc = kc) as Hnc by (unfold nc; rewrite Hkc; apply Z.div_mul; lia).
  assert (0 < nr ≤ coo_num_rows coo) as Hnr' by nia.
  assert (0 < nc ≤ coo_num_cols coo) as Hnc' by nia.
  pose proof (tab_length _ _ _ Htab) as Hlen.
  (* every partition satisfies what the conversions need *)
  assert (∀ (p : nat) part, prts !! p = Some part →
            coo_num_rows part = nr ∧ coo_num_cols part = nc ∧
            is_u32 (coo_num_edges part) ∧
            Z.of_nat (length (coo_row_idxs part)) = coo_num_edges part ∧
            Z.of_nat (length (coo_col_idxs part)) = coo_num_edges part ∧
            Forall (λ r, 0 ≤ r < nr) (coo_row_idxs part) ∧
            Forall (λ c, 0 ≤ c < nc) (coo_col_idxs part)) as Hpart.
  { intros p part Hp.
    pose proof (lookup_lt_Some _ _ _ Hp) as Hlt. rewrite Hlen in Hlt.
    rewrite (tab_lookup _ _ _ _ Htab Hlt) in Hp. injection Hp as <-. simpl.
    set (b := filter _ (coo_edges coo)).
    assert (Forall (λ e, 0 ≤ e.1 < coo_num_rows coo ∧ 0 ≤ e.2 < coo_num_cols coo)
                   (coo_edges coo)) as Hes.
    { destruct Hwf as (_ & _ & _ & Hlr & Hlc & Hrows & Hcols).
      destruct coo as [NR NC m rows cols]. simpl in *.
      rewrite coo_edges_full by done.
      apply Forall_forall. intros [r c] [i Hi]%list_elem_of_lookup_1.
      apply lookup_zip_with_Some in Hi as (r' & c' & [= <- <-] & Hr & Hc).
      split; [exact (Forall_lookup_1 _ _ _ _ Hrows Hr)|exact (Forall_lookup_1 _ _ _ _ Hcols Hc)]. }
    assert (Z.of_nat (length b) ≤ coo_num_edges coo) as Hlb.
    { pose proof (length_filter (λ e, cell_of nr nc C e = Z.of_nat p) (coo_edges coo)) as Hle.
      fold b in Hle. destruct Hwf as (_ & _ & _ & Hlr & Hlc & _).
      unfold coo_edges in Hle. rewrite length_zip, !length_take in Hle. lia. }
    assert (∀ e, e ∈ b → 0 ≤ (rebase nr nc C (Z.of_nat p) e).1 < nr ∧
                         0 ≤ (rebase nr nc C (Z.of_nat p) e).2 < nc) as Hreb.
    { intros [r k] [Hcell He]%list_elem_of_filter.
      rewrite Forall_forall in Hes. destruct (Hes _ He) as [Hr Hk]. simpl in Hr, Hk.
      assert (0 ≤ r / nr < R).
      { split; [apply Z.div_pos; lia|]. apply Z.div_lt_upper_bound; nia. }
      assert (0 ≤ k / nc < C).
      { split; [apply Z.div_pos; lia|]. apply Z.div_lt_upper_bound; nia. }
      unfold cell_of in Hcell. simpl in Hcell.
      assert (Z.of_nat p / C = r / nr) as Hdiv.
      { rewrite <- Hcell, Z.div_add_l by lia. rewrite (Z.div_small (k / nc)) by lia. lia. }
      assert (Z.of_nat p mod C = k / nc) as Hmod.
      { rewrite <- Hcell, Z.add_comm, Z.mod_add by lia. apply Z.mod_small. lia. }
      unfold rebase. simpl. rewrite Hdiv, Hmod.
      pose proof (Z.mod_pos_bound r nr ltac:(lia)). pose proof (Z.div_mod r nr ltac:(lia)).
      pose proof (Z.mod_pos_bound k nc ltac:(lia)). pose proof (Z.div_mod k nc ltac:(lia)).
      lia. }
    destruct Hwf as (_ & _ & Hum & _). unfold is_u32 in *. rewrite !length_fmap.
    split; [done|]. split; [done|]. split; [lia|]. split; [done|]. split; [done|].
    split; apply Forall_fmap, Forall_forall; intros e He; by apply Hreb. }
  assert (∀ (p : nat) part, prts !! p = Some part →
            ∃ csr_p csc_p,
              coo_to_csr part = Some csr_p ∧ coo_to_csc part = Some csc_p ∧
              (∀ r, 0 ≤ r < coo_num_rows part →
                 csr_row_edges csr_p r = Some (filter (λ e, e.1 = r) (coo_edges part))) ∧
              (∀ c, 0 ≤ c < coo_num_cols part →
                 csc_col_edges csc_p c = Some (filter (λ e, e.2 = c) (coo_edges part))))
    as Hconv.
  { intros p part Hp.
    destruct (Hpart p part Hp) as (Hr & Hc & Hue & Hlr & Hlc & Hrows & Hcols).
    destruct part as [pr pc pm prow pcol]. simpl in *. subst pr pc.
    destruct (coo_to_csr_rows prow pcol nr nc pm) as (rp & ci & Hcsr & _ & _ & Hrow);
      [lia|lia|done..|].
    destruct (coo_to_csr_rows pcol prow nc nr pm) as (rp' & ci' & Hcsc & _ & _ & Hcol);
      [lia|lia|done..|].
    exists (mkCSR nr nc pm rp ci), (mkCSC nr nc pm rp' ci').
    split; [done|]. split; [unfold coo_to_csc; simpl; by rewrite Hcsc|].
    rewrite coo_edges_full by done. split.
    - intros r Hr. by destruct (Hrow r Hr).
    - intros c Hc. rewrite (csc_col_edges_swap nr nc nc nr pm pm).
      destruct (Hcol c Hc) as [-> _]. simpl. f_equal.
      rewrite zip_swap, (filter_swap (λ e, e.1 = c)), <- list_fmap_compose.
      etrans; [|apply (list_fmap_id (filter (λ e : Z * Z, e.2 = c) (zip prow pcol)))].
      apply list_fmap_ext. by intros _ [r k] _. }
  (* the two loops *)
  set (to_csr := λ part, default (mkCSR 0 0 0 [] []) (coo_to_csr part)).
  set (to_csc := λ part, default (mkCSC 0 0 0 [] []) (coo_to_csc part)).
  exists prts, (to_csr <$> prts), (to_csc <$> prts).
  split; [done|]. split.
  { rewrite Hint. unfold bfs_top_down_convert, part_at. apply convert_loop; [lia|].
    intros i a Ha. destruct (Hconv i a Ha) as (csr_p & _ & Hc & _).
    unfold to_csr. by rewrite Hc. }
  split.
  { rewrite Hint. unfold bfs_bottom_up_convert, part_at. apply convert_loop; [lia|].
    intros i a Ha. destruct (Hconv i a Ha) as (_ & csc_p & _ & Hc & _).
    unfold to_csc. by rewrite Hc. }
  split; [lia|]. rewrite !length_fmap. split; [done|]. split; [done|].
  intros p part Hp. destruct (Hconv p part Hp) as (csr_p & csc_p & H1 & H2 & H3 & H4).
  exists csr_p, csc_p. rewrite !list_lookup_fmap, Hp. simpl.
  unfold to_csr, to_csc. rewrite H1, H2. simpl. done.
Qed.

Lemma partition_coo_then_convert_witness :
  ∃ prts csr csc,
    partition_coo (mkCOO 8 8 5 [0; 0; 1; 2; 3] [1; 2; 3; 3; 4]) 8 _2D = Some prts ∧
    bfs_top_down_convert prts (int_of_u32 8) = Some csr ∧
    bfs_bottom_up_convert prts (int_of_u32 8) = Some csc ∧
    Z.of_nat (length prts) = 8 ∧ length csr = length prts ∧ length csc = length prts ∧
    ∀ (p : nat) part, prts !! p = Some part →
      ∃ csr_p csc_p,
        csr !! p = Some csr_p ∧ csc !! p = Some csc_p ∧
        coo_to_csr part = Some csr_p ∧ coo_to_csc part = Some csc_p ∧
        (∀ r, 0 ≤ r < coo_num_rows part →
           csr_row_edges csr_p r = Some (filter (λ e, e.1 = r) (coo_edges part))) ∧
        (∀ c, 0 ≤ c < coo_num_cols part →
           csc_col_edges csc_p c = Some (filter (λ e, e.2 = c) (coo_edges part))).
Proof.
  apply (partition_coo_then_convert (mkCOO 8 8 5 [0; 0; 1; 2; 3] [1; 2; 3; 3; 4]) 8 _2D).
  - unfold coo_wf, is_u32, u32_mod. simpl.
    repeat split; try lia; repeat constructor; lia.
  - split; [lia|reflexivity].
  - exists 1. reflexivity.
  - exists 1. reflexivity.
  - simpl. lia.
  - reflexivity.
  - simpl. lia.
  - reflexivity.
Defined.

(** ** [print_node_levels]: units that report disjoint blocks *)

Lemma merge_level_first v : merge_level 0 v = v.
Proof. unfold merge_level. by rewrite decide_True by (by left). Qed.

(** The inner loop on a block that is still zero: the block receives the
    report as it is. *)
Lemma merge_unit_fresh_block total_nodes len_nl i (pre lv : list Z) (d : nat) :
  0 < len_nl → 0 < total_nodes < u32_mod → 0 ≤ i →
  Z.of_nat (length lv) = len_nl →
  Z.of_nat (length pre) = i * len_nl →
  Z.of_nat (length pre) + len_nl + Z.of_nat d = total_nodes →
  merge_unit total_nodes len_nl 1 i lv (pre ++ replicate (Z.to_nat len_nl + d) 0)
  = Some (pre ++ lv ++ replicate d 0).
Proof.
  intros Hlen Htot Hi Hlv Hpre Hsum. unfold merge_unit.
  destruct (for_upto_inv
    (λ n (a : list Z), a = pre ++ take (Z.to_nat n) lv
                           ++ replicate (Z.to_nat (len_nl - n) + d) 0)
    (λ n node_levels,
       nreal ← nreal_index total_nodes len_nl 1 i n;
       cur ← rd node_levels nreal;
       v ← rd lv n;
       wr node_levels nreal (merge_level cur v))
    len_nl (pre ++ replicate (Z.to_nat len_nl + d) 0)) as (a & -> & ->).
  - lia.
  - simpl. by rewrite Z.sub_0_r.
  - intros n a Hn ->.
    assert (nreal_index total_nodes len_nl 1 i n = Some (Z.of_nat (length pre) + n)) as ->.
    { unfold nreal_index, udiv, umod. rewrite decide_False by lia. simpl.
      rewrite decide_False by lia. simpl. rewrite Z.div_1_r.
      rewrite (u32_small (i * len_nl)) by (unfold is_u32; nia).
      rewrite Z.mod_small by nia.
      f_equal. rewrite u32_small by (unfold is_u32; nia). lia. }
    cbn [mbind option_bind].
    destruct (lookup_lt_is_Some_2 lv (Z.to_nat n)) as [v Hv]; [lia|].
    replace (Z.to_nat (len_nl - n)) with (S (Z.to_nat (len_nl - (n + 1)))) by lia.
    set (k := Z.to_nat (len_nl - (n + 1))).
    assert (length (take (Z.to_nat n) lv) = Z.to_nat n) as Htk by (rewrite length_take; lia).
    unfold rd. rewrite !decide_True by lia.
    replace (Z.to_nat (Z.of_nat (length pre) + n)) with (length pre + Z.to_nat n)%nat by lia.
    rewrite lookup_app_r by lia.
    replace (length pre + Z.to_nat n - length pre)%nat with (Z.to_nat n) by lia.
    rewrite lookup_app_r by lia. rewrite Htk, Nat.sub_diag. simpl.
    rewrite Hv. simpl. rewrite merge_level_first.
    rewrite wr_Some
      by (rewrite !length_app, Htk; simpl; rewrite length_replicate; lia).
    eexists. split; [done|].
    replace (Z.to_nat (Z.of_nat (length pre) + n)) with (length pre + Z.to_nat n)%nat by lia.
    rewrite insert_app_r.
    rewrite <- Htk at 1. rewrite insert_app_r_alt, Nat.sub_diag by lia. simpl.
    replace (Z.to_nat (n + 1)) with (S (Z.to_nat n)) by lia.
    rewrite (take_S_r _ _ _ Hv), <- !app_assoc. done.
  - rewrite Z.sub_diag, take_ge by lia. done.
Qed.

(** X21.  When every unit reports its own block of [len_nl] nodes -- div is
    1 and total_nodes is the unit count times len_nl, as for the top-down
    kernel on row partitions -- the merged array is the concatenation of the
    reports of the units, in the order of the units: nothing is merged, and
    no report is lost. *)
Theorem merge_node_levels_disjoint_blocks (set : list DPU) (levels : list (list Z))
    (total_nodes len_nl : Z) :
  0 < len_nl → total_nodes = Z.of_nat (length set) * len_nl → 0 < total_nodes < u32_mod →
  Forall2 (λ dpu lv, dpu_get_mram_array_u32 dpu "node_levels" len_nl = Some lv) set levels →
  merge_node_levels set total_nodes len_nl 1 = Some (concat levels).
Proof.
  intros Hlen Htot Hfit Hrep.
  assert (∀ (k : nat) lv, levels !! k = Some lv → Z.of_nat (length lv) = len_nl) as Hlv.
  { intros k lv Hk. destruct (Forall2_lookup_r _ _ _ _ _ Hrep Hk) as (dpu & _ & Hget).
    unfold dpu_get_mram_array_u32 in Hget.
    destruct (dpu_copy_from dpu "node_levels"); simpl in Hget; [|done].
    injection Hget as <-. rewrite length_dpu_copy_from_mram. lia. }
  assert (∀ k : nat, (k ≤ length levels)%nat →
            Z.of_nat (length (concat (take k levels))) = Z.of_nat k * len_nl) as Hcat.
  { induction k as [|k IH]; intros Hk; [simpl; lia|].
    destruct (lookup_lt_is_Some_2 levels k) as [lv Hk']; [lia|].
    rewrite (take_S_r _ _ _ Hk'), concat_app, length_app. simpl.
    rewrite length_app. simpl. rewrite Nat2Z.inj_add, IH by lia.
    rewrite Nat2Z.inj_add, (Hlv _ _ Hk'). lia. }
  pose proof (Forall2_length _ _ _ Hrep) as Hlenset.
  unfold merge_node_levels.
  destruct (dpu_foreach_inv
    (λ i (a : list Z), a = concat (take (Z.to_nat i) levels)
                           ++ replicate (Z.to_nat ((Z.of_nat (length set) - i) * len_nl)) 0)
    (λ dpu i node_levels,
       nl_tmp ← dpu_get_mram_array_u32 dpu "node_levels" len_nl;
       merge_unit total_nodes len_nl 1 i nl_tmp node_levels)
    set 0 (calloc total_nodes)) as (a & -> & ->).
  - simpl. unfold calloc. rewrite Z.sub_0_r. by rewrite Htot.
  - intros k dpu a Hk ->. rewrite !Z.add_0_l.
    destruct (Forall2_lookup_l _ _ _ _ _ Hrep Hk) as (lv & Hlk & ->).
    cbn [mbind option_bind]. rewrite Nat2Z.id.
    apply lookup_lt_Some in Hk as Hklt.
    pose proof (Hlv _ _ Hlk) as Hl. pose proof (Hcat k ltac:(lia)) as Hc.
    replace (Z.to_nat ((Z.of_nat (length set) - Z.of_nat k) * len_nl))
      with (Z.to_nat len_nl + Z.to_nat ((Z.of_nat (length set) - (Z.of_nat k + 1)) * len_nl))%nat
      by nia.
    rewrite merge_unit_fresh_block; [|lia|lia|lia|done|done|nia].
    eexists. split; [done|].
    replace (Z.to_nat (Z.of_nat k + 1)) with (S k) by lia.
    by rewrite (take_S_r _ _ _ Hlk), concat_app, <- app_assoc; simpl; rewrite app_nil_r.
  - rewrite Z.add_0_l, Z.sub_diag, Nat2Z.id, take_ge by lia. simpl. by rewrite app_nil_r.
Qed.

Lemma merge_node_levels_disjoint_blocks_witness :
  merge_node_levels
    [mkDPU {[ "node_levels" := 0 ]} (λ a, a); mkDPU {[ "node_levels" := 8 ]} (λ _, 0)] 6 3 1
  = Some (concat [[0; 4; 8]; [0; 0; 0]]).
Proof.
  apply (merge_node_levels_disjoint_blocks
           [mkDPU {[ "node_levels" := 0 ]} (λ a, a); mkDPU {[ "node_levels" := 8 ]} (λ _, 0)]
           [[0; 4; 8]; [0; 0; 0]] 6 3).
  - lia.
  - reflexivity.
  - split; [lia|reflexivity].
  - repeat constructor.
Defined.

(** ** [print_node_levels]: the merged level of a node *)

Lemma nreal_index_block total_nodes len_nl div i n :
  0 < len_nl → (len_nl | total_nodes) → 0 < total_nodes < u32_mod →
  0 < div → 0 ≤ i → 0 ≤ n < len_nl → i / div * len_nl < u32_mod →
  nreal_index total_nodes len_nl div i n = Some (n + block_start total_nodes len_nl div i) ∧
  0 ≤ block_start total_nodes len_nl div i ∧
  block_start total_nodes len_nl div i + len_nl ≤ total_nodes.
Proof.
  intros Hlen Hd Htot Hdiv Hi Hn Hov.
  destruct (nreal_index_spec total_nodes len_nl div i n) as (t & Ht & Hr & Hb); [done..|].
  assert (total_nodes / len_nl = t) as Hq.
  { rewrite Ht, Z.mul_comm. apply Z.div_mul. lia. }
  unfold block_start. rewrite Hq. split; [done|].
  assert (0 < t) by nia.
  pose proof (Z.mod_pos_bound (i / div) t ltac:(lia)). nia.
Qed.

(** The inner loop: the block of the unit is updated cell by cell with the
    report of the unit; the other cells stay. *)
Lemma merge_unit_block total_nodes len_nl div i (lv a : list Z) :
  0 < len_nl → (len_nl | total_nodes) → 0 < total_nodes < u32_mod →
  0 < div → 0 ≤ i → i / div * len_nl < u32_mod →
  Z.of_nat (length lv) = len_nl → Z.of_nat (length a) = total_nodes →
  ∃ a', merge_unit total_nodes len_nl div i lv a = Some a' ∧
        Z.of_nat (length a') = total_nodes ∧
        ∀ c, 0 ≤ c < total_nodes →
          a' !! Z.to_nat c
          = if decide (block_start total_nodes len_nl div i ≤ c
                       < block_start total_nodes len_nl div i + len_nl)
            then Some (merge_level (a !!! Z.to_nat c)
                         (lv !!! Z.to_nat (c - block_start total_nodes len_nl div i)))
            else a !! Z.to_nat c.
Proof.
  intros Hlen Hd Htot Hdiv Hi Hov Hlv Ha.
  set (off := block_start total_nodes len_nl div i).
  destruct (nreal_index_block total_nodes len_nl div i 0) as (_ & Hoff0 & Hoff1);
    [done..|lia|done|]. fold off in Hoff0, Hoff1.
  unfold merge_unit.
  destruct (for_upto_inv
    (λ n (b : list Z),
       Z.of_nat (length b) = total_nodes ∧
       ∀ c, 0 ≤ c < total_nodes →
         b !! Z.to_nat c
         = if decide (off ≤ c < off + n)
           then Some (merge_level (a !!! Z.to_nat c) (lv !!! Z.to_nat (c - off)))
           else a !! Z.to_nat c)
    (λ n node_levels,
       nreal ← nreal_index total_nodes len_nl div i n;
       cur ← rd node_levels nreal;
       v ← rd lv n;
       wr node_levels nreal (merge_level cur v))
    len_nl a) as (a' & Hrun & Hlen' & Hcells).
  - lia.
  - split; [done|]. intros c Hc. by rewrite decide_False by lia.
  - intros n b Hn [Hb Hcells].
    destruct (nreal_index_block total_nodes len_nl div i n) as (-> & _); [done..|].
    fold off. cbn [mbind option_bind].
    destruct (lookup_lt_is_Some_2 lv (Z.to_nat n)) as [v Hv]; [lia|].
    destruct (lookup_lt_is_Some_2 a (Z.to_nat (n + off))) as [cur Hcur]; [lia|].
    unfold rd. rewrite !decide_True by lia.
    rewrite (Hcells (n + off)) by lia. rewrite decide_False by lia.
    rewrite Hcur, Hv. cbn [mbind option_bind].
    rewrite wr_Some by lia. eexists. split; [done|].
    split; [by rewrite length_insert|].
    intros c Hc. destruct (decide (c = n + off)) as [->|Hne].
    + rewrite list_lookup_insert_eq by lia. rewrite decide_True by lia.
      rewrite (list_lookup_total_correct _ _ _ Hcur).
      replace (n + off - off) with n by lia.
      by rewrite (list_lookup_total_correct _ _ _ Hv).
    + rewrite list_lookup_insert_ne by lia. rewrite Hcells by done.
      destruct (decide (off ≤ c < off + n)).
      * by rewrite decide_True by lia.
      * by rewrite decide_False by lia.
  - exists a'. done.
Qed.

Lemma reports_snoc total_nodes len_nl div (levels : list (list Z)) lv c :
  reports total_nodes len_nl div (levels ++ [lv]) c
  = reports total_nodes len_nl div levels c
    ++ (let off := block_start total_nodes len_nl div (Z.of_nat (length levels)) in
        if decide (off ≤ c < off + len_nl) then [lv !!! Z.to_nat (c - off)] else []).
Proof.
  unfold reports. rewrite imap_app, concat_app. simpl.
  by rewrite app_nil_r, Nat.add_0_r.
Qed.

Lemma min_nonzero_nonneg (vs : list Z) : Forall (λ v, 0 < v) vs → 0 ≤ min_nonzero vs.
Proof.
  induction 1 as [|v vs Hv _ IH]; simpl; [done|].
  cbv beta in Hv. repeat case_decide; lia.
Qed.

(** The updates of one cell by positive reports leave the least of them. *)
Lemma foldl_merge_level_positive (vs : list Z) a :
  0 ≤ a → Forall (λ v, 0 < v) vs →
  foldl merge_level a vs
  = if decide (a = 0) then min_nonzero vs
    else if decide (min_nonzero vs = 0) then a else Z.min a (min_nonzero vs).
Proof.
  intros Ha Hvs. revert a Ha. induction Hvs as [|v vs Hv Hvs IH]; intros a Ha.
  - simpl. repeat case_decide; lia.
  - cbv beta in Hv. cbn [foldl].
    rewrite IH by (unfold merge_level; destruct (decide (a = 0 ∨ v < a)); lia).
    pose proof (min_nonzero_nonneg vs Hvs) as Hm. clear IH.
    change (min_nonzero (v :: vs))
      with (if decide (v = 0) then min_nonzero vs
            else if decide (min_nonzero vs = 0 ∨ v < min_nonzero vs) then v
                 else min_nonzero vs).
    generalize dependent (min_nonzero vs). intros m Hm.
    unfold merge_level. repeat case_decide; lia.
Qed.

(** X22.  The merged level of a node is what the update of line 594 makes of
    the reports for that node, taken in the order of the units, starting
    from 0: only the units whose block covers the node count, each with the
    entry of the node in its array.  When all these reports are positive the
    merged level is the least of them. *)
Theorem merge_node_levels_in_unit_order (set : list DPU) (levels : list (list Z))
    (total_nodes len_nl div : Z) :
  0 < len_nl → (len_nl | total_nodes) → 0 < total_nodes < u32_mod → 0 < div →
  (Z.of_nat (length set) - 1) / div * len_nl < u32_mod →
  Forall2 (λ dpu lv, dpu_get_mram_array_u32 dpu "node_levels" len_nl = Some lv) set levels →
  ∃ node_levels,
    merge_node_levels set total_nodes len_nl div = Some node_levels ∧
    Z.of_nat (length node_levels) = total_nodes ∧
    ∀ c, 0 ≤ c < total_nodes →
      node_levels !! Z.to_nat c
      = Some (foldl merge_level 0 (reports total_nodes len_nl div levels c)) ∧
      (Forall (λ v, 0 < v) (reports total_nodes len_nl div levels c) →
       node_levels !! Z.to_nat c = Some (min_nonzero (reports total_nodes len_nl div levels c))).
Proof.
  intros Hlen Hd Htot Hdiv Hov Hrep.
  assert (∀ i, 0 ≤ i < Z.of_nat (length set) → i / div * len_nl < u32_mod) as Hov'.
  { intros i Hi. eapply Z.le_lt_trans; [|exact Hov].
    apply Z.mul_le_mono_nonneg_r; [lia|]. apply Z.div_le_mono; lia. }
  assert (∀ (k : nat) lv, levels !! k = Some lv → Z.of_nat (length lv) = len_nl) as Hlv.
  { intros k lv Hk. destruct (Forall2_lookup_r _ _ _ _ _ Hrep Hk) as (dpu & _ & Hget).
    unfold dpu_get_mram_array_u32 in Hget.
    destruct (dpu_copy_from dpu "node_levels"); simpl in Hget; [|done].
    injection Hget as <-. rewrite length_dpu_copy_from_mram. lia. }
  pose proof (Forall2_length _ _ _ Hrep) as Hlenset.
  unfold merge_node_levels.
  destruct (dpu_foreach_inv
    (λ i (a : list Z),
       Z.of_nat (length a) = total_nodes ∧
       ∀ c, 0 ≤ c < total_nodes →
         a !! Z.to_nat c
         = Some (foldl merge_level 0
                   (reports total_nodes len_nl div (take (Z.to_nat i) levels) c)))
    (λ dpu i node_levels,
       nl_tmp ← dpu_get_mram_array_u32 dpu "node_levels" len_nl;
       merge_unit total_nodes len_nl div i nl_tmp node_levels)
    set 0 (calloc total_nodes)) as (a & Hrun & Hlen' & Hcells).
  - unfold calloc. rewrite length_replicate. split; [lia|].
    intros c Hc. simpl. apply lookup_replicate_2. lia.
  - intros k dpu a Hk [Ha Hcells]. rewrite !Z.add_0_l in *.
    destruct (Forall2_lookup_l _ _ _ _ _ Hrep Hk) as (lv & Hlk & ->).
    cbn [mbind option_bind]. apply lookup_lt_Some in Hk as Hklt.
    destruct (merge_unit_block total_nodes len_nl div (Z.of_nat k) lv a)
      as (a' & -> & Ha' & Hcells'); [done..|lia|apply Hov'; lia|by eapply Hlv|done|].
    eexists. split; [done|]. split; [done|].
    intros c Hc. rewrite (Hcells' c Hc).
    replace (Z.to_nat (Z.of_nat k + 1)) with (S k) by lia.
    rewrite (take_S_r _ _ _ Hlk), reports_snoc, foldl_app.
    rewrite length_take, Nat.min_l by (apply lookup_lt_Some in Hlk; lia).
    rewrite Nat2Z.id in Hcells. specialize (Hcells c Hc).
    cbv zeta. case_decide.
    + simpl. by rewrite (list_lookup_total_correct _ _ _ Hcells).
    + simpl. done.
  - rewrite Z.add_0_l, Nat2Z.id, take_ge in Hcells by lia.
    exists a. split; [done|]. split; [lia|].
    intros c Hc. split; [by apply Hcells|].
    intros Hpos. rewrite (Hcells c Hc). f_equal.
    rewrite foldl_merge_level_positive by done. by rewrite decide_True.
Qed.

Lemma merge_node_levels_in_unit_order_witness :
  ∃ node_levels,
    merge_node_levels
      [mkDPU {[ "node_levels" := 4 ]} (λ a, a); mkDPU {[ "node_levels" := 0 ]} (λ a, a + 1)]
      3 3 1 = Some node_levels ∧
    Z.of_nat (length node_levels) = 3 ∧
    ∀ c, 0 ≤ c < 3 →
      node_levels !! Z.to_nat c
      = Some (foldl merge_level 0 (reports 3 3 1 [[4; 8; 12]; [1; 5; 9]] c)) ∧
      (Forall (λ v, 0 < v) (reports 3 3 1 [[4; 8; 12]; [1; 5; 9]] c) →
       node_levels !! Z.to_nat c = Some (min_nonzero (reports 3 3 1 [[4; 8; 12]; [1; 5; 9]] c))).
Proof.
  apply (merge_node_levels_in_unit_order
           [mkDPU {[ "node_levels" := 4 ]} (λ a, a); mkDPU {[ "node_levels" := 0 ]} (λ a, a + 1)]
           [[4; 8; 12]; [1; 5; 9]] 3 3 1).
  - lia.
  - exists 1. reflexivity.
  - split; [lia|reflexivity].
  - lia.
  - reflexivity.
  - repeat constructor.
Defined.

(** ** [print_dpu_cycles] *)

Lemma max_cycles_snoc (l : list Z) x :
  Forall (λ c, 0 ≤ c) l → 0 ≤ x → max_cycles (l ++ [x]) = Z.max (max_cycles l) x.
Proof.
  intros Hl Hx. unfold max_cycles. induction Hl as [|c l Hc _ IH]; simpl; [lia|].
  rewrite IH. lia.
Qed.

Lemma max_cycles_app (l k : list Z) :
  Forall (λ c, 0 ≤ c) l → Forall (λ c, 0 ≤ c) k →
  max_cycles (l ++ k) = Z.max (max_cycles l) (max_cycles k).
Proof.
  intros Hl Hk. unfold max_cycles. induction Hl as [|c l Hc _ IH]; simpl.
  - assert (0 ≤ foldr Z.max 0 k); [|lia].
    clear. induction k; simpl; lia.
  - rewrite IH. lia.
Qed.

Lemma max_cycles_range (l : list Z) b :
  0 < b → Forall (λ c, 0 ≤ c < b) l → 0 ≤ max_cycles l < b.
Proof.
  intros Hb Hl. unfold max_cycles. induction Hl as [|c l Hc _ IH]; simpl; lia.
Qed.

Lemma max_cycles_concat (ls : list (list Z)) :
  Forall (Forall (λ c, 0 ≤ c)) ls → max_cycles (max_cycles <$> ls) = max_cycles (concat ls).
Proof.
  induction 1 as [|l ls Hl Hls IH]; [done|].
  rewrite fmap_cons. change (concat (l :: ls)) with (l ++ concat ls).
  rewrite max_cycles_app by (done || by apply Forall_concat).
  change (max_cycles (max_cycles l :: (max_cycles <$> ls)))
    with (Z.max (max_cycles l) (max_cycles (max_cycles <$> ls))).
  by rewrite IH.
Qed.

Lemma max_tasklet_cycles_val (row : list Z) :
  Z.of_nat (length row) = NR_TASKLETS → Forall (λ c, 0 ≤ c < u32_mod) row →
  max_tasklet_cycles row = Some (max_cycles row).
Proof.
  intros Hlen Hrow. unfold max_tasklet_cycles.
  destruct (for_upto_inv (λ t max, max = max_cycles (take (Z.to_nat t) row))
    (λ t max,
       tasklet_cycles ← rd row t;
       Some (if decide (tasklet_cycles > max) then u32 tasklet_cycles else max))
    NR_TASKLETS 0) as (m & -> & ->).
  - by vm_compute.
  - done.
  - intros t max Ht ->.
    destruct (lookup_lt_is_Some_2 row (Z.to_nat t)) as [c Hc]; [lia|].
    unfold rd. rewrite decide_True by lia. rewrite Hc. cbn [mbind option_bind].
    eexists. split; [done|].
    replace (Z.to_nat (t + 1)) with (S (Z.to_nat t)) by lia.
    pose proof (Forall_lookup_1 _ _ _ _ Hrow Hc) as Hcr. cbv beta in Hcr.
    rewrite (take_S_r _ _ _ Hc), max_cycles_snoc; [|apply Forall_take|lia].
    + rewrite u32_small by done. case_decide; lia.
    + eapply Forall_impl; [exact Hrow|]. intros x Hx. cbv beta in Hx. lia.
  - by rewrite take_ge by lia.
Qed.

(** X23.  With one row of [NR_TASKLETS] counters per unit, all below 2^32,
    [print_dpu_cycles] prints the largest counter of the whole set, followed
    by a newline (0 for an empty set).  The bound is the width of the
    running maximum of a unit, which is a [uint32_t]. *)
Theorem print_dpu_cycles_prints_maximum (set : list DPU) (num_dpu : Z)
    (cycles : list (list Z)) :
  Z.of_nat (length set) = num_dpu → length cycles = length set →
  Forall (λ row, Z.of_nat (length row) = NR_TASKLETS ∧ Forall (λ c, 0 ≤ c < u32_mod) row)
         cycles →
  print_dpu_cycles set num_dpu cycles = Some (pretty (max_cycles (concat cycles)) +:+ NL).
Proof.
  intros Hset Hcyc Hrows. unfold print_dpu_cycles.
  assert (∀ (k : nat) row, cycles !! k = Some row →
            max_tasklet_cycles row = Some (max_cycles row) ∧ 0 ≤ max_cycles row < u32_mod)
    as Hrow.
  { intros k row Hk. destruct (Forall_lookup_1 _ _ _ _ Hrows Hk) as [Hl Hr].
    split; [by apply max_tasklet_cycles_val|]. by apply max_cycles_range. }
  destruct (dpu_foreach_inv
    (λ i (a : list Z),
       a = (max_cycles <$> take (Z.to_nat i) cycles) ++ replicate (Z.to_nat (num_dpu - i)) 0)
    (λ dpu i max_dpu_cycles,
       row ← (if decide (0 ≤ i) then cycles !! Z.to_nat i else None);
       max ← max_tasklet_cycles row;
       wr max_dpu_cycles i max)
    set 0 (malloc num_dpu)) as (a & -> & ->).
  - simpl. by rewrite Z.sub_0_r.
  - intros k dpu a Hk ->. rewrite !Z.add_0_l. apply lookup_lt_Some in Hk.
    destruct (lookup_lt_is_Some_2 cycles k) as [row Hr]; [lia|].
    rewrite decide_True by lia. rewrite Nat2Z.id, Hr. cbn [mbind option_bind].
    destruct (Hrow _ _ Hr) as [-> _]. cbn [mbind option_bind].
    rewrite wr_Some
      by (rewrite length_app, length_fmap, length_take, length_replicate; lia).
    eexists. split; [done|].
    replace (Z.to_nat (Z.of_nat k + 1)) with (S k) by lia.
    rewrite (take_S_r _ _ _ Hr), fmap_app. simpl.
    replace (Z.to_nat (num_dpu - Z.of_nat k)) with (S (Z.to_nat (num_dpu - (Z.of_nat k + 1))))
      by lia.
    rewrite Nat2Z.id.
    rewrite insert_app_r_alt; rewrite length_fmap, length_take; [|lia].
    replace (k - k `min` length cycles)%nat with 0%nat by lia.
    simpl. by rewrite <- app_assoc.
  - cbn [mbind option_bind].
    rewrite Z.add_0_l, Hset, Z.sub_diag, <- Hset, Nat2Z.id, take_ge by lia.
    simpl. rewrite app_nil_r.
    assert (Forall (λ c, 0 ≤ c) (max_cycles <$> cycles)) as Hpos.
    { apply Forall_fmap, Forall_lookup_2. intros k row Hk. simpl.
      destruct (Hrow _ _ Hk) as [_ ?]. lia. }
    destruct (for_upto_inv
      (λ d acc, acc = max_cycles (take (Z.to_nat d) (max_cycles <$> cycles)))
      (λ d max_cycles_lvl,
         max_dpu ← rd (max_cycles <$> cycles) d;
         Some (if decide (max_dpu > max_cycles_lvl) then max_dpu else max_cycles_lvl))
      (Z.of_nat (length set)) 0) as (m & -> & ->).
    + lia.
    + done.
    + intros d acc Hd ->.
      destruct (lookup_lt_is_Some_2 (max_cycles <$> cycles) (Z.to_nat d)) as [c Hc];
        [rewrite length_fmap; lia|].
      unfold rd. rewrite decide_True by lia. rewrite Hc. cbn [mbind option_bind].
      eexists. split; [done|].
      replace (Z.to_nat (d + 1)) with (S (Z.to_nat d)) by lia.
      pose proof (Forall_lookup_1 _ _ _ _ Hpos Hc) as Hc0. cbv beta in Hc0.
      rewrite (take_S_r _ _ _ Hc), max_cycles_snoc; [|by apply Forall_take|done].
      case_decide; lia.
    + cbn [mbind option_bind]. rewrite take_ge by (rewrite length_fmap; lia).
      rewrite max_cycles_concat; [done|].
      eapply Forall_impl; [exact Hrows|].
      intros row [_ Hr]. eapply Forall_impl; [exact Hr|]. intros x Hx. cbv beta in Hx. lia.
Qed.

Lemma print_dpu_cycles_prints_maximum_witness :
  print_dpu_cycles [mkDPU ∅ (λ _, 0); mkDPU ∅ (λ _, 0)] 2
    [[5; 9; 2; 0; 0; 1; 7; 3; 3; 4; 8]; [6; 1; 12; 0; 2; 2; 2; 5; 0; 0; 11]]
  = Some (pretty (max_cycles (concat [[5; 9; 2; 0; 0; 1; 7; 3; 3; 4; 8];
                                      [6; 1; 12; 0; 2; 2; 2; 5; 0; 0; 11]])) +:+ NL).
Proof.
  apply (print_dpu_cycles_prints_maximum [mkDPU ∅ (λ _, 0); mkDPU ∅ (λ _, 0)] 2
           [[5; 9; 2; 0; 0; 1; 7; 3; 3; 4; 8]; [6; 1; 12; 0; 2; 2; 2; 5; 0; 0; 11]]).
  - reflexivity.
  - reflexivity.
  - repeat constructor; try reflexivity; try lia.
Defined.

(** ** [start_row] and [start_2d]: the union of the next frontiers *)

Lemma for_loop_ext {St : Type} (body body' : Z → St → option St) k lo s :
  (∀ i s, lo ≤ i < lo + Z.of_nat k → body i s = body' i s) →
  for_loop k lo body s = for_loop k lo body' s.
Proof.
  revert lo s. induction k as [|k IH]; intros lo s Hext; [done|].
  simpl. rewrite Hext by lia. destruct (body' lo s) as [s'|]; [|done].
  apply IH. intros i s'' Hi. apply Hext. lia.
Qed.

Lemma for_upto_ext {St : Type} (body body' : Z → St → option St) n s :
  (∀ i s, 0 ≤ i < n → body i s = body' i s) →
  for_upto n body s = for_upto n body' s.
Proof. intros Hext. apply for_loop_ext. intros i s' Hi. apply Hext. lia. Qed.

(** One block of words or-ed into the frontier. *)
Lemma union_block (nf_tmp frontier : list Z) src dst len :
  0 ≤ len → 0 ≤ src → src + len ≤ Z.of_nat (length nf_tmp) →
  0 ≤ dst → dst + len ≤ Z.of_nat (length frontier) →
  ∃ f', for_upto len (λ c f,
          x ← rd nf_tmp (src + c);
          y ← rd f (dst + c);
          wr f (dst + c) (Z.lor y x)) frontier = Some f' ∧
        length f' = length frontier ∧
        ∀ k : nat,
          f' !! k = if decide (dst ≤ Z.of_nat k < dst + len)
                    then Some (Z.lor (frontier !!! k)
                                 (nf_tmp !!! Z.to_nat (src + (Z.of_nat k - dst))))
                    else frontier !! k.
Proof.
  intros Hlen Hsrc Hnf Hdst Hfr.
  destruct (for_upto_inv
    (λ n (f : list Z),
       length f = length frontier ∧
       ∀ k : nat,
         f !! k = if decide (dst ≤ Z.of_nat k < dst + n)
                  then Some (Z.lor (frontier !!! k)
                               (nf_tmp !!! Z.to_nat (src + (Z.of_nat k - dst))))
                  else frontier !! k)
    (λ c f,
       x ← rd nf_tmp (src + c);
       y ← rd f (dst + c);
       wr f (dst + c) (Z.lor y x))
    len frontier) as (f' & Hrun & Hinv); [lia| | |by eauto].
  - split; [done|]. intros k. by rewrite decide_False by lia.
  - intros c f Hc [Hl Hcells].
    destruct (lookup_lt_is_Some_2 nf_tmp (Z.to_nat (src + c))) as [x Hx]; [lia|].
    destruct (lookup_lt_is_Some_2 frontier (Z.to_nat (dst + c))) as [y Hy]; [lia|].
    unfold rd. rewrite !decide_True by lia. rewrite Hx. cbn [mbind option_bind].
    rewrite Hcells, decide_False by lia. rewrite Hy. cbn [mbind option_bind].
    rewrite wr_Some by lia. eexists. split; [done|].
    split; [by rewrite length_insert|].
    intros k. destruct (decide (k = Z.to_nat (dst + c))) as [->|Hne].
    + rewrite list_lookup_insert_eq by lia. rewrite decide_True by lia.
      rewrite (list_lookup_total_correct _ _ _ Hy).
      replace (src + (Z.of_nat (Z.to_nat (dst + c)) - dst)) with (src + c) by lia.
      by rewrite (list_lookup_total_correct _ _ _ Hx).
    + rewrite list_lookup_insert_ne by done. rewrite Hcells.
      destruct (decide (dst ≤ Z.of_nat k < dst + c)).
      * by rewrite decide_True by lia.
      * by rewrite decide_False by lia.
Qed.

Lemma testbit_foldl_lor (l : list Z) a b :
  Z.testbit (foldl Z.lor a l) b = true ↔
  Z.testbit a b = true ∨ ∃ x, x ∈ l ∧ Z.testbit x b = true.
Proof.
  revert a. induction l as [|x l IH]; intros a; simpl.
  - split; [by left|]. intros [?|(x & Hx & _)]; [done|]. by apply elem_of_nil in Hx.
  - rewrite IH, Z.lor_spec, orb_true_iff. split.
    + intros [[?|?]|(y & Hy & ?)]; [by left|right|right].
      * exists x. split; [apply list_elem_of_here|done].
      * exists y. split; [by apply list_elem_of_further|done].
    + intros [?|(y & Hy & ?)]; [by left; left|].
      apply elem_of_cons in Hy as [->|Hy]; [by left; right|]. right. eauto.
Qed.



Lemma block_of_word len_nf q k :
  0 < len_nf → 0 ≤ k →
  (q * len_nf ≤ k < q * len_nf + len_nf) ↔ k / len_nf = q.
Proof.
  intros Hlen Hk. pose proof (Z.div_mod k len_nf ltac:(lia)) as Hdm.
  pose proof (Z.mod_pos_bound k len_nf Hlen) as Hb. split.
  - intros Hq. symmetry. apply Z.div_unique with (k - q * len_nf); lia.
  - intros <-. lia.
Qed.

(** X25.  The union of [start_2d], for a frontier of C blocks of [len_nf]
    words: afterwards word c of block j is the bitwise or of what it held
    and of word c of the next frontier of every unit i with i mod C = j that
    has set [nf_updated] to 1, in the order of the units; so a node is in the
    frontier exactly when it was there before or is in the next frontier of
    an updated unit of its grid column.  Units that did not update are not
    read, and the words behind the C blocks are untouched. *)
Theorem start_2d_union_by_grid_column (set : list DPU) (C len_nf : Z)
    (nf_updated nf_tmp frontier : list Z) :
  0 < C → 0 < len_nf →
  Z.of_nat (length set) ≤ Z.of_nat (length nf_updated) →
  Z.of_nat (length set) * len_nf ≤ Z.of_nat (length nf_tmp) →
  Z.of_nat (length set) * len_nf < u32_mod →
  C * len_nf ≤ Z.of_nat (length frontier) → C * len_nf < u32_mod →
  ∃ f',
    start_2d_union set (C * len_nf) len_nf nf_updated nf_tmp frontier = Some f' ∧
    length f' = length frontier ∧
    (∀ j c, 0 ≤ j < C → 0 ≤ c < len_nf →
       f' !! Z.to_nat (j * len_nf + c)
       = Some (foldl Z.lor (frontier !!! Z.to_nat (j * len_nf + c))
                 (nf_words len_nf nf_tmp
                    (filter (λ i, i mod C = j ∧ nf_updated !!! Z.to_nat i = 1)
                            (seqZ 0 (Z.of_nat (length set)))) c))) ∧
    (∀ j c b, 0 ≤ j < C → 0 ≤ c < len_nf →
       Z.testbit (f' !!! Z.to_nat (j * len_nf + c)) b = true ↔
       Z.testbit (frontier !!! Z.to_nat (j * len_nf + c)) b = true ∨
       ∃ i, 0 ≤ i < Z.of_nat (length set) ∧ i mod C = j ∧
            nf_updated !!! Z.to_nat i = 1 ∧
            Z.testbit (nf_tmp !!! Z.to_nat (i * len_nf + c)) b = true) ∧
    (∀ k : nat, C * len_nf ≤ Z.of_nat k → f' !! k = frontier !! k).
Proof.
  intros HC Hlen Hupd Hnf Hfit Hfr Hfrfit.
  set (sel := λ (j i : Z), i mod C = j ∧ nf_updated !!! Z.to_nat i = 1).
  assert (∃ f', start_2d_union set (C * len_nf) len_nf nf_updated nf_tmp frontier = Some f' ∧
                length f' = length frontier ∧
                ∀ k : nat,
                  f' !! k
                  = if decide (Z.of_nat k < C * len_nf)
                    then Some (foldl Z.lor (frontier !!! k)
                                 (nf_words len_nf nf_tmp
                                    (filter (sel (Z.of_nat k / len_nf))
                                            (seqZ 0 (Z.of_nat (length set))))
                                    (Z.of_nat k mod len_nf)))
                    else frontier !! k) as (f' & Hrun & Hl & Hcells).
  { unfold start_2d_union.
    destruct (dpu_foreach_inv
      (λ i (f : list Z),
         length f = length frontier ∧
         ∀ k : nat,
           f !! k
           = if decide (Z.of_nat k < C * len_nf)
             then Some (foldl Z.lor (frontier !!! k)
                          (nf_words len_nf nf_tmp
                             (filter (sel (Z.of_nat k / len_nf)) (seqZ 0 i))
                             (Z.of_nat k mod len_nf)))
             else frontier !! k)
      (λ (dpu : DPU) i frontier,
         updated ← rd nf_updated i;
         if decide (updated = 1) then
           for_upto len_nf (λ c frontier,
             off ← start_2d_nf_offset (C * len_nf) len_nf i;
             x ← rd nf_tmp (u32 (u32 (i * len_nf) + c));
             y ← rd frontier (u32 (off + c));
             wr frontier (u32 (off + c)) (Z.lor y x)) frontier
         else Some frontier)
      set 0 frontier) as (f' & Hrun & Hinv).
    - split; [done|]. intros k. case_decide; [|done]. simpl.
      apply list_lookup_lookup_total_lt. lia.
    - intros k0 dpu f Hk0 [Hl Hcells]. rewrite !Z.add_0_l.
      change (0 + Z.of_nat k0) with (Z.of_nat k0) in Hcells.
      apply lookup_lt_Some in Hk0. remember (Z.of_nat k0) as i eqn:Hi.
      destruct (lookup_lt_is_Some_2 nf_updated k0) as [u Hu]; [lia|].
      assert (Z.to_nat i = k0) as Hik by lia.
      replace (rd nf_updated i) with (Some u)
        by (unfold rd; rewrite decide_True by lia; by rewrite Hik).
      cbn [mbind option_bind].
      assert (∀ j, filter (sel j) (seqZ 0 (i + 1))
                   = filter (sel j) (seqZ 0 i)
                     ++ (if decide (i mod C = j ∧ u = 1) then [i] else [])) as Hsel.
      { intros j. rewrite (seqZ_app 0 i 1), Z.add_0_l, filter_app by lia. f_equal.
        change (seqZ i 1) with [i]. unfold sel at 1.
        assert (nf_updated !!! Z.to_nat i = u) as Hui
          by (rewrite Hik; by apply list_lookup_total_correct).
        rewrite filter_cons, filter_nil.
        destruct (decide (i mod C = j ∧ u = 1)) as [Hp|Hp];
          [rewrite decide_True by (by rewrite Hui)|rewrite decide_False by (by rewrite Hui)];
          done. }
      destruct (decide (u = 1)) as [->|Hu1].
      + assert (0 ≤ i * len_nf ∧ i * len_nf + len_nf ≤ Z.of_nat (length set) * len_nf)
          as Hil by nia.
        pose proof (Z.mod_pos_bound i C HC) as Hmod.
        assert (0 ≤ i mod C * len_nf ∧ i mod C * len_nf + len_nf ≤ C * len_nf) as Hdl by nia.
        rewrite (for_upto_ext _ (λ c f, x ← rd nf_tmp (i * len_nf + c);
                                        y ← rd f (i mod C * len_nf + c);
                                        wr f (i mod C * len_nf + c) (Z.lor y x))).
        2:{ intros c g Hc. unfold start_2d_nf_offset, umod.
            rewrite decide_False by lia. cbn [mbind option_bind].
            rewrite (u32_small (i * len_nf)) by (unfold is_u32; lia).
            rewrite Z.mul_mod_distr_r by lia.
            rewrite !u32_small by (unfold is_u32; lia). done. }
        destruct (union_block nf_tmp f (i * len_nf) (i mod C * len_nf) len_nf)
          as (f1 & -> & Hl1 & Hc1); [lia..|].
        eexists. split; [done|]. split; [lia|].
        intros k. rewrite Hc1. pose proof (Hcells k) as Hfk.
        rewrite Hsel.
        destruct (decide (i mod C * len_nf ≤ Z.of_nat k < i mod C * len_nf + len_nf))
          as [Hin|Hout].
        * rewrite decide_True in Hfk |- * by lia.
          apply block_of_word in Hin as Hq; [|lia..].
          rewrite decide_True by done. f_equal.
          rewrite (list_lookup_total_correct _ _ _ Hfk).
          unfold nf_words. rewrite fmap_app, foldl_app. simpl. do 2 f_equal.
          pose proof (Z.div_mod (Z.of_nat k) len_nf ltac:(lia)). lia.
        * rewrite Hfk. case_decide; [|done].
          rewrite decide_False; [by rewrite app_nil_r|].
          intros [Hq _]. apply Hout. apply block_of_word; [lia..|done].
      + eexists. split; [done|]. split; [done|].
        intros k. rewrite Hcells, Hsel.
        rewrite (decide_False (P := _ ∧ u = 1)) by tauto. by rewrite app_nil_r.
    - exists f'. rewrite Z.add_0_l in Hinv. by destruct Hinv. }
  exists f'. split; [done|]. split; [done|].
  assert (∀ j c, 0 ≤ j < C → 0 ≤ c < len_nf →
            0 ≤ j * len_nf + c < C * len_nf ∧
            (j * len_nf + c) / len_nf = j ∧ (j * len_nf + c) mod len_nf = c) as Hjc.
  { intros j c Hj Hc. split; [nia|]. split.
    - rewrite Z.div_add_l, Z.div_small by lia. lia.
    - rewrite Z.add_comm, Z.mod_add by lia. apply Z.mod_small. lia. }
  assert (∀ j c, 0 ≤ j < C → 0 ≤ c < len_nf →
            f' !! Z.to_nat (j * len_nf + c)
            = Some (foldl Z.lor (frontier !!! Z.to_nat (j * len_nf + c))
                      (nf_words len_nf nf_tmp
                         (filter (sel j) (seqZ 0 (Z.of_nat (length set)))) c))) as Hword.
  { intros j c Hj Hc. destruct (Hjc j c Hj Hc) as (Hr & Hq & Hm).
    rewrite Hcells, Z2Nat.id by lia. rewrite decide_True by lia. by rewrite Hq, Hm. }
  split; [exact Hword|]. split.
  - intros j c b Hj Hc.
    rewrite (list_lookup_total_correct _ _ _ (Hword j c Hj Hc)), testbit_foldl_lor.
    apply or_iff_compat_l. unfold nf_words. split.
    + intros (x & Hx & Hb). apply list_elem_of_fmap in Hx as (i & -> & Hi).
      apply list_elem_of_filter in Hi as [[Hi1 Hi2] Hi]. apply elem_of_seqZ in Hi.
      exists i. split; [lia|done].
    + intros (i & Hi & Hi1 & Hi2 & Hb). eexists. split; [|exact Hb].
      apply list_elem_of_fmap. exists i. split; [done|].
      apply list_elem_of_filter. split; [done|]. apply elem_of_seqZ. lia.
  - intros k Hk. by rewrite Hcells, decide_False by lia.
Qed.

Lemma start_2d_union_by_grid_column_witness :
  ∃ f',
    start_2d_union [mkDPU ∅ (λ _, 0); mkDPU ∅ (λ _, 0); mkDPU ∅ (λ _, 0); mkDPU ∅ (λ _, 0)]
      (2 * 1) 1 [1; 0; 1; 1] [1; 2; 4; 8] [0; 0; 99] = Some f' ∧
    length f' = length [0; 0; 99] ∧
    (∀ j c, 0 ≤ j < 2 → 0 ≤ c < 1 →
       f' !! Z.to_nat (j * 1 + c)
       = Some (foldl Z.lor ([0; 0; 99] !!! Z.to_nat (j * 1 + c))
                 (nf_words 1 [1; 2; 4; 8]
                    (filter (λ i, i mod 2 = j ∧ [1; 0; 1; 1] !!! Z.to_nat i = 1)
                            (seqZ 0 (Z.of_nat (length
                               [mkDPU ∅ (λ _, 0); mkDPU ∅ (λ _, 0); mkDPU ∅ (λ _, 0);
                                mkDPU ∅ (λ _, 0)])))) c))) ∧
    (∀ j c b, 0 ≤ j < 2 → 0 ≤ c < 1 →
       Z.testbit (f' !!! Z.to_nat (j * 1 + c)) b = true ↔
       Z.testbit ([0; 0; 99] !!! Z.to_nat (j * 1 + c)) b = true ∨
       ∃ i, 0 ≤ i < Z.of_nat (length
                      [mkDPU ∅ (λ _, 0); mkDPU ∅ (λ _, 0); mkDPU ∅ (λ _, 0);
                       mkDPU ∅ (λ _, 0)]) ∧ i mod 2 = j ∧
            [1; 0; 1; 1] !!! Z.to_nat i = 1 ∧
            Z.testbit ([1; 2; 4; 8] !!! Z.to_nat (i * 1 + c)) b = true) ∧
    (∀ k : nat, 2 * 1 ≤ Z.of_nat k → f' !! k = [0; 0; 99] !! k).
Proof.
  apply (start_2d_union_by_grid_column
           [mkDPU ∅ (λ _, 0); mkDPU ∅ (λ _, 0); mkDPU ∅ (λ _, 0); mkDPU ∅ (λ _, 0)]
           2 1 [1; 0; 1; 1] [1; 2; 4; 8] [0; 0; 99]).
  - lia.
  - lia.
  - simpl. lia.
  - simpl. lia.
  - reflexivity.
  - simpl. lia.
  - reflexivity.
Defined.
